(** * A doubly-linked deque over a pluggable allocator

    Shallow embedding of [deque.h], [allocator.h] and
    [allocator_interface.h] and the properties of the deque that follow
    from them.

    Nodes live in a store of heap blocks addressed by pointers; deque
    objects live in a store of objects addressed by references, so that
    two deques can be handed to one operation (and can be the same
    object).  Every method is a computation in a state-and-error monad
    whose outcomes are: normal return, a thrown C++ exception (with the
    state at the throw), undefined behaviour, and exhausted loop fuel. *)

From Stdlib Require Import ZArith Lia.
From stdpp Require Import gmap strings list fin_maps functions.

Local Open Scope Z_scope.

(** ** Pointers, references, outcomes *)

(** A pointer is an address; address [0] is [nullptr]. *)
Abbreviation ptr := N.
Definition nullptr : ptr := 0%N.

(** A reference to a deque object (the object's identity). *)
Abbreviation dref := N.

(** A field of a block returned by [malloc] holds no value until it is
    assigned. *)
Inductive slot (A : Type) : Type :=
| Indeterminate
| Init (a : A).
Arguments Indeterminate {A}.
Arguments Init {A} a.

(** What a call can do. [Throw what s]: a C++ exception whose message
    is [what] left the call in state [s]. [Fault]: undefined behaviour (a
    null or dangling pointer was used). [Timeout]: a loop was cut off by
    the fuel of the model. *)
Inductive outcome (St A : Type) : Type :=
| Ok (a : A) (s : St)
| Throw (what : string) (s : St)
| Fault
| Timeout.
Arguments Ok {St A} a s.
Arguments Throw {St A} what s.
Arguments Fault {St A}.
Arguments Timeout {St A}.

(** [unsigned int] arithmetic: 32 bits, wrapping. *)
Definition UINT_MOD : Z := 4294967296.
Definition uint (z : Z) : Z := z mod UINT_MOD.

(** The two messages the deque throws, under the names of the error
    kinds. *)
Definition EmptyContainer : string := "Deque is empty".
Definition InvalidIterator : string := "Try to use end iterator".

Section Deque.

Context {elemType : Type}.

(** ** The heap of nodes *)

(** [struct node_t]. *)
Record node_t : Type := mk_node {
  value : slot elemType;
  prev : slot ptr;
  next : slot ptr
}.

(** The process heap: the live blocks, and how many more blocks the
    system can hand out before [malloc] fails. *)
Record memory : Type := mk_memory {
  cells : gmap N node_t;
  avail : N
}.

Definition uninit : node_t := mk_node Indeterminate Indeterminate Indeterminate.

(** [malloc]: a null pointer when the system has no block left, else a
    block at an address that is neither null nor live, its contents
    indeterminate. *)
Definition malloc (sz : N) (m : memory) : ptr * memory :=
  if (avail m =? 0)%N then (nullptr, m)
  else
    let p := fresh ({[nullptr]} ∪ dom (cells m)) in
    (p, mk_memory (<[p := uninit]> (cells m)) (avail m - 1)%N).

(** [free]: nothing for a null pointer; releases a live block; anything
    else is undefined. *)
Definition free (p : ptr) (m : memory) : outcome memory unit :=
  if (p =? nullptr)%N then Ok tt m
  else
    match cells m !! p with
    | Some _ => Ok tt (mk_memory (delete p (cells m)) (avail m + 1)%N)
    | None => Fault
    end.

(** ** The allocator *)

(** [allocator_interface_t]: the two virtual methods. *)
Class allocator_interface_t (A : Type) : Type := {
  alloc : A → N → memory → outcome memory ptr;
  dealloc : A → ptr → memory → outcome memory unit
}.

(** [simple_allocator_t]: no data members. *)
Inductive simple_allocator_t : Type := SimpleAllocator.

#[export] Instance simple_allocator : allocator_interface_t simple_allocator_t := {
  alloc _ sz m := let '(p, m') := malloc sz m in Ok p m';
  dealloc _ data m := free data m
}.

(** It is default-constructible. *)
#[export] Instance simple_allocator_inhabited : Inhabited simple_allocator_t :=
  populate SimpleAllocator.

(** ** Deque objects and the program state *)

(** [sizeof(node_t)], which depends on the element type and the
    platform. *)
Class node_layout : Type := sizeof_node_t : N.

Context {memoryAllocator : Type}.

(** The data members of [deque_t]. *)
Record deque_t : Type := mk_deque {
  head : ptr;
  tail : ptr;
  size : Z;
  allocator : memoryAllocator
}.

(** One call of an allocator method, seen from outside: which deque's
    allocator instance was called, and on which block. *)
Inductive event : Type :=
| EvAlloc (inst : dref) (p : ptr)
| EvDealloc (inst : dref) (p : ptr).

Record state : Type := mk_state {
  objs : gmap N deque_t;
  mem : memory;
  trace : list event
}.

(** ** The monad of method bodies *)

Definition M (A : Type) : Type := state → outcome state A.

Definition ret {A} (a : A) : M A := fun s => Ok a s.

Definition bind {A B} (m : M A) (f : A → M B) : M B :=
  fun s =>
    match m s with
    | Ok a s' => f a s'
    | Throw w s' => Throw w s'
    | Fault => Fault
    | Timeout => Timeout
    end.

Definition throw {A} (what : string) : M A := fun s => Throw what s.
Definition fault {A} : M A := fun _ => Fault.
Definition timeout {A} : M A := fun _ => Timeout.

End Deque.

Arguments node_t : clear implicits.
Arguments memory : clear implicits.
Arguments allocator_interface_t : clear implicits.
Arguments deque_t : clear implicits.
Arguments state : clear implicits.
Arguments M : clear implicits.

Declare Scope deque_scope.
Delimit Scope deque_scope with deque.
Notation "x <- e ;; k" := (bind e (fun x => k))
  (at level 100, e at next level, right associativity,
   format "'[v' x  <-  e  ;;  '/' k ']'") : deque_scope.
Notation "e ;; k" := (bind e (fun _ => k))
  (at level 100, right associativity) : deque_scope.

Local Open Scope deque_scope.

(** ** Access to objects and to nodes *)

Section Access.

Context {elemType memoryAllocator : Type}.

Abbreviation M := (M elemType memoryAllocator).
Abbreviation deque_t := (deque_t memoryAllocator).
Abbreviation node_t := (node_t elemType).

(** Run an operation of the heap inside the program state. *)
Definition lift_mem {A} (f : memory elemType → outcome (memory elemType) A) : M A :=
  fun s =>
    match f (mem s) with
    | Ok a m' => Ok a (mk_state (objs s) m' (trace s))
    | Throw w m' => Throw w (mk_state (objs s) m' (trace s))
    | Fault => Fault
    | Timeout => Timeout
    end.

Definition log (e : event) : M unit :=
  fun s => Ok tt (mk_state (objs s) (mem s) (trace s ++ [e])).

(** The object behind a reference; using a reference to no object is
    undefined. *)
Definition object (this : dref) : M deque_t :=
  fun s =>
    match objs s !! this with
    | Some d => Ok d s
    | None => Fault
    end.

Definition update (this : dref) (f : deque_t → deque_t) : M unit :=
  fun s =>
    match objs s !! this with
    | Some d => Ok tt (mk_state (<[this := f d]> (objs s)) (mem s) (trace s))
    | None => Fault
    end.

Definition get_head (this : dref) : M ptr := d <- object this ;; ret (head d).
Definition get_tail (this : dref) : M ptr := d <- object this ;; ret (tail d).
Definition get_size (this : dref) : M Z := d <- object this ;; ret (size d).

Definition set_head (this : dref) (p : ptr) : M unit :=
  update this (fun d => mk_deque p (tail d) (size d) (allocator d)).
Definition set_tail (this : dref) (p : ptr) : M unit :=
  update this (fun d => mk_deque (head d) p (size d) (allocator d)).
Definition set_size (this : dref) (n : Z) : M unit :=
  update this (fun d => mk_deque (head d) (tail d) n (allocator d)).

(** The node behind a pointer: none behind [nullptr] or a pointer to a
    block that is not live. *)
Definition cell (p : ptr) (m : memory elemType) : option node_t :=
  if (p =? nullptr)%N then None else cells m !! p.

Definition node (p : ptr) : M node_t :=
  fun s =>
    match cell p (mem s) with
    | Some n => Ok n s
    | None => Fault
    end.

(** Reading a field that was never assigned is undefined. *)
Definition read {A} (x : slot A) : M A :=
  match x with
  | Init a => ret a
  | Indeterminate => fault
  end.

Definition get_value (p : ptr) : M elemType := n <- node p ;; read (value n).
Definition get_prev (p : ptr) : M ptr := n <- node p ;; read (prev n).
Definition get_next (p : ptr) : M ptr := n <- node p ;; read (next n).

Definition store (p : ptr) (f : node_t → node_t) : M unit :=
  fun s =>
    match cell p (mem s) with
    | Some n =>
        Ok tt (mk_state (objs s)
                 (mk_memory (<[p := f n]> (cells (mem s))) (avail (mem s)))
                 (trace s))
    | None => Fault
    end.

Definition set_value (p : ptr) (v : elemType) : M unit :=
  store p (fun n => mk_node (Init v) (prev n) (next n)).
Definition set_prev (p : ptr) (q : ptr) : M unit :=
  store p (fun n => mk_node (value n) (Init q) (next n)).
Definition set_next (p : ptr) (q : ptr) : M unit :=
  store p (fun n => mk_node (value n) (prev n) (Init q)).

Context `{!allocator_interface_t elemType memoryAllocator} `{!node_layout}.

(** [allocator.alloc(sizeof(node_t))] and [allocator.dealloc(p)] as
    called from a method of [this]. *)
Definition call_alloc (this : dref) : M ptr :=
  d <- object this ;;
  p <- lift_mem (alloc (allocator d) sizeof_node_t) ;;
  log (EvAlloc this p) ;;
  ret p.

Definition call_dealloc (this : dref) (p : ptr) : M unit :=
  d <- object this ;;
  lift_mem (dealloc (allocator d) p) ;;
  log (EvDealloc this p).

End Access.

(** ** The iterators *)

(** [deque_t::iterator]. Incrementing changes the iterator, which is a
    value of the caller: [pre_incr] returns the iterator after the step,
    [post_incr] the copy that the operator returns and the iterator after
    the step. Dereferencing gives a reference to the value of the node;
    [deref] reads through it and [assign] writes through it. *)
Module iterator.
Section Ops.
Context {elemType memoryAllocator : Type}.
Abbreviation M := (M elemType memoryAllocator).

Record t : Type := mk { curNode : ptr }.

Definition pre_incr (it : t) : M t :=
  if (curNode it =? nullptr)%N then throw InvalidIterator
  else
    nx <- get_next (curNode it) ;;
    ret (mk nx).

Definition post_incr (it : t) : M (t * t) :=
  if (curNode it =? nullptr)%N then throw InvalidIterator
  else
    let tmp := it in
    nx <- get_next (curNode it) ;;
    ret (tmp, mk nx).

Definition eq (a b : t) : bool := (curNode a =? curNode b)%N.
Definition neq (a b : t) : bool := negb (curNode a =? curNode b)%N.

Definition deref (it : t) : M elemType :=
  if (curNode it =? nullptr)%N then throw InvalidIterator
  else get_value (curNode it).

Definition assign (it : t) (v : elemType) : M unit :=
  if (curNode it =? nullptr)%N then throw InvalidIterator
  else set_value (curNode it) v.

End Ops.
End iterator.

(** [deque_t::const_iterator]: the same walk, read-only. *)
Module const_iterator.
Section Ops.
Context {elemType memoryAllocator : Type}.
Abbreviation M := (M elemType memoryAllocator).

Record t : Type := mk { curNode : ptr }.

Definition pre_incr (it : t) : M t :=
  if (curNode it =? nullptr)%N then throw InvalidIterator
  else
    nx <- get_next (curNode it) ;;
    ret (mk nx).

Definition post_incr (it : t) : M (t * t) :=
  if (curNode it =? nullptr)%N then throw InvalidIterator
  else
    let tmp := it in
    nx <- get_next (curNode it) ;;
    ret (tmp, mk nx).

Definition eq (a b : t) : bool := (curNode a =? curNode b)%N.
Definition neq (a b : t) : bool := negb (curNode a =? curNode b)%N.

Definition deref (it : t) : M elemType :=
  if (curNode it =? nullptr)%N then throw InvalidIterator
  else get_value (curNode it).

End Ops.
End const_iterator.

(** [deque_t::reverse_iterator]: steps along [prev]. *)
Module reverse_iterator.
Section Ops.
Context {elemType memoryAllocator : Type}.
Abbreviation M := (M elemType memoryAllocator).

Record t : Type := mk { curNode : ptr }.

Definition pre_incr (it : t) : M t :=
  if (curNode it =? nullptr)%N then throw InvalidIterator
  else
    pv <- get_prev (curNode it) ;;
    ret (mk pv).

Definition post_incr (it : t) : M (t * t) :=
  if (curNode it =? nullptr)%N then throw InvalidIterator
  else
    let tmp := it in
    pv <- get_prev (curNode it) ;;
    ret (tmp, mk pv).

Definition eq (a b : t) : bool := (curNode a =? curNode b)%N.
Definition neq (a b : t) : bool := negb (curNode a =? curNode b)%N.

Definition deref (it : t) : M elemType :=
  if (curNode it =? nullptr)%N then throw InvalidIterator
  else get_value (curNode it).

Definition assign (it : t) (v : elemType) : M unit :=
  if (curNode it =? nullptr)%N then throw InvalidIterator
  else set_value (curNode it) v.

End Ops.
End reverse_iterator.

(** ** The methods of [deque_t] *)

Section Methods.

Context {elemType memoryAllocator : Type}.
Context `{!allocator_interface_t elemType memoryAllocator} `{!node_layout}.
Context `{!Inhabited memoryAllocator}.

Abbreviation M := (M elemType memoryAllocator).
Abbreviation deque_t := (deque_t memoryAllocator).

Definition begin (this : dref) : M iterator.t :=
  h <- get_head this ;; ret (iterator.mk h).
Definition end_ (this : dref) : M iterator.t :=
  ret (iterator.mk nullptr).

Definition begin_const (this : dref) : M const_iterator.t :=
  h <- get_head this ;; ret (const_iterator.mk h).
Definition end_const (this : dref) : M const_iterator.t :=
  ret (const_iterator.mk nullptr).

Definition rbegin (this : dref) : M reverse_iterator.t :=
  t <- get_tail this ;; ret (reverse_iterator.mk t).
Definition rend (this : dref) : M reverse_iterator.t :=
  ret (reverse_iterator.mk nullptr).

(** A constructor starts the lifetime of a new object: the reference
    must not name a live object. The allocator member is
    default-constructed. *)
Definition new_object (this : dref) (hd tl : ptr) (sz : Z) : M unit :=
  fun s =>
    match objs s !! this with
    | Some _ => Fault
    | None =>
        Ok tt (mk_state (<[this := mk_deque hd tl sz inhabitant]> (objs s))
                 (mem s) (trace s))
    end.

(** The end of the lifetime of an object. *)
Definition delete_object (this : dref) : M unit :=
  fun s =>
    match objs s !! this with
    | Some _ => Ok tt (mk_state (delete this (objs s)) (mem s) (trace s))
    | None => Fault
    end.

Definition IsEmpty (this : dref) : M bool :=
  h <- get_head this ;; ret (h =? nullptr)%N.

Definition Size (this : dref) : M Z := get_size this.

Definition PeekHead (this : dref) : M elemType :=
  h <- get_head this ;;
  if (h =? nullptr)%N then throw EmptyContainer
  else get_value h.

(** [GetFront] gives a reference to the value of the head node:
    [GetFront] reads through it, [GetFront_assign] is
    [d.GetFront() = v]. *)
Definition GetFront (this : dref) : M elemType :=
  h <- get_head this ;;
  if (h =? nullptr)%N then throw EmptyContainer
  else get_value h.

Definition GetFront_assign (this : dref) (v : elemType) : M unit :=
  h <- get_head this ;;
  if (h =? nullptr)%N then throw EmptyContainer
  else set_value h v.

Definition PeekTail (this : dref) : M elemType :=
  t <- get_tail this ;;
  if (t =? nullptr)%N then throw EmptyContainer
  else get_value t.

Definition GetBack (this : dref) : M elemType :=
  t <- get_tail this ;;
  if (t =? nullptr)%N then throw EmptyContainer
  else get_value t.

Definition GetBack_assign (this : dref) (v : elemType) : M unit :=
  t <- get_tail this ;;
  if (t =? nullptr)%N then throw EmptyContainer
  else set_value t v.

(** [PushFront(elemType const&)]. *)
Definition PushFront (this : dref) (elem : elemType) : M unit :=
  tmp <- call_alloc this ;;
  set_value tmp elem ;;
  h <- get_head this ;;
  set_next tmp h ;;
  set_prev tmp nullptr ;;
  h <- get_head this ;;
  (if negb (h =? nullptr)%N then set_prev h tmp else ret tt) ;;
  set_head this tmp ;;
  t <- get_tail this ;;
  (if (t =? nullptr)%N then h <- get_head this ;; set_tail this h else ret tt) ;;
  sz <- get_size this ;;
  set_size this (uint (sz + 1)).

(** [PushFront(elemType&&)]: the value is moved into the node. *)
Definition PushFront_move (this : dref) (elem : elemType) : M unit :=
  tmp <- call_alloc this ;;
  set_value tmp elem ;;
  h <- get_head this ;;
  set_next tmp h ;;
  set_prev tmp nullptr ;;
  h <- get_head this ;;
  (if negb (h =? nullptr)%N then set_prev h tmp else ret tt) ;;
  set_head this tmp ;;
  t <- get_tail this ;;
  (if (t =? nullptr)%N then h <- get_head this ;; set_tail this h else ret tt) ;;
  sz <- get_size this ;;
  set_size this (uint (sz + 1)).

(** [PushBack(elemType const&)]. *)
Definition PushBack (this : dref) (elem : elemType) : M unit :=
  tmp <- call_alloc this ;;
  set_value tmp elem ;;
  set_next tmp nullptr ;;
  t <- get_tail this ;;
  set_prev tmp t ;;
  t <- get_tail this ;;
  (if negb (t =? nullptr)%N then set_next t tmp else ret tt) ;;
  set_tail this tmp ;;
  h <- get_head this ;;
  (if (h =? nullptr)%N then t <- get_tail this ;; set_head this t else ret tt) ;;
  sz <- get_size this ;;
  set_size this (uint (sz + 1)).

(** [PushBack(elemType&&)]. *)
Definition PushBack_move (this : dref) (elem : elemType) : M unit :=
  tmp <- call_alloc this ;;
  set_value tmp elem ;;
  set_next tmp nullptr ;;
  t <- get_tail this ;;
  set_prev tmp t ;;
  t <- get_tail this ;;
  (if negb (t =? nullptr)%N then set_next t tmp else ret tt) ;;
  set_tail this tmp ;;
  h <- get_head this ;;
  (if (h =? nullptr)%N then t <- get_tail this ;; set_head this t else ret tt) ;;
  sz <- get_size this ;;
  set_size this (uint (sz + 1)).

Definition PopFront (this : dref) : M unit :=
  h <- get_head this ;;
  if (h =? nullptr)%N then throw EmptyContainer
  else
    let tmp := h in
    nx <- get_next h ;;
    set_head this nx ;;
    call_dealloc this tmp ;;
    h <- get_head this ;;
    (if (h =? nullptr)%N then set_tail this nullptr else set_prev h nullptr) ;;
    sz <- get_size this ;;
    set_size this (uint (sz - 1)).

Definition PopBack (this : dref) : M unit :=
  t <- get_tail this ;;
  if (t =? nullptr)%N then throw EmptyContainer
  else
    let tmp := t in
    pv <- get_prev t ;;
    set_tail this pv ;;
    call_dealloc this tmp ;;
    t <- get_tail this ;;
    (if (t =? nullptr)%N then set_head this nullptr else set_next t nullptr) ;;
    sz <- get_size this ;;
    set_size this (uint (sz - 1)).

(** [for (auto& d : deque) PushBack(d);] over a [deque_t const&]: the
    loop of the range-for statement, from iterator [it] up to [last]. *)
Fixpoint push_back_range (fuel : nat) (this : dref)
    (it last : const_iterator.t) : M unit :=
  if const_iterator.neq it last then
    match fuel with
    | O => timeout
    | S fuel' =>
        d <- const_iterator.deref it ;;
        PushBack this d ;;
        it' <- const_iterator.pre_incr it ;;
        push_back_range fuel' this it' last
    end
  else ret tt.

Definition push_back_all (fuel : nat) (this deque : dref) : M unit :=
  b <- begin_const deque ;;
  e <- end_const deque ;;
  push_back_range fuel this b e.

(** [while (head) PopBack();] *)
Fixpoint Clear (fuel : nat) (this : dref) : M unit :=
  h <- get_head this ;;
  if negb (h =? nullptr)%N then
    match fuel with
    | O => timeout
    | S fuel' => PopBack this ;; Clear fuel' this
    end
  else ret tt.

(** [deque_t()]. *)
Definition deque_t_default (this : dref) : M unit :=
  new_object this nullptr nullptr 0.

(** [deque_t(std::initializer_list<elemType>)]. *)
Fixpoint push_back_list (this : dref) (list : list elemType) : M unit :=
  match list with
  | [] => ret tt
  | l :: rest => PushBack this l ;; push_back_list this rest
  end.

Definition deque_t_list (this : dref) (list : list elemType) : M unit :=
  new_object this nullptr nullptr 0 ;;
  push_back_list this list.

(** [deque_t(deque_t const&)]. *)
Definition deque_t_copy (fuel : nat) (this deque : dref) : M unit :=
  new_object this nullptr nullptr 0 ;;
  push_back_all fuel this deque.

(** [deque_t(deque_t&&)]: the members have no initializer, the body
    assigns each of them before anything reads it. *)
Definition deque_t_move (this deque : dref) : M unit :=
  new_object this nullptr nullptr 0 ;;
  h <- get_head deque ;; set_head this h ;;
  t <- get_tail deque ;; set_tail this t ;;
  sz <- get_size deque ;; set_size this sz ;;
  set_head deque nullptr ;;
  set_tail deque nullptr ;;
  set_size deque 0.

(** [operator=(deque_t const&)]. *)
Definition assign_copy (fuel : nat) (this deque : dref) : M unit :=
  Clear fuel this ;;
  push_back_all fuel this deque.

(** [operator=(deque_t&&)]. *)
Definition assign_move (fuel : nat) (this deque : dref) : M unit :=
  Clear fuel this ;;
  h <- get_head deque ;; set_head this h ;;
  t <- get_tail deque ;; set_tail this t ;;
  sz <- get_size deque ;; set_size this sz ;;
  set_head deque nullptr ;;
  set_tail deque nullptr ;;
  set_size deque 0.

(** [AddOtherDeque(deque_t const&)]. *)
Definition AddOtherDeque (fuel : nat) (this deque : dref) : M unit :=
  push_back_all fuel this deque.

(** [AddOtherDeque(deque_t&&)]. *)
Definition AddOtherDeque_move (this deque : dref) : M unit :=
  t <- get_tail this ;;
  if (t =? nullptr)%N then
    h <- get_head deque ;; set_head this h ;;
    t <- get_tail deque ;; set_tail this t ;;
    sz <- get_size deque ;; set_size this sz ;;
    set_head deque nullptr ;;
    set_tail deque nullptr ;;
    set_size deque 0
  else
    dh <- get_head deque ;;
    if negb (dh =? nullptr)%N then
      t <- get_tail this ;; dh <- get_head deque ;; set_next t dh ;;
      dh <- get_head deque ;; t <- get_tail this ;; set_prev dh t ;;
      dt <- get_tail deque ;; set_tail this dt ;;
      sz <- get_size this ;; dsz <- get_size deque ;; set_size this (uint (sz + dsz)) ;;
      set_head deque nullptr ;;
      set_tail deque nullptr ;;
      set_size deque 0
    else ret tt.

(** [~deque_t()]. *)
Definition destructor (fuel : nat) (this : dref) : M unit :=
  Clear fuel this ;;
  delete_object this.

End Methods.

(** ** Programs over deques *)

(** A caller is a sequence of uses of the public interface. Each use
    names the objects it is applied to; a constructor names the new
    object. *)
Inductive op (elemType : Type) : Type :=
| Construct (this : dref)
| ConstructList (this : dref) (list : list elemType)
| ConstructCopy (this deque : dref)
| ConstructMove (this deque : dref)
| AssignCopy (this deque : dref)
| AssignMove (this deque : dref)
| CallIsEmpty (this : dref)
| CallSize (this : dref)
| CallPeekHead (this : dref)
| CallGetFront (this : dref)
| CallGetFrontAssign (this : dref) (v : elemType)
| CallPeekTail (this : dref)
| CallGetBack (this : dref)
| CallGetBackAssign (this : dref) (v : elemType)
| CallPushFront (this : dref) (elem : elemType)
| CallPushFrontMove (this : dref) (elem : elemType)
| CallPushBack (this : dref) (elem : elemType)
| CallPushBackMove (this : dref) (elem : elemType)
| CallPopFront (this : dref)
| CallPopBack (this : dref)
| CallAddOtherDeque (this deque : dref)
| CallAddOtherDequeMove (this deque : dref)
| CallClear (this : dref)
| Destroy (this : dref)
| Output (deque : dref)
| OutputReversed (this : dref)
| WriteAt (this : dref) (k : nat) (v : elemType)
| WriteAtReversed (this : dref) (k : nat) (v : elemType).
Arguments Construct {elemType}.
Arguments ConstructList {elemType}.
Arguments ConstructCopy {elemType}.
Arguments ConstructMove {elemType}.
Arguments AssignCopy {elemType}.
Arguments AssignMove {elemType}.
Arguments CallIsEmpty {elemType}.
Arguments CallSize {elemType}.
Arguments CallPeekHead {elemType}.
Arguments CallGetFront {elemType}.
Arguments CallGetFrontAssign {elemType}.
Arguments CallPeekTail {elemType}.
Arguments CallGetBack {elemType}.
Arguments CallGetBackAssign {elemType}.
Arguments CallPushFront {elemType}.
Arguments CallPushFrontMove {elemType}.
Arguments CallPushBack {elemType}.
Arguments CallPushBackMove {elemType}.
Arguments CallPopFront {elemType}.
Arguments CallPopBack {elemType}.
Arguments CallAddOtherDeque {elemType}.
Arguments CallAddOtherDequeMove {elemType}.
Arguments CallClear {elemType}.
Arguments Destroy {elemType}.
Arguments Output {elemType}.
Arguments OutputReversed {elemType}.
Arguments WriteAt {elemType}.
Arguments WriteAtReversed {elemType}.

Section Programs.

Context {elemType memoryAllocator : Type}.
Context `{!allocator_interface_t elemType memoryAllocator} `{!node_layout}.
Context `{!Inhabited memoryAllocator}.

Abbreviation M := (M elemType memoryAllocator).
Abbreviation state := (state elemType memoryAllocator).

Definition forget {A} (m : M A) : M unit := m ;; ret tt.

(** The values met by a forward walk with a [const_iterator], as in
    [for (auto& d : deque)] over a [deque_t const&]. *)
Fixpoint walk (fuel : nat) (it last : const_iterator.t) : M (list elemType) :=
  if const_iterator.neq it last then
    match fuel with
    | O => timeout
    | S fuel' =>
        d <- const_iterator.deref it ;;
        it' <- const_iterator.pre_incr it ;;
        rest <- walk fuel' it' last ;;
        ret (d :: rest)
    end
  else ret [].

(** The values met by a backward walk with a [reverse_iterator], as in
    [for (rev = d.rbegin(); rev != d.rend(); rev++)]. *)
Fixpoint rwalk (fuel : nat) (it last : reverse_iterator.t) : M (list elemType) :=
  if reverse_iterator.neq it last then
    match fuel with
    | O => timeout
    | S fuel' =>
        d <- reverse_iterator.deref it ;;
        its <- reverse_iterator.post_incr it ;;
        rest <- rwalk fuel' (snd its) last ;;
        ret (d :: rest)
    end
  else ret [].

(** [operator<<]: the values it sends to the stream. *)
Definition output (fuel : nat) (deque : dref) : M (list elemType) :=
  b <- begin_const deque ;; e <- end_const deque ;; walk fuel b e.

Definition output_reversed (fuel : nat) (this : dref) : M (list elemType) :=
  b <- rbegin this ;; e <- rend this ;; rwalk fuel b e.

(** [++it] done [k] times. *)
Fixpoint advance (k : nat) (it : iterator.t) : M iterator.t :=
  match k with
  | O => ret it
  | S k' => it' <- iterator.pre_incr it ;; advance k' it'
  end.

Fixpoint radvance (k : nat) (it : reverse_iterator.t) : M reverse_iterator.t :=
  match k with
  | O => ret it
  | S k' => it' <- reverse_iterator.pre_incr it ;; radvance k' it'
  end.

(** [*it = v] for the iterator [k] steps after [begin()], and for the
    reverse iterator [k] steps after [rbegin()]. *)
Definition write_at (this : dref) (k : nat) (v : elemType) : M unit :=
  b <- begin this ;; it <- advance k b ;; iterator.assign it v.

Definition write_at_reversed (this : dref) (k : nat) (v : elemType) : M unit :=
  b <- rbegin this ;; it <- radvance k b ;; reverse_iterator.assign it v.

Definition exec (fuel : nat) (o : op elemType) : M unit :=
  match o with
  | Construct this => deque_t_default this
  | ConstructList this list => deque_t_list this list
  | ConstructCopy this deque => deque_t_copy fuel this deque
  | ConstructMove this deque => deque_t_move this deque
  | AssignCopy this deque => assign_copy fuel this deque
  | AssignMove this deque => assign_move fuel this deque
  | CallIsEmpty this => forget (IsEmpty this)
  | CallSize this => forget (Size this)
  | CallPeekHead this => forget (PeekHead this)
  | CallGetFront this => forget (GetFront this)
  | CallGetFrontAssign this v => GetFront_assign this v
  | CallPeekTail this => forget (PeekTail this)
  | CallGetBack this => forget (GetBack this)
  | CallGetBackAssign this v => GetBack_assign this v
  | CallPushFront this elem => PushFront this elem
  | CallPushFrontMove this elem => PushFront_move this elem
  | CallPushBack this elem => PushBack this elem
  | CallPushBackMove this elem => PushBack_move this elem
  | CallPopFront this => PopFront this
  | CallPopBack this => PopBack this
  | CallAddOtherDeque this deque => AddOtherDeque fuel this deque
  | CallAddOtherDequeMove this deque => AddOtherDeque_move this deque
  | CallClear this => Clear fuel this
  | Destroy this => destructor fuel this
  | Output deque => forget (output fuel deque)
  | OutputReversed this => forget (output_reversed fuel this)
  | WriteAt this k v => write_at this k v
  | WriteAtReversed this k v => write_at_reversed this k v
  end.

(** The caller goes on after a normal return and after an exception
    (which it catches); nothing is known after undefined behaviour. *)
Fixpoint run (fuel : nat) (prog : list (op elemType)) (s : state) : option state :=
  match prog with
  | [] => Some s
  | o :: rest =>
      match exec fuel o s with
      | Ok _ s' | Throw _ s' => run fuel rest s'
      | Fault | Timeout => None
      end
  end.

(** A process that has made no deque yet, on a system that can hand
    out [capacity] node blocks. *)
Definition initial (capacity : N) : state :=
  mk_state ∅ (mk_memory ∅ capacity) [].

(** ** What a caller can observe of a deque *)

(** The nodes met by the forward walk. *)
Fixpoint walk_nodes (fuel : nat) (it last : const_iterator.t) : M (list ptr) :=
  if const_iterator.neq it last then
    match fuel with
    | O => timeout
    | S fuel' =>
        it' <- const_iterator.pre_incr it ;;
        rest <- walk_nodes fuel' it' last ;;
        ret (const_iterator.curNode it :: rest)
    end
  else ret [].

Definition result {A} (o : outcome state A) : option A :=
  match o with
  | Ok a _ => Some a
  | _ => None
  end.

(** The element sequence of a deque, front to back. No walk over live
    nodes is longer than the number of live blocks. *)
Definition contents (s : state) (this : dref) : option (list elemType) :=
  result (output (base.size (cells (mem s))) this s).

(** The nodes of a deque, front to back. *)
Definition nodes (s : state) (this : dref) : option (list ptr) :=
  result ((b <- begin_const this ;; e <- end_const this ;;
           walk_nodes (base.size (cells (mem s))) b e) s).

(** The element sequence, back to front. *)
Definition contents_reversed (s : state) (this : dref) : option (list elemType) :=
  result (output_reversed (base.size (cells (mem s))) this s).

End Programs.

(** ** The demonstration program *)

Module Demo.

(** [deque_t<int>] on a platform with 8-byte pointers. *)
#[export] Instance int_layout : node_layout := 24%N.

(** [main.cpp]. The deques [d1] to [d6] are the objects 1 to 6, the
    temporaries the objects from 100 on. *)
Definition main : list (op Z) :=
  [ Construct 1%N; Output 1%N;
    ConstructList 2%N [1; 2; 3; 4; 5]; Output 2%N;
    ConstructCopy 3%N 2%N; Output 3%N;
    ConstructList 100%N [1; 2; 3; 4; 5]; ConstructMove 4%N 100%N; Destroy 100%N;
    Output 4%N;
    ConstructCopy 5%N 2%N; Output 5%N;
    ConstructList 101%N [1; 2; 3; 4; 5]; ConstructMove 6%N 101%N; Destroy 101%N;
    Output 6%N;
    OutputReversed 2%N;
    CallSize 2%N; CallPeekHead 2%N; CallPeekTail 2%N;
    CallPushFrontMove 2%N 0; Output 2%N;
    CallPushBackMove 3%N 6; Output 3%N;
    CallPushFront 4%N 0; Output 4%N;
    CallPushBack 5%N 0; Output 5%N;
    CallPopFront 6%N; Output 6%N;
    CallPopBack 2%N; Output 2%N;
    ConstructList 102%N [1; 2; 3; 4; 5]; ConstructList 103%N [1; 2; 3; 4; 5];
    CallAddOtherDequeMove 102%N 103%N; Output 102%N; Destroy 103%N; Destroy 102%N;
    ConstructList 104%N [1; 2; 3; 4; 5]; CallAddOtherDeque 104%N 2%N; Output 104%N;
    Destroy 104%N;
    CallIsEmpty 2%N; CallClear 2%N; CallIsEmpty 2%N;
    Destroy 6%N; Destroy 5%N; Destroy 4%N; Destroy 3%N; Destroy 2%N; Destroy 1%N ].

End Demo.

(** * Specification

    The vocabulary of the properties and of their proofs. From here on
    the allocator is [simple_allocator_t], the one the repository
    provides. *)

(** ** The chain a deque owns *)

Section Representation.

Context {elemType : Type}.

Abbreviation node_t := (node_t elemType).
Abbreviation state := (state elemType simple_allocator_t).

(** The node pointers and values of a chain, front to back. *)
Definition first_ptr (l : list (ptr * elemType)) (dflt : ptr) : ptr :=
  match l with
  | [] => dflt
  | (p, _) :: _ => p
  end.

Fixpoint last_ptr (l : list (ptr * elemType)) (dflt : ptr) : ptr :=
  match l with
  | [] => dflt
  | (p, _) :: l' => last_ptr l' p
  end.

Fixpoint chain (c : gmap N node_t) (pv : ptr) (l : list (ptr * elemType))
    (nx : ptr) : Prop :=
  match l with
  | [] => True
  | (p, v) :: l' =>
      p ≠ nullptr ∧
      c !! p = Some (mk_node (Init v) (Init pv) (Init (first_ptr l' nx))) ∧
      chain c p l' nx
  end.

(** The address [malloc] hands out next. *)
Definition fresh_ptr (c : gmap N node_t) : ptr := fresh ({[nullptr]} ∪ dom c).

(** The heap after [t->next = p], and after [h->prev = p], where the
    assignment is guarded by the pointer being non-null. *)
Definition link_next (t p : ptr) (c : gmap N node_t) : gmap N node_t :=
  if (t =? nullptr)%N then c
  else
    match c !! t with
    | Some nt => <[t := mk_node (value nt) (prev nt) (Init p)]> c
    | None => c
    end.

Definition link_prev (h p : ptr) (c : gmap N node_t) : gmap N node_t :=
  if (h =? nullptr)%N then c
  else
    match c !! h with
    | Some nh => <[h := mk_node (value nh) (Init p) (next nh)]> c
    | None => c
    end.

(** Deque [d] owns the chain [l] in heap [c]: the chain is linked both
    ways between two null ends, no node occurs twice, [head] and [tail]
    are its ends and [size] counts it in [unsigned int]. *)
Definition repr (c : gmap N node_t) (d : deque_t simple_allocator_t)
    (l : list (ptr * elemType)) : Prop :=
  chain c nullptr l nullptr ∧ NoDup l.*1 ∧
  head d = first_ptr l nullptr ∧ tail d = last_ptr l nullptr ∧
  size d = uint (Z.of_nat (length l)).

(** Every live deque owns a chain, and no node is in two chains. *)
Definition inv (L : N → list (ptr * elemType)) (s : state) : Prop :=
  (∀ r d, objs s !! r = Some d → repr (cells (mem s)) d (L r)) ∧
  (∀ r1 r2 p, r1 ≠ r2 → is_Some (objs s !! r1) → is_Some (objs s !! r2) →
     p ∈ (L r1).*1 → p ∉ (L r2).*1).

End Representation.

(** ** Which allocator instance releases which block *)

(** Replaying a trace: the instance through which each live block was
    allocated, or nothing once a block is released through another
    instance than the one that allocated it (or a block no instance holds
    is released). *)
Fixpoint replay (tr : list event) (live : gmap N N) : option (gmap N N) :=
  match tr with
  | [] => Some live
  | EvAlloc inst p :: tr' => replay tr' (<[p := inst]> live)
  | EvDealloc inst p :: tr' =>
      match live !! p with
      | Some inst' =>
          if (inst =? inst')%N then replay tr' (delete p live) else None
      | None => None
      end
  end.

Definition matched (tr : list event) : bool :=
  match replay tr ∅ with
  | Some _ => true
  | None => false
  end.

(** ** Callers *)

(** The deques a use of the interface names, and whether it is one of
    the three move operations. *)
Definition op_refs {elemType} (o : op elemType) : list dref :=
  match o with
  | Construct this | ConstructList this _ | CallIsEmpty this | CallSize this
  | CallPeekHead this | CallGetFront this | CallGetFrontAssign this _
  | CallPeekTail this | CallGetBack this | CallGetBackAssign this _
  | CallPushFront this _ | CallPushFrontMove this _
  | CallPushBack this _ | CallPushBackMove this _
  | CallPopFront this | CallPopBack this | CallClear this | Destroy this
  | Output this | OutputReversed this | WriteAt this _ _ | WriteAtReversed this _ _ => [this]
  | ConstructCopy this deque | ConstructMove this deque
  | AssignCopy this deque | AssignMove this deque
  | CallAddOtherDeque this deque | CallAddOtherDequeMove this deque => [this; deque]
  end.

Definition is_move {elemType} (o : op elemType) : bool :=
  match o with
  | ConstructMove _ _ | AssignMove _ _ | CallAddOtherDequeMove _ _ => true
  | _ => false
  end.

Section Vocabulary.

Context {elemType : Type} `{!node_layout}.
Abbreviation state := (state elemType simple_allocator_t).
Abbreviation M := (M elemType simple_allocator_t).
Abbreviation node_t := (node_t elemType).

Definition prog_refs (prog : list (op elemType)) : list dref :=
  concat (map op_refs prog).

Definition move_free (prog : list (op elemType)) : bool :=
  forallb (λ o, negb (is_move o)) prog.

(** ** The invariant of the proofs *)

(** Every node of every chain was allocated through the allocator of
    the deque that owns the chain. *)
Definition own (L : N → list (ptr * elemType)) (s : state) : Prop :=
  ∃ live, replay (trace s) ∅ = Some live ∧
    ∀ r p, is_Some (objs s !! r) → p ∈ (L r).*1 → live !! p = Some r.

Definition Inv (strict : bool) (L : N → list (ptr * elemType)) (s : state) : Prop :=
  inv L s ∧ (strict = true → own L s).

(** A computation that leaves the state as it is. *)
Definition reads {A} (m : M A) : Prop :=
  ∀ s, match m s with
       | Ok _ s' | Throw _ s' => s' = s
       | _ => True
       end.

(** A computation that keeps the invariant and leaves alone every
    deque outside [R]. *)
Definition preserves (strict : bool) (R : N → Prop) {A} (m : M A) : Prop :=
  ∀ L s, Inv strict L s →
    match m s with
    | Ok _ s' | Throw _ s' =>
        ∃ L', Inv strict L' s' ∧
              ∀ r, ¬ R r → L' r = L r ∧ objs s' !! r = objs s !! r
    | _ => True
    end.

(** Live blocks plus blocks the system can still hand out. *)
Definition blocks (s : state) : N :=
  (N.of_nat (base.size (cells (mem s))) + avail (mem s))%N.

Definition conserves {A} (m : M A) : Prop :=
  ∀ s, match m s with
       | Ok _ s' | Throw _ s' => blocks s' = blocks s
       | _ => True
       end.

(** A computation that throws nothing. *)
Definition nothrow {A} (m : M A) : Prop :=
  ∀ s, match m s with
       | Throw _ _ => False
       | _ => True
       end.

(** The nine assignments shared by the move constructor, move
    assignment and the empty-receiver branch of the move merge. *)
Definition take_over (this deque : dref) : M unit :=
  h <- get_head deque ;; set_head this h ;;
  t <- get_tail deque ;; set_tail this t ;;
  sz <- get_size deque ;; set_size this sz ;;
  set_head deque nullptr ;;
  set_tail deque nullptr ;;
  set_size deque 0.

(** ** The properties of a deque *)

(** [n] steps along [next], and along [prev]. *)
Fixpoint follow_next (n : nat) (c : gmap N node_t) (p : ptr) : option ptr :=
  match n with
  | O => Some p
  | S k =>
      match c !! p with
      | Some nd =>
          match next nd with
          | Init q => follow_next k c q
          | Indeterminate => None
          end
      | None => None
      end
  end.

Fixpoint follow_prev (n : nat) (c : gmap N node_t) (p : ptr) : option ptr :=
  match n with
  | O => Some p
  | S k =>
      match c !! p with
      | Some nd =>
          match prev nd with
          | Init q => follow_prev k c q
          | Indeterminate => None
          end
      | None => None
      end
  end.

(** The structural invariant of a deque. *)
Definition structural_invariant (c : gmap N node_t)
    (d : deque_t simple_allocator_t) : Prop :=
  (head d = nullptr ↔ tail d = nullptr) ∧
  (tail d = nullptr ↔ size d = 0) ∧
  (head d ≠ nullptr →
     (∃ nd, c !! head d = Some nd ∧ prev nd = Init nullptr) ∧
     (∃ nd, c !! tail d = Some nd ∧ next nd = Init nullptr) ∧
     follow_next (Z.to_nat (size d - 1)) c (head d) = Some (tail d) ∧
     follow_prev (Z.to_nat (size d - 1)) c (tail d) = Some (head d) ∧
     (∀ k, (k < Z.to_nat (size d - 1))%nat →
           follow_next k c (head d) ≠ Some (tail d) ∧
           follow_prev k c (tail d) ≠ Some (head d))).

(** What a copy gives: the destination [this] holds the values of the
    source [deque] in nodes of its own, and from then on what is done to
    one of the two does not show in the other. *)
Definition is_copy (s' : state) (this deque : dref)
    (dd : deque_t simple_allocator_t) (l : list elemType) : Prop :=
  contents s' this = Some l ∧
  contents s' deque = Some l ∧
  objs s' !! deque = Some dd ∧
  (∃ d', objs s' !! this = Some d' ∧ size d' = size dd) ∧
  (∃ n1 n2, nodes s' this = Some n1 ∧ nodes s' deque = Some n2 ∧
            ∀ p, p ∈ n1 → p ∉ n2) ∧
  (∀ fuel2 (prog2 : list (op elemType)) s2,
     run fuel2 prog2 s' = Some s2 →
     (this ∉ prog_refs prog2 →
        contents s2 this = Some l ∧ objs s2 !! this = objs s' !! this) ∧
     (deque ∉ prog_refs prog2 →
        contents s2 deque = Some l ∧ objs s2 !! deque = Some dd)).

(** What a move gives: the destination [this] has [head], [tail] and
    [size] of the old source [dd] and so its elements [l]; the source
    [deque] is a valid empty deque. *)
Definition is_moved (s' : state) (this deque : dref)
    (dd : deque_t simple_allocator_t) (l : list elemType) : Prop :=
  (∃ d', objs s' !! this = Some d' ∧
         head d' = head dd ∧ tail d' = tail dd ∧ size d' = size dd) ∧
  contents s' this = Some l ∧
  (∃ dd', objs s' !! deque = Some dd' ∧
          head dd' = nullptr ∧ tail dd' = nullptr ∧ size dd' = 0 ∧
          structural_invariant (cells (mem s')) dd') ∧
  contents s' deque = Some [] ∧
  IsEmpty deque s' = Ok true s'.

End Vocabulary.

(** ** The heap as a whole *)

(** The blocks that are live after the allocator calls [evs], from the
    live blocks [X]; a call on a null pointer allocated or released
    nothing. *)
Fixpoint live_after (evs : list event) (X : gset N) : gset N :=
  match evs with
  | [] => X
  | EvAlloc _ p :: evs' =>
      live_after evs' (if (p =? nullptr)%N then X else {[p]} ∪ X)
  | EvDealloc _ p :: evs' =>
      live_after evs' (if (p =? nullptr)%N then X else X ∖ {[p]})
  end.

(** Moving a deque into itself by the move merge. *)
Definition self_merge {elemType} (o : op elemType) : bool :=
  match o with
  | CallAddOtherDequeMove this deque => (this =? deque)%N
  | _ => false
  end.

Section Safety.

Context {elemType : Type} `{!node_layout}.
Abbreviation state := (state elemType simple_allocator_t).
Abbreviation M := (M elemType simple_allocator_t).

Definition self_merge_free (prog : list (op elemType)) : bool :=
  forallb (λ o, negb (self_merge o)) prog.

(** No block is lost: every live block is a node of a live deque. *)
Definition tight (L : N → list (ptr * elemType)) (s : state) : Prop :=
  ∀ p, p ∈ dom (cells (mem s)) → ∃ r, is_Some (objs s !! r) ∧ p ∈ (L r).*1.

(** A computation whose allocator calls account for the blocks it adds
    to the heap and takes from it. *)
Definition tracks {A} (m : M A) : Prop :=
  ∀ s, match m s with
       | Ok _ s' | Throw _ s' =>
           ∃ evs, trace s' = trace s ++ evs ∧
                  dom (cells (mem s')) = live_after evs (dom (cells (mem s)))
       | _ => True
       end.

(** A computation that loses no block. *)
Definition keeps {A} (m : M A) : Prop :=
  ∀ L s, inv L s → tight L s →
    match m s with
    | Ok _ s' | Throw _ s' => ∃ L', inv L' s' ∧ tight L' s'
    | _ => True
    end.

Definition live (s : state) (r : dref) : bool :=
  match objs s !! r with
  | Some _ => true
  | None => false
  end.

(** A use of the interface that the language allows: a constructor
    makes an object that does not exist yet, from objects that exist;
    everything else is applied to objects that exist. The copy merge of a
    deque into itself is left out. *)
Definition usable (s : state) (o : op elemType) : bool :=
  match o with
  | Construct this | ConstructList this _ => negb (live s this)
  | ConstructCopy this deque | ConstructMove this deque =>
      negb (live s this) && live s deque
  | CallAddOtherDeque this deque =>
      live s this && live s deque && negb (this =? deque)%N
  | _ => forallb (live s) (op_refs o)
  end.

(** The nodes a use of the interface allocates, at most. *)
Definition needs (s : state) (o : op elemType) : nat :=
  match o with
  | CallPushFront _ _ | CallPushFrontMove _ _
  | CallPushBack _ _ | CallPushBackMove _ _ => 1
  | ConstructList _ list => length list
  | ConstructCopy _ deque | AssignCopy _ deque | CallAddOtherDeque _ deque =>
      from_option length 0%nat (contents s deque)
  | _ => 0
  end.

(** A call that comes to an end without undefined behaviour: it returns,
    or it throws one of the two exceptions of the deque and leaves the
    state as it was. *)
Definition completes (m : M unit) (s : state) : Prop :=
  (∃ s', m s = Ok tt s') ∨
  (∃ w, m s = Throw w s ∧ (w = EmptyContainer ∨ w = InvalidIterator)).

End Safety.

(** ** Concrete programs *)

Module Examples.

Import Demo.

(** An allocation strategy a caller could supply in place of
    [simple_allocator_t]: [malloc]/[free] with the failure of [malloc]
    turned into an exception. *)
Inductive checked_allocator_t : Type := CheckedAllocator.

#[export] Instance checked_allocator : allocator_interface_t Z checked_allocator_t := {
  alloc _ sz m :=
    let '(p, m') := malloc sz m in
    if (p =? nullptr)%N then Throw "OutOfMemory" m else Ok p m';
  dealloc _ data m := free data m
}.

#[export] Instance checked_allocator_inhabited : Inhabited checked_allocator_t :=
  populate CheckedAllocator.

(** One empty deque and no memory left. *)
Definition exhausted : list (op Z) := [Construct 1%N].

Definition one_node_moved : list (op Z) :=
  [ConstructList 1%N [7]; ConstructMove 2%N 1%N; CallPopBack 2%N].

Definition copy_merge : list (op Z) :=
  [ConstructList 1%N [1; 2; 3]; ConstructList 2%N [6; 7]].

Definition move_merge : list (op Z) :=
  [ConstructList 1%N [1; 2; 3; 4; 5]; ConstructList 2%N [1; 2; 3; 4; 5]].

Definition two_deques : list (op Z) :=
  [ConstructList 1%N [1; 2; 3]; ConstructList 2%N [6; 7]; Construct 3%N].

(** Uses of the deques 1 and 3 only. *)
Definition elsewhere : list (op Z) :=
  [AssignMove 3%N 1%N; CallPushBack 3%N 4; CallClear 1%N].

Definition no_moves : list (op Z) :=
  [ConstructList 1%N [1; 2]; ConstructCopy 2%N 1%N; WriteAt 1%N 1 9; Output 1%N;
   CallPopFront 1%N; CallClear 2%N; Destroy 1%N].

(** The states these programs end in, and the deque objects used
    below. *)
Definition after (prog : list (op Z)) (capacity : N) : state Z simple_allocator_t :=
  default (initial 0) (run 8 prog (initial capacity)).

Definition deque_at (s : state Z simple_allocator_t) (this : dref) :
    deque_t simple_allocator_t :=
  default (mk_deque nullptr nullptr 0 SimpleAllocator) (objs s !! this).

Definition exhausted_checked : state Z checked_allocator_t :=
  default (initial 0) (run 0 exhausted (initial 0)).

End Examples.

(** * Verification *)

Ltac unfold_methods :=
  unfold PushBack, PushBack_move, PushFront, PushFront_move, PopBack, PopFront,
    PeekHead, PeekTail, GetFront, GetBack, GetFront_assign, GetBack_assign,
    IsEmpty, Size, deque_t_move, assign_move, AddOtherDeque_move,
    deque_t_default, new_object, delete_object,
    call_alloc, call_dealloc, get_head, get_tail, get_size,
    set_head, set_tail, set_size, set_value, set_prev, set_next,
    get_value, get_prev, get_next, node, store, object, update, log,
    lift_mem, read, bind, ret, throw, fault, cell.

Ltac reduce :=
  cbn beta iota zeta delta
    [objs mem trace cells avail head tail size allocator value prev next
     alloc dealloc simple_allocator negb fst snd].


Section Chains.

Context {elemType : Type}.
Abbreviation node_t := (node_t elemType).

Lemma last_ptr_app (l1 l2 : list (ptr * elemType)) dflt :
  last_ptr (l1 ++ l2) dflt = last_ptr l2 (last_ptr l1 dflt).
Proof.
  revert dflt. induction l1 as [|[p v] l1 IH]; intros dflt; simpl; [done|].
  apply IH.
Qed.

Lemma first_ptr_app (l1 l2 : list (ptr * elemType)) dflt :
  first_ptr (l1 ++ l2) dflt = first_ptr l1 (first_ptr l2 dflt).
Proof. destruct l1 as [|[p v] l1]; done. Qed.

Lemma chain_app (c : gmap N node_t) pv l1 l2 nx :
  chain c pv (l1 ++ l2) nx ↔
  chain c pv l1 (first_ptr l2 nx) ∧ chain c (last_ptr l1 pv) l2 nx.
Proof.
  revert pv. induction l1 as [|[p v] l1 IH]; intros pv; simpl.
  - tauto.
  - rewrite IH, first_ptr_app. tauto.
Qed.

Lemma chain_frame (c c' : gmap N node_t) pv l nx :
  (∀ p, p ∈ l.*1 → c' !! p = c !! p) →
  chain c pv l nx → chain c' pv l nx.
Proof.
  revert pv. induction l as [|[p v] l IH]; intros pv Hsame; simpl; [done|].
  intros (Hp & Hc & Hl). split_and!; [done| |].
  - rewrite Hsame; [done|]. simpl. left.
  - apply IH; [|done]. intros q Hq. apply Hsame. simpl. by right.
Qed.

Lemma chain_live (c : gmap N node_t) pv l nx p :
  chain c pv l nx → p ∈ l.*1 → p ≠ nullptr ∧ is_Some (c !! p).
Proof.
  revert pv. induction l as [|[q v] l IH]; intros pv; simpl.
  - intros _ H. by apply elem_of_nil in H.
  - intros (Hq & Hc & Hl) [->|Hin]%elem_of_cons; [eauto|].
    eapply IH; eauto.
Qed.

End Chains.

(** ** What each method does to the state *)

Section Exec.

Context {elemType : Type} `{!node_layout}.
Abbreviation state := (state elemType simple_allocator_t).
Abbreviation node_t := (node_t elemType).

Lemma fresh_ptr_nonnull (c : gmap N node_t) : fresh_ptr c ≠ nullptr.
Proof.
  unfold fresh_ptr. intros Heq.
  pose proof (is_fresh ({[nullptr]} ∪ dom c)) as Hf. rewrite Heq in Hf. set_solver.
Qed.

Lemma fresh_ptr_free (c : gmap N node_t) : c !! fresh_ptr c = None.
Proof.
  unfold fresh_ptr. apply not_elem_of_dom.
  pose proof (is_fresh ({[nullptr]} ∪ dom c)) as Hf. set_solver.
Qed.

Lemma eqb_nullptr_false p : p ≠ nullptr → (p =? nullptr)%N = false.
Proof. intros. by apply N.eqb_neq. Qed.

Lemma PushBack_run (s : state) this d v :
  objs s !! this = Some d →
  avail (mem s) ≠ 0%N →
  (tail d ≠ nullptr → is_Some (cells (mem s) !! tail d)) →
  let p := fresh_ptr (cells (mem s)) in
  PushBack this v s =
  Ok tt (mk_state
           (<[this := mk_deque (if (head d =? nullptr)%N then p else head d) p
                        (uint (size d + 1)) (allocator d)]> (objs s))
           (mk_memory
              (link_next (tail d) p
                 (<[p := mk_node (Init v) (Init (tail d)) (Init nullptr)]> (cells (mem s))))
              (avail (mem s) - 1)%N)
           (trace s ++ [EvAlloc this p])).
Proof.
  intros Hobj Hav Ht p.
  pose proof (fresh_ptr_nonnull (cells (mem s))) as Hp.
  pose proof (fresh_ptr_free (cells (mem s))) as Hpf. fold p in Hp, Hpf.
  unfold_methods. reduce. rewrite Hobj. reduce. unfold malloc.
  rewrite (proj2 (N.eqb_neq _ _) Hav). reduce. fold (fresh_ptr (cells (mem s))). fold p.
  rewrite !(eqb_nullptr_false p Hp).
  repeat (rewrite ?lookup_insert_eq, ?insert_insert_eq, ?Hobj; reduce).
  unfold link_next.
  destruct (N.eqb_spec (tail d) nullptr) as [Ht0|Ht0]; reduce.
  - repeat (rewrite ?lookup_insert_eq, ?insert_insert_eq, ?Hobj; reduce).
    destruct (head d =? nullptr)%N; reduce;
      repeat (rewrite ?lookup_insert_eq, ?insert_insert_eq, ?Hobj; reduce); done.
  - destruct (Ht Ht0) as [nt Hnt].
    assert (p ≠ tail d) as Hne by (intros Heq; rewrite <- Heq in Hnt; congruence).
    rewrite (lookup_insert_ne _ p (tail d)) by done. rewrite Hnt. reduce.
    repeat (rewrite ?lookup_insert_eq, ?insert_insert_eq, ?Hobj; reduce).
    destruct (head d =? nullptr)%N; reduce;
      repeat (rewrite ?lookup_insert_eq, ?insert_insert_eq, ?Hobj; reduce); done.
Qed.



Lemma PushBack_move_eq this (v : elemType) :
  PushBack_move (memoryAllocator:=simple_allocator_t) this v = PushBack this v.
Proof. reflexivity. Qed.

Lemma PushFront_move_eq this (v : elemType) :
  PushFront_move (memoryAllocator:=simple_allocator_t) this v = PushFront this v.
Proof. reflexivity. Qed.

Lemma PushBack_fault (s : state) this v :
  avail (mem s) = 0%N → PushBack this v s = Fault.
Proof.
  intros Hav. unfold_methods. reduce.
  destruct (objs s !! this) as [d|]; [|done]. reduce.
  unfold malloc. rewrite Hav. reduce. done.
Qed.

Lemma PushFront_fault (s : state) this v :
  avail (mem s) = 0%N → PushFront this v s = Fault.
Proof.
  intros Hav. unfold_methods. reduce.
  destruct (objs s !! this) as [d|]; [|done]. reduce.
  unfold malloc. rewrite Hav. reduce. done.
Qed.

Lemma PushFront_run (s : state) this d v :
  objs s !! this = Some d →
  avail (mem s) ≠ 0%N →
  (head d ≠ nullptr → is_Some (cells (mem s) !! head d)) →
  let p := fresh_ptr (cells (mem s)) in
  PushFront this v s =
  Ok tt (mk_state
           (<[this := mk_deque p (if (tail d =? nullptr)%N then p else tail d)
                        (uint (size d + 1)) (allocator d)]> (objs s))
           (mk_memory
              (link_prev (head d) p
                 (<[p := mk_node (Init v) (Init nullptr) (Init (head d))]> (cells (mem s))))
              (avail (mem s) - 1)%N)
           (trace s ++ [EvAlloc this p])).
Proof.
  intros Hobj Hav Ht p.
  pose proof (fresh_ptr_nonnull (cells (mem s))) as Hp.
  pose proof (fresh_ptr_free (cells (mem s))) as Hpf. fold p in Hp, Hpf.
  unfold_methods. reduce. rewrite Hobj. reduce. unfold malloc.
  rewrite (proj2 (N.eqb_neq _ _) Hav). reduce. fold (fresh_ptr (cells (mem s))). fold p.
  rewrite !(eqb_nullptr_false p Hp).
  repeat (rewrite ?lookup_insert_eq, ?insert_insert_eq, ?Hobj; reduce).
  unfold link_prev.
  destruct (N.eqb_spec (head d) nullptr) as [Ht0|Ht0]; reduce.
  - repeat (rewrite ?lookup_insert_eq, ?insert_insert_eq, ?Hobj; reduce).
    destruct (tail d =? nullptr)%N; reduce;
      repeat (rewrite ?lookup_insert_eq, ?insert_insert_eq, ?Hobj; reduce); done.
  - destruct (Ht Ht0) as [nt Hnt].
    assert (p ≠ head d) as Hne by (intros Heq; rewrite <- Heq in Hnt; congruence).
    rewrite (lookup_insert_ne _ p (head d)) by done. rewrite Hnt. reduce.
    repeat (rewrite ?lookup_insert_eq, ?insert_insert_eq, ?Hobj; reduce).
    destruct (tail d =? nullptr)%N; reduce;
      repeat (rewrite ?lookup_insert_eq, ?insert_insert_eq, ?Hobj; reduce); done.
Qed.

Lemma PopBack_throw (s : state) this d :
  objs s !! this = Some d → tail d = nullptr →
  PopBack this s = Throw EmptyContainer s.
Proof.
  intros Hobj Ht. unfold_methods. reduce. rewrite Hobj. reduce. by rewrite Ht.
Qed.

Lemma PopFront_throw (s : state) this d :
  objs s !! this = Some d → head d = nullptr →
  PopFront this s = Throw EmptyContainer s.
Proof.
  intros Hobj Ht. unfold_methods. reduce. rewrite Hobj. reduce. by rewrite Ht.
Qed.

Lemma PopBack_run (s : state) this d v pv nx :
  objs s !! this = Some d →
  tail d ≠ nullptr →
  cells (mem s) !! tail d = Some (mk_node v (Init pv) nx) →
  pv ≠ tail d →
  (pv ≠ nullptr → is_Some (cells (mem s) !! pv)) →
  PopBack this s =
  Ok tt (mk_state
           (<[this := mk_deque (if (pv =? nullptr)%N then nullptr else head d) pv
                        (uint (size d - 1)) (allocator d)]> (objs s))
           (mk_memory (link_next pv nullptr (delete (tail d) (cells (mem s))))
              (avail (mem s) + 1)%N)
           (trace s ++ [EvDealloc this (tail d)])).
Proof.
  intros Hobj Ht Hc Hne Hpv.
  unfold_methods. reduce. rewrite Hobj. reduce.
  rewrite !(eqb_nullptr_false _ Ht). rewrite Hc. reduce.
  repeat (rewrite ?lookup_insert_eq, ?insert_insert_eq, ?Hobj; reduce).
  unfold free. rewrite !(eqb_nullptr_false _ Ht). rewrite Hc. reduce.
  repeat (rewrite ?lookup_insert_eq, ?insert_insert_eq, ?Hobj; reduce).
  unfold link_next.
  destruct (N.eqb_spec pv nullptr) as [Hp0|Hp0]; reduce.
  - repeat (rewrite ?lookup_insert_eq, ?insert_insert_eq, ?Hobj; reduce). done.
  - destruct (Hpv Hp0) as [np Hnp].
    rewrite lookup_delete_ne by done. rewrite Hnp. reduce.
    repeat (rewrite ?lookup_insert_eq, ?insert_insert_eq, ?Hobj; reduce). done.
Qed.

Lemma PopFront_run (s : state) this d v pv nx :
  objs s !! this = Some d →
  head d ≠ nullptr →
  cells (mem s) !! head d = Some (mk_node v pv (Init nx)) →
  nx ≠ head d →
  (nx ≠ nullptr → is_Some (cells (mem s) !! nx)) →
  PopFront this s =
  Ok tt (mk_state
           (<[this := mk_deque nx (if (nx =? nullptr)%N then nullptr else tail d)
                        (uint (size d - 1)) (allocator d)]> (objs s))
           (mk_memory (link_prev nx nullptr (delete (head d) (cells (mem s))))
              (avail (mem s) + 1)%N)
           (trace s ++ [EvDealloc this (head d)])).
Proof.
  intros Hobj Ht Hc Hne Hpv.
  unfold_methods. reduce. rewrite Hobj. reduce.
  rewrite !(eqb_nullptr_false _ Ht). rewrite Hc. reduce.
  repeat (rewrite ?lookup_insert_eq, ?insert_insert_eq, ?Hobj; reduce).
  unfold free. rewrite !(eqb_nullptr_false _ Ht). rewrite Hc. reduce.
  repeat (rewrite ?lookup_insert_eq, ?insert_insert_eq, ?Hobj; reduce).
  unfold link_prev.
  destruct (N.eqb_spec nx nullptr) as [Hp0|Hp0]; reduce.
  - repeat (rewrite ?lookup_insert_eq, ?insert_insert_eq, ?Hobj; reduce). done.
  - destruct (Hpv Hp0) as [np Hnp].
    rewrite lookup_delete_ne by done. rewrite Hnp. reduce.
    repeat (rewrite ?lookup_insert_eq, ?insert_insert_eq, ?Hobj; reduce). done.
Qed.

End Exec.

(** ** Chains under relinking *)

Section Relink.

Context {elemType : Type}.
Abbreviation node_t := (node_t elemType).

Lemma first_ptr_in (l : list (ptr * elemType)) dflt :
  l ≠ [] → first_ptr l dflt ∈ l.*1.
Proof. destruct l as [|[p v] l]; [done|]. intros _. simpl. left. Qed.

Lemma last_ptr_in (l : list (ptr * elemType)) dflt :
  l ≠ [] → last_ptr l dflt ∈ l.*1.
Proof.
  destruct l as [|x l _] using rev_ind; [done|]. intros _. destruct x as [p v].
  rewrite last_ptr_app, fmap_app. simpl. apply elem_of_app. right. left.
Qed.

Lemma first_ptr_dflt (l : list (ptr * elemType)) d1 d2 :
  l ≠ [] → first_ptr l d1 = first_ptr l d2.
Proof. by destruct l as [|[p v] l]. Qed.

Lemma last_ptr_dflt (l : list (ptr * elemType)) d1 d2 :
  l ≠ [] → last_ptr l d1 = last_ptr l d2.
Proof. by destruct l as [|[p v] l]. Qed.

Lemma chain_nonnull (c : gmap N node_t) pv l nx p :
  chain c pv l nx → p ∈ l.*1 → p ≠ nullptr.
Proof. intros Hc Hp. by destruct (chain_live c pv l nx p Hc Hp). Qed.

Lemma link_next_lookup_ne (c : gmap N node_t) t p q :
  q ≠ t → link_next t p c !! q = c !! q.
Proof.
  intros Hne. unfold link_next. destruct (t =? nullptr)%N; [done|].
  destruct (c !! t); [|done]. by rewrite lookup_insert_ne.
Qed.

Lemma link_prev_lookup_ne (c : gmap N node_t) t p q :
  q ≠ t → link_prev t p c !! q = c !! q.
Proof.
  intros Hne. unfold link_prev. destruct (t =? nullptr)%N; [done|].
  destruct (c !! t); [|done]. by rewrite lookup_insert_ne.
Qed.

Lemma link_next_nullptr (c : gmap N node_t) p : link_next nullptr p c = c.
Proof. done. Qed.

Lemma link_prev_nullptr (c : gmap N node_t) p : link_prev nullptr p c = c.
Proof. done. Qed.

Lemma link_next_lookup (c : gmap N node_t) t p v pv nx :
  t ≠ nullptr → c !! t = Some (mk_node v pv nx) →
  link_next t p c = <[t := mk_node v pv (Init p)]> c.
Proof.
  intros Ht Hc. unfold link_next. rewrite (eqb_nullptr_false t Ht). by rewrite Hc.
Qed.

Lemma link_prev_lookup (c : gmap N node_t) t p v pv nx :
  t ≠ nullptr → c !! t = Some (mk_node v pv nx) →
  link_prev t p c = <[t := mk_node v (Init p) nx]> c.
Proof.
  intros Ht Hc. unfold link_prev. rewrite (eqb_nullptr_false t Ht). by rewrite Hc.
Qed.

(** Re-pointing the [next] of the last node, or the [prev] of the first. *)
Lemma chain_link_next (c : gmap N node_t) pv l nx nx' :
  chain c pv l nx → NoDup l.*1 →
  chain (link_next (last_ptr l nullptr) nx' c) pv l nx'.
Proof.
  destruct l as [|[pt vt] l0 _] using rev_ind; [done|].
  intros (Hl0 & Hpt & Hcell & _)%chain_app Hnd.
  rewrite fmap_app in Hnd. apply list.NoDup_app in Hnd as (_ & Hnin & _).
  rewrite last_ptr_app. simpl in *.
  rewrite (link_next_lookup _ _ _ _ _ _ Hpt Hcell).
  apply chain_app. split.
  - simpl. eapply chain_frame; [|exact Hl0].
    intros q Hq. rewrite lookup_insert_ne; [done|].
    intros <-. apply (Hnin _ Hq). left.
  - simpl. by rewrite lookup_insert_eq.
Qed.

Lemma chain_link_prev (c : gmap N node_t) pv l nx pv' :
  chain c pv l nx → NoDup l.*1 →
  chain (link_prev (first_ptr l nullptr) pv' c) pv' l nx.
Proof.
  destruct l as [|[p v] l]; [done|]. simpl.
  intros (Hp & Hcell & Hl) [Hnin _]%list.NoDup_cons.
  rewrite (link_prev_lookup _ _ _ _ _ _ Hp Hcell).
  split_and!; [done|by rewrite lookup_insert_eq|].
  eapply chain_frame; [|exact Hl].
  intros q Hq. rewrite lookup_insert_ne; [done|]. by intros <-.
Qed.

End Relink.

(** ** Facts about owned chains *)

Section Repr.

Context {elemType : Type}.
Abbreviation state := (state elemType simple_allocator_t).

Lemma uint_succ z : uint (uint z + 1) = uint (z + 1).
Proof. unfold uint. by rewrite Zplus_mod_idemp_l. Qed.

Lemma uint_pred z : uint (uint z - 1) = uint (z - 1).
Proof. unfold uint. by rewrite Zminus_mod_idemp_l. Qed.

Lemma uint_plus a b : uint (uint a + uint b) = uint (a + b).
Proof. unfold uint. by rewrite <- Zplus_mod. Qed.

Lemma uint_uint z : uint (uint z) = uint z.
Proof. unfold uint. by apply Z.mod_mod. Qed.

Lemma uint_small z : 0 ≤ z < UINT_MOD → uint z = z.
Proof. intros. unfold uint. by apply Z.mod_small. Qed.

Lemma uint_range z : 0 ≤ uint z < UINT_MOD.
Proof. unfold uint. by apply Z.mod_pos_bound. Qed.

Lemma repr_head_nil (c : gmap N (node_t elemType)) d l :
  repr c d l → (head d = nullptr ↔ l = []).
Proof.
  intros (Hc & _ & -> & _). destruct l as [|[p v] l]; simpl; [done|].
  destruct Hc as (Hp & _). split; [done|discriminate].
Qed.

Lemma repr_tail_nil (c : gmap N (node_t elemType)) d l :
  repr c d l → (tail d = nullptr ↔ l = []).
Proof.
  intros (Hc & _ & _ & -> & _). split; [|by intros ->].
  intros Hl. destruct l as [|x l]; [done|]. exfalso.
  eapply (chain_nonnull c _ (x :: l) _ _ Hc); [|exact Hl].
  by apply last_ptr_in.
Qed.

Lemma repr_frame (c c' : gmap N (node_t elemType)) d l :
  (∀ p, p ∈ l.*1 → c' !! p = c !! p) → repr c d l → repr c' d l.
Proof.
  intros Hsame (Hc & Hrest). split; [|done]. by eapply chain_frame.
Qed.

Lemma repr_nil (c : gmap N (node_t elemType)) a :
  repr c (mk_deque nullptr nullptr 0 a) [].
Proof. split_and!; [done|constructor|done..]. Qed.

End Repr.

(** ** The four end operations keep the invariant *)

Section Invariant.

Context {elemType : Type} `{!node_layout}.
Abbreviation state := (state elemType simple_allocator_t).
Abbreviation node_t := (node_t elemType).

Lemma inv_live L (s : state) r d p :
  inv L s → objs s !! r = Some d → p ∈ (L r).*1 →
  p ≠ nullptr ∧ is_Some (cells (mem s) !! p).
Proof.
  intros [Hrep _] Hobj Hp. destruct (Hrep r d Hobj) as (Hc & _).
  by eapply chain_live.
Qed.

Lemma link_next_lookup_other (c : gmap N node_t) t p q :
  (t ≠ nullptr → q ≠ t) → link_next t p c !! q = c !! q.
Proof.
  intros Hne. destruct (decide (t = nullptr)) as [->|Ht]; [done|].
  apply link_next_lookup_ne. auto.
Qed.

Lemma link_prev_lookup_other (c : gmap N node_t) t p q :
  (t ≠ nullptr → q ≠ t) → link_prev t p c !! q = c !! q.
Proof.
  intros Hne. destruct (decide (t = nullptr)) as [->|Ht]; [done|].
  apply link_prev_lookup_ne. auto.
Qed.

(** One deque changes its chain; the nodes of the new chain are nodes
    of the old one or fresh, and live nodes outside the old chain are as
    before. *)
Lemma inv_update L (s s' : state) this d d' l' :
  inv L s → objs s !! this = Some d →
  objs s' = <[this := d']> (objs s) →
  repr (cells (mem s')) d' l' →
  (∀ q, q ∉ (L this).*1 → is_Some (cells (mem s) !! q) →
        cells (mem s') !! q = cells (mem s) !! q) →
  (∀ q, q ∈ l'.*1 → q ∈ (L this).*1 ∨ cells (mem s) !! q = None) →
  inv (<[this := l']> L) s'.
Proof.
  intros Hinv Hobj Hobjs Hrep Hframe Hnew. pose proof Hinv as [Hreps Hdisj].
  assert (Hdom : ∀ r, is_Some (objs s' !! r) → is_Some (objs s !! r)).
  { intros r. rewrite Hobjs. destruct (decide (this = r)) as [<-|Hne].
    - by rewrite Hobj.
    - by rewrite lookup_insert_ne. }
  split.
  - intros r d0. rewrite Hobjs. destruct (decide (this = r)) as [<-|Hne].
    + rewrite lookup_insert_eq, fn_lookup_insert. by intros [= <-].
    + rewrite lookup_insert_ne, fn_lookup_insert_ne by done. intros Hr.
      eapply repr_frame; [|by apply Hreps].
      intros p Hp. apply Hframe.
      * intros Hp'. eapply (Hdisj r this); eauto.
      * by eapply inv_live.
  - intros r1 r2 p Hne [d1 H1]%Hdom [d2 H2]%Hdom.
    destruct (decide (this = r1)) as [<-|Hne1].
    + rewrite fn_lookup_insert, fn_lookup_insert_ne by done. intros Hp Hp2.
      destruct (Hnew p Hp) as [Hold|Hfree].
      * eapply (Hdisj this r2); eauto.
      * destruct (inv_live L s r2 d2 p Hinv H2 Hp2) as [_ [? ?]]. congruence.
    + rewrite fn_lookup_insert_ne by done.
      destruct (decide (this = r2)) as [<-|Hne2].
      * rewrite fn_lookup_insert. intros Hp Hp2.
        destruct (Hnew p Hp2) as [Hold|Hfree].
        -- eapply (Hdisj r1 this); eauto.
        -- destruct (inv_live L s r1 d1 p Hinv H1 Hp) as [_ [? ?]]. congruence.
      * rewrite fn_lookup_insert_ne by done. eapply Hdisj; eauto.
Qed.

Lemma PushBack_inv L (s : state) this d v :
  inv L s → objs s !! this = Some d → avail (mem s) ≠ 0%N →
  ∃ p s', p = fresh_ptr (cells (mem s)) ∧ PushBack this v s = Ok tt s' ∧
        inv (<[this := L this ++ [(p, v)]]> L) s' ∧
        objs s' = <[this := mk_deque (if (head d =? nullptr)%N then p else head d) p
                              (uint (size d + 1)) (allocator d)]> (objs s) ∧
        trace s' = trace s ++ [EvAlloc this p] ∧
        avail (mem s') = (avail (mem s) - 1)%N ∧
        cells (mem s) !! p = None.
Proof.
  intros Hinv Hobj Hav. pose proof Hinv as [Hreps _].
  pose proof (Hreps this d Hobj) as Hrep.
  pose proof (fresh_ptr_nonnull (cells (mem s))) as Hp.
  pose proof (fresh_ptr_free (cells (mem s))) as Hpf.
  set (p := fresh_ptr (cells (mem s))) in *.
  destruct Hrep as (Hc & Hnd & Hhd & Htl & Hsz).
  assert (Hpl : p ∉ (L this).*1).
  { intros Hin. destruct (chain_live _ _ _ _ _ Hc Hin) as [_ [? ?]]. congruence. }
  assert (Htlive : tail d ≠ nullptr → is_Some (cells (mem s) !! tail d)).
  { intros Ht. destruct (L this) as [|x l] eqn:HL; [by rewrite Htl in Ht|].
    eapply chain_live; [exact Hc|]. rewrite Htl. by apply last_ptr_in. }
  exists p. eexists. split; [done|]. split; [by apply PushBack_run|].
  cbv zeta. fold p. split_and!; try done.
  eapply inv_update; [exact Hinv|exact Hobj|done| | |]; cbn [cells mem].
  - split_and!; cbn [head tail size].
    + apply chain_app. split.
      * simpl. rewrite Htl. eapply (chain_link_next _ _ _ nullptr); [|done].
        eapply chain_frame; [|exact Hc]. intros q Hq.
        rewrite lookup_insert_ne; [done|]. by intros <-.
      * simpl. split_and!; [done| |done].
        rewrite link_next_lookup_ne, lookup_insert_eq, Htl; [done|].
        intros Heq. destruct (L this) as [|x l] eqn:HL; [by rewrite Htl in Heq|].
        apply Hpl. rewrite Heq, Htl. by apply last_ptr_in.
    + rewrite fmap_app. apply list.NoDup_app. split_and!; [done| |].
      * intros q Hq [->|[]%elem_of_nil]%elem_of_cons. done.
      * simpl. apply NoDup_singleton.
    + rewrite first_ptr_app. simpl. rewrite Hhd.
      destruct (L this) as [|[q w] l]; simpl; [done|].
      destruct Hc as (Hq & _). by rewrite (eqb_nullptr_false q Hq).
    + by rewrite last_ptr_app.
    + rewrite length_app, Hsz, uint_succ. simpl. f_equal. lia.
  - intros q Hq [nq Hnq].
    assert (link_next (tail d) p (<[p:=mk_node (Init v) (Init (tail d)) (Init nullptr)]>
              (cells (mem s))) !! q =
            <[p:=mk_node (Init v) (Init (tail d)) (Init nullptr)]> (cells (mem s)) !! q) as ->.
    { destruct (L this) as [|x l] eqn:HL.
      - simpl in Htl. by rewrite Htl.
      - apply link_next_lookup_ne. intros ->. apply Hq. rewrite Htl. by apply last_ptr_in. }
    rewrite lookup_insert_ne; [done|]. intros <-. congruence.
  - intros q. rewrite fmap_app. intros [Hq|[->|[]%elem_of_nil]%elem_of_cons]%elem_of_app; [by left|by right].
Qed.



Lemma PushFront_inv L (s : state) this d v :
  inv L s → objs s !! this = Some d → avail (mem s) ≠ 0%N →
  ∃ p s', p = fresh_ptr (cells (mem s)) ∧ PushFront this v s = Ok tt s' ∧
        inv (<[this := (p, v) :: L this]> L) s' ∧
        objs s' = <[this := mk_deque p (if (tail d =? nullptr)%N then p else tail d)
                              (uint (size d + 1)) (allocator d)]> (objs s) ∧
        trace s' = trace s ++ [EvAlloc this p] ∧
        avail (mem s') = (avail (mem s) - 1)%N ∧
        cells (mem s) !! p = None.
Proof.
  intros Hinv Hobj Hav. pose proof Hinv as [Hreps _].
  pose proof (Hreps this d Hobj) as Hrep.
  pose proof (fresh_ptr_nonnull (cells (mem s))) as Hp.
  pose proof (fresh_ptr_free (cells (mem s))) as Hpf.
  set (p := fresh_ptr (cells (mem s))) in *.
  pose proof (repr_tail_nil _ _ _ Hrep) as Htnil.
  destruct Hrep as (Hc & Hnd & Hhd & Htl & Hsz).
  assert (Hpl : p ∉ (L this).*1).
  { intros Hin. destruct (chain_live _ _ _ _ _ Hc Hin) as [_ [? ?]]. congruence. }
  assert (Hhlive : head d ≠ nullptr → is_Some (cells (mem s) !! head d)).
  { intros Ht. destruct (L this) as [|x l] eqn:HL; [by rewrite Hhd in Ht|].
    eapply chain_live; [exact Hc|]. rewrite Hhd. by apply first_ptr_in. }
  assert (Hhp : head d ≠ nullptr → head d ∈ (L this).*1).
  { intros Ht. destruct (L this) as [|x l] eqn:HL; [by rewrite Hhd in Ht|].
    rewrite Hhd. by apply first_ptr_in. }
  exists p. eexists. split; [done|]. split; [by apply PushFront_run|].
  cbv zeta. fold p. split_and!; try done.
  eapply inv_update; [exact Hinv|exact Hobj|done| | |]; cbn [cells mem].
  - split_and!; cbn [head tail size].
    + simpl. split_and!; [done| |].
      * rewrite link_prev_lookup_other, lookup_insert_eq, Hhd; [done|].
        intros Hh Heq. apply Hpl. rewrite Heq. by apply Hhp.
      * rewrite Hhd. eapply (chain_link_prev _ nullptr); [|done].
        eapply chain_frame; [|exact Hc]. intros q Hq.
        rewrite lookup_insert_ne; [done|]. by intros <-.
    + simpl. by apply list.NoDup_cons.
    + done.
    + simpl. destruct (N.eqb_spec (tail d) nullptr) as [Ht0|Ht0].
      * apply Htnil in Ht0. by rewrite Ht0.
      * rewrite Htl. apply last_ptr_dflt. intros Hnil. by apply Ht0, Htnil.
    + rewrite Hsz, uint_succ. simpl length. f_equal. lia.
  - intros q Hq [nq Hnq]. rewrite link_prev_lookup_other.
    + rewrite lookup_insert_ne; [done|]. intros <-. congruence.
    + intros Hh ->. by apply Hq, Hhp.
  - intros q [->|Hq]%elem_of_cons; [by right|by left].
Qed.

Lemma PopBack_inv L (s : state) this d l0 pt vt :
  inv L s → objs s !! this = Some d → L this = l0 ++ [(pt, vt)] →
  ∃ s', PopBack this s = Ok tt s' ∧
        inv (<[this := l0]> L) s' ∧
        objs s' = <[this := mk_deque (first_ptr l0 nullptr) (last_ptr l0 nullptr)
                              (uint (size d - 1)) (allocator d)]> (objs s) ∧
        trace s' = trace s ++ [EvDealloc this pt] ∧
        avail (mem s') = (avail (mem s) + 1)%N ∧
        tail d = pt.
Proof.
  intros Hinv Hobj HL. pose proof Hinv as [Hreps _].
  pose proof (Hreps this d Hobj) as Hrep.
  destruct Hrep as (Hc & Hnd & Hhd & Htl & Hsz).
  rewrite HL in Hc, Hnd, Hhd, Htl, Hsz.
  rewrite last_ptr_app in Htl. simpl in Htl.
  apply chain_app in Hc as (Hc0 & Hpt & Hcell & _). simpl in Hc0, Hcell.
  rewrite fmap_app in Hnd. apply list.NoDup_app in Hnd as (Hnd0 & Hnin & _).
  assert (Hptl : pt ∉ l0.*1).
  { intros Hin. apply (Hnin _ Hin). left. }
  set (pv := last_ptr l0 nullptr).
  assert (Hpv : pv ≠ nullptr → pv ∈ l0.*1).
  { intros Hne. destruct l0 as [|x l0]; [done|]. by apply last_ptr_in. }
  assert (Hpveq : last_ptr l0 nullptr = pv) by done.
  assert (Hhead : (if (pv =? nullptr)%N then nullptr else head d) = first_ptr l0 nullptr).
  { destruct l0 as [|[q w] l0]; [done|].
    assert (pv ≠ nullptr) as Hn.
    { eapply (chain_nonnull _ _ _ _ _ Hc0). by apply last_ptr_in. }
    by rewrite (eqb_nullptr_false _ Hn), Hhd. }
  eexists. split.
  { eapply PopBack_run; [exact Hobj|by rewrite Htl|by rewrite Htl| |].
    - rewrite Htl. intros Heq. destruct (decide (pv = nullptr)) as [E|E]; [congruence|].
      apply Hptl. rewrite <- Heq. by apply Hpv.
    - intros Hne. by eapply chain_live; [exact Hc0|apply Hpv]. }
  fold pv. rewrite Hhead, Htl. split_and!; try done.
  eapply inv_update; [exact Hinv|exact Hobj|done| | |]; cbn [cells mem].
  - split_and!; cbn [head tail size]; try done.
    + eapply (chain_link_next _ _ _ pt); [|done].
      eapply chain_frame; [|exact Hc0]. intros q Hq.
      rewrite lookup_delete_ne; [done|]. by intros <-.
    + rewrite Hsz, uint_pred, length_app. simpl. f_equal. lia.
  - intros q Hq [nq Hnq]. rewrite HL, fmap_app in Hq. rewrite link_next_lookup_other.
    + rewrite lookup_delete_ne; [done|]. intros <-. apply Hq, elem_of_app. right. left.
    + intros Hne ->. apply Hq, elem_of_app. left. by apply Hpv.
  - intros q Hq. left. rewrite HL, fmap_app. apply elem_of_app. by left.
Qed.

Lemma PopFront_inv L (s : state) this d l0 pt vt :
  inv L s → objs s !! this = Some d → L this = (pt, vt) :: l0 →
  ∃ s', PopFront this s = Ok tt s' ∧
        inv (<[this := l0]> L) s' ∧
        objs s' = <[this := mk_deque (first_ptr l0 nullptr) (last_ptr l0 nullptr)
                              (uint (size d - 1)) (allocator d)]> (objs s) ∧
        trace s' = trace s ++ [EvDealloc this pt] ∧
        avail (mem s') = (avail (mem s) + 1)%N ∧
        head d = pt.
Proof.
  intros Hinv Hobj HL. pose proof Hinv as [Hreps _].
  pose proof (Hreps this d Hobj) as Hrep.
  destruct Hrep as (Hc & Hnd & Hhd & Htl & Hsz).
  rewrite HL in Hc, Hnd, Hhd, Htl, Hsz.
  simpl in Hhd, Htl, Hc, Hnd. destruct Hc as (Hpt & Hcell & Hc0).
  apply list.NoDup_cons in Hnd as [Hptl Hnd0].
  set (nx := first_ptr l0 nullptr) in *.
  assert (Hnx : nx ≠ nullptr → nx ∈ l0.*1).
  { intros Hne. destruct l0 as [|x l0]; [done|]. by apply first_ptr_in. }
  assert (Htail : (if (nx =? nullptr)%N then nullptr else tail d) = last_ptr l0 nullptr).
  { destruct l0 as [|[q w] l0]; [done|].
    assert (nx ≠ nullptr) as Hn.
    { eapply (chain_nonnull _ _ _ _ _ Hc0). by apply first_ptr_in. }
    rewrite (eqb_nullptr_false _ Hn), Htl. by apply last_ptr_dflt. }
  eexists. split.
  { eapply PopFront_run; [exact Hobj|by rewrite Hhd|by rewrite Hhd| |].
    - rewrite Hhd. intros Heq. destruct (decide (nx = nullptr)) as [E|E]; [congruence|].
      apply Hptl. rewrite <- Heq. by apply Hnx.
    - intros Hne. by eapply chain_live; [exact Hc0|apply Hnx]. }
  rewrite Htail, Hhd. split_and!; try done.
  eapply inv_update; [exact Hinv|exact Hobj|done| | |]; cbn [cells mem].
  - split_and!; cbn [head tail size]; try done.
    + eapply (chain_link_prev _ pt); [|done].
      eapply chain_frame; [|exact Hc0]. intros q Hq.
      rewrite lookup_delete_ne; [done|]. by intros <-.
    + rewrite Hsz, uint_pred. simpl length. f_equal. lia.
  - intros q Hq [nq Hnq]. rewrite HL in Hq. simpl in Hq. rewrite link_prev_lookup_other.
    + rewrite lookup_delete_ne; [done|]. intros <-. apply Hq. left.
    + intros Hne ->. apply Hq. right. by apply Hnx.
  - intros q Hq. left. rewrite HL. simpl. by right.
Qed.

End Invariant.

(** ** Every method keeps the invariant *)

Create HintDb reads discriminated.

Section Preservation.

Context {elemType : Type} `{!node_layout}.
Abbreviation state := (state elemType simple_allocator_t).
Abbreviation M := (M elemType simple_allocator_t).
Abbreviation reads := (reads (elemType:=elemType)).
Abbreviation preserves := (preserves (elemType:=elemType)).
Abbreviation conserves := (conserves (elemType:=elemType)).
Abbreviation take_over := (take_over (elemType:=elemType)).

Lemma replay_app tr1 tr2 live :
  replay (tr1 ++ tr2) live =
  match replay tr1 live with
  | Some live' => replay tr2 live'
  | None => None
  end.
Proof.
  revert live. induction tr1 as [|[i p|i p] tr1 IH]; intros live; simpl; [done|apply IH|].
  destruct (live !! p) as [j|]; [|done]. destruct (i =? j)%N; [apply IH|done].
Qed.

Lemma reads_ret {A} (a : A) : reads (ret a).
Proof. by intros s. Qed.

Lemma reads_throw {A} w : reads (throw (A:=A) w).
Proof. by intros s. Qed.

Lemma reads_fault {A} : reads (fault (A:=A)).
Proof. by intros s. Qed.

Lemma reads_timeout {A} : reads (timeout (A:=A)).
Proof. by intros s. Qed.

Lemma reads_bind {A B} (m : M A) (k : A → M B) :
  reads m → (∀ a, reads (k a)) → reads (bind m k).
Proof.
  intros Hm Hk s. unfold bind. specialize (Hm s).
  destruct (m s) as [a s1|w s1| |]; try done. subst s1. apply Hk.
Qed.

Lemma reads_object this : reads (object this).
Proof. intros s. unfold object. by destruct (objs s !! this). Qed.

Lemma reads_node p : reads (node p).
Proof. intros s. unfold node. by destruct (cell p (mem s)). Qed.

Lemma reads_read {A} (x : slot A) : reads (read x).
Proof. destruct x; [apply reads_fault|apply reads_ret]. Qed.

Lemma reads_if {A} (b : bool) (m1 m2 : M A) :
  reads m1 → reads m2 → reads (if b then m1 else m2).
Proof. by destruct b. Qed.


#[local] Hint Resolve reads_ret reads_throw reads_fault reads_timeout reads_object
  reads_node reads_read : reads.
#[local] Hint Extern 2 (reads (bind _ _)) => apply reads_bind; [|intros ?] : reads.
#[local] Hint Extern 2 (reads (if _ then _ else _)) => apply reads_if : reads.

Ltac reads_tac := solve [auto 30 with reads].

Lemma reads_get_head this : reads (get_head this).
Proof. unfold get_head. reads_tac. Qed.
Lemma reads_get_tail this : reads (get_tail this).
Proof. unfold get_tail. reads_tac. Qed.
Lemma reads_get_size this : reads (get_size this).
Proof. unfold get_size. reads_tac. Qed.
Lemma reads_get_value p : reads (get_value p).
Proof. unfold get_value. reads_tac. Qed.
Lemma reads_get_prev p : reads (get_prev p).
Proof. unfold get_prev. reads_tac. Qed.
Lemma reads_get_next p : reads (get_next p).
Proof. unfold get_next. reads_tac. Qed.

#[local] Hint Resolve reads_get_head reads_get_tail reads_get_size reads_get_value
  reads_get_prev reads_get_next : reads.

Lemma reads_IsEmpty this : reads (IsEmpty this).
Proof. unfold IsEmpty. reads_tac. Qed.
Lemma reads_Size this : reads (Size this).
Proof. apply reads_get_size. Qed.
Lemma reads_PeekHead this : reads (PeekHead this).
Proof. unfold PeekHead. reads_tac. Qed.
Lemma reads_GetFront this : reads (GetFront this).
Proof. unfold GetFront. reads_tac. Qed.
Lemma reads_PeekTail this : reads (PeekTail this).
Proof. unfold PeekTail. reads_tac. Qed.
Lemma reads_GetBack this : reads (GetBack this).
Proof. unfold GetBack. reads_tac. Qed.

Lemma reads_const_deref it : reads (const_iterator.deref it).
Proof. unfold const_iterator.deref. reads_tac. Qed.
Lemma reads_const_pre_incr it : reads (const_iterator.pre_incr it).
Proof. unfold const_iterator.pre_incr. reads_tac. Qed.
Lemma reads_begin_const this : reads (begin_const this).
Proof. unfold begin_const. reads_tac. Qed.
Lemma reads_end_const this : reads (end_const this).
Proof. unfold end_const. reads_tac. Qed.

#[local] Hint Resolve reads_IsEmpty reads_Size reads_PeekHead reads_GetFront
  reads_PeekTail reads_GetBack reads_const_deref reads_const_pre_incr
  reads_begin_const reads_end_const : reads.

Lemma preserves_reads strict R {A} (m : M A) : reads m → preserves strict R m.
Proof.
  intros Hm L s HI. specialize (Hm s).
  destruct (m s) as [a s1|w s1| |]; try done; subst s1; by exists L.
Qed.

Lemma preserves_bind strict R {A B} (m : M A) (k : A → M B) :
  preserves strict R m → (∀ a, preserves strict R (k a)) →
  preserves strict R (bind m k).
Proof.
  intros Hm Hk L s HI. unfold bind. specialize (Hm L s HI).
  destruct (m s) as [a s1|w s1| |]; try done.
  destruct Hm as (L1 & HI1 & Hf1). specialize (Hk a L1 s1 HI1).
  destruct (k a s1) as [b s2|w s2| |]; try done;
    destruct Hk as (L2 & HI2 & Hf2); exists L2; (split; [done|]);
    intros r Hr; destruct (Hf1 r Hr) as [<- <-]; by apply Hf2.
Qed.

Lemma preserves_if strict R {A} (b : bool) (m1 m2 : M A) :
  preserves strict R m1 → preserves strict R m2 →
  preserves strict R (if b then m1 else m2).
Proof. by destruct b. Qed.

Lemma preserves_weaken strict (R R' : N → Prop) {A} (m : M A) :
  (∀ r, R r → R' r) → preserves strict R m → preserves strict R' m.
Proof.
  intros HR Hm L s HI. specialize (Hm L s HI).
  destruct (m s) as [a s1|w s1| |]; try done;
    destruct Hm as (L1 & HI1 & Hf1); exists L1; (split; [done|]); intros r Hr; apply Hf1; auto.
Qed.

Lemma preserves_timeout strict R {A} : preserves strict R (timeout (A:=A)).
Proof. by intros L s HI. Qed.



(** *** The trace under the end operations *)

Lemma own_alloc L (s s' : state) this d p l' :
  inv L s → own L s → objs s !! this = Some d →
  (∀ r, is_Some (objs s' !! r) → is_Some (objs s !! r)) →
  trace s' = trace s ++ [EvAlloc this p] →
  cells (mem s) !! p = None →
  (∀ q, q ∈ l'.*1 → q ∈ (L this).*1 ∨ q = p) →
  own (<[this := l']> L) s'.
Proof.
  intros Hinv (live & Hrep & Hown) Hobj Hdom Htr Hfree Hnew.
  exists (<[p := this]> live). split.
  - by rewrite Htr, replay_app, Hrep.
  - intros r q [dr Hr]%Hdom.
    assert (∀ q, q ∈ (L r).*1 → q ≠ p) as Hnp.
    { intros q' Hq' ->. destruct (inv_live L s r dr p Hinv Hr Hq') as [_ [? ?]]. congruence. }
    destruct (decide (this = r)) as [<-|Hne].
    + rewrite fn_lookup_insert. intros [Hq| ->]%Hnew.
      * rewrite lookup_insert_ne by (intros <-; by eapply Hnp). apply Hown; eauto.
      * by rewrite lookup_insert_eq.
    + rewrite fn_lookup_insert_ne by done. intros Hq.
      rewrite lookup_insert_ne by (intros <-; by eapply Hnp). apply Hown; eauto.
Qed.

Lemma own_dealloc L (s s' : state) this d pt l' :
  inv L s → own L s → objs s !! this = Some d →
  (∀ r, is_Some (objs s' !! r) → is_Some (objs s !! r)) →
  trace s' = trace s ++ [EvDealloc this pt] →
  pt ∈ (L this).*1 →
  (∀ q, q ∈ l'.*1 → q ∈ (L this).*1 ∧ q ≠ pt) →
  own (<[this := l']> L) s'.
Proof.
  intros Hinv (live & Hrep & Hown) Hobj Hdom Htr Hpt Hnew.
  exists (delete pt live). split.
  - rewrite Htr, replay_app, Hrep. simpl.
    rewrite (Hown this pt) by eauto. by rewrite N.eqb_refl.
  - intros r q [dr Hr]%Hdom.
    destruct (decide (this = r)) as [<-|Hne].
    + rewrite fn_lookup_insert. intros [Hq Hqne]%Hnew.
      rewrite lookup_delete_ne by done. apply Hown; eauto.
    + rewrite fn_lookup_insert_ne by done. intros Hq.
      rewrite lookup_delete_ne.
      * apply Hown; eauto.
      * intros <-. destruct Hinv as [_ Hdisj]. eapply (Hdisj this r); eauto.
Qed.

Lemma own_same L L' (s s' : state) :
  own L s → trace s' = trace s →
  (∀ r q, is_Some (objs s' !! r) → q ∈ (L' r).*1 →
          is_Some (objs s !! r) ∧ q ∈ (L r).*1) →
  own L' s'.
Proof.
  intros (live & Hrep & Hown) Htr Hsub. exists live. split; [by rewrite Htr|].
  intros r q Hr Hq. destruct (Hsub r q Hr Hq). by apply Hown.
Qed.

Lemma PushBack_no_object (s : state) this v :
  objs s !! this = None → PushBack this v s = Fault.
Proof. intros Hobj. unfold_methods. reduce. by rewrite Hobj. Qed.

Lemma PushFront_no_object (s : state) this v :
  objs s !! this = None → PushFront this v s = Fault.
Proof. intros Hobj. unfold_methods. reduce. by rewrite Hobj. Qed.

Lemma PopBack_no_object (s : state) this :
  objs s !! this = None → PopBack this s = Fault.
Proof. intros Hobj. unfold_methods. reduce. by rewrite Hobj. Qed.

Lemma PopFront_no_object (s : state) this :
  objs s !! this = None → PopFront this s = Fault.
Proof. intros Hobj. unfold_methods. reduce. by rewrite Hobj. Qed.

Lemma insert_is_Some_dom (o : gmap N (deque_t simple_allocator_t)) this d d' r :
  o !! this = Some d → is_Some (<[this := d']> o !! r) → is_Some (o !! r).
Proof.
  intros Hobj. destruct (decide (this = r)) as [<-|Hne].
  - by rewrite Hobj.
  - by rewrite lookup_insert_ne.
Qed.

Lemma preserves_PushBack strict this v :
  preserves strict (eq this) (PushBack this v).
Proof.
  intros L s [Hinv Hown].
  destruct (objs s !! this) as [d|] eqn:Hobj; [|by rewrite PushBack_no_object].
  destruct (decide (avail (mem s) = 0%N)) as [Hav|Hav]; [by rewrite PushBack_fault|].
  destruct (PushBack_inv L s this d v Hinv Hobj Hav)
    as (p & s' & Hp & -> & Hinv' & Hobjs & Htr & _ & Hfree).
  eexists. split; [split; [exact Hinv'|]|].
  - intros Hs. eapply (own_alloc L s s' this d p); [done|by apply Hown|done| |done|done|].
    + intros r. rewrite Hobjs. by eapply insert_is_Some_dom.
    + intros q. rewrite fmap_app. intros [Hq|[->|[]%elem_of_nil]%elem_of_cons]%elem_of_app; auto.
  - intros r Hr. rewrite fn_lookup_insert_ne, Hobjs, lookup_insert_ne by done. done.
Qed.

Lemma preserves_PushFront strict this v :
  preserves strict (eq this) (PushFront this v).
Proof.
  intros L s [Hinv Hown].
  destruct (objs s !! this) as [d|] eqn:Hobj; [|by rewrite PushFront_no_object].
  destruct (decide (avail (mem s) = 0%N)) as [Hav|Hav]; [by rewrite PushFront_fault|].
  destruct (PushFront_inv L s this d v Hinv Hobj Hav)
    as (p & s' & Hp & -> & Hinv' & Hobjs & Htr & _ & Hfree).
  eexists. split; [split; [exact Hinv'|]|].
  - intros Hs. eapply (own_alloc L s s' this d p); [done|by apply Hown|done| |done|done|].
    + intros r. rewrite Hobjs. by eapply insert_is_Some_dom.
    + intros q [->|Hq]%elem_of_cons; auto.
  - intros r Hr. rewrite fn_lookup_insert_ne, Hobjs, lookup_insert_ne by done. done.
Qed.

Lemma snoc_cases {A} (l : list A) : l = [] ∨ ∃ l0 x, l = l0 ++ [x].
Proof. induction l as [|x l0 _] using rev_ind; [by left|right; eauto]. Qed.

Lemma preserves_PopBack strict this :
  preserves strict (eq this) (PopBack this).
Proof.
  intros L s [Hinv Hown].
  destruct (objs s !! this) as [d|] eqn:Hobj; [|by rewrite PopBack_no_object].
  destruct (snoc_cases (L this)) as [HL|(l0 & [pt vt] & HL)].
  - rewrite (PopBack_throw s this d Hobj).
    + by exists L.
    + destruct Hinv as [Hreps _]. by apply (repr_tail_nil _ _ _ (Hreps this d Hobj)).
  - destruct (PopBack_inv L s this d l0 pt vt Hinv Hobj HL)
      as (s' & -> & Hinv' & Hobjs & Htr & _ & _).
    eexists. split; [split; [exact Hinv'|]|].
    + intros Hs. pose proof Hinv as [Hreps _].
      destruct (Hreps this d Hobj) as (_ & Hnd & _).
      rewrite HL, fmap_app in Hnd. apply list.NoDup_app in Hnd as (_ & Hnin & _).
      eapply (own_dealloc L s s' this d pt); [done|by apply Hown|done| |done| |].
      * intros r. rewrite Hobjs. by eapply insert_is_Some_dom.
      * rewrite HL, fmap_app. apply elem_of_app. right. left.
      * intros q Hq. rewrite HL, fmap_app. split; [apply elem_of_app; by left|].
        intros ->. apply (Hnin _ Hq). left.
    + intros r Hr. rewrite fn_lookup_insert_ne, Hobjs, lookup_insert_ne by done. done.
Qed.

Lemma preserves_PopFront strict this :
  preserves strict (eq this) (PopFront this).
Proof.
  intros L s [Hinv Hown].
  destruct (objs s !! this) as [d|] eqn:Hobj; [|by rewrite PopFront_no_object].
  destruct (L this) as [|[pt vt] l0] eqn:HL.
  - rewrite (PopFront_throw s this d Hobj).
    + by exists L.
    + destruct Hinv as [Hreps _]. by apply (repr_head_nil _ _ _ (Hreps this d Hobj)).
  - destruct (PopFront_inv L s this d l0 pt vt Hinv Hobj HL)
      as (s' & -> & Hinv' & Hobjs & Htr & _ & _).
    eexists. split; [split; [exact Hinv'|]|].
    + intros Hs. pose proof Hinv as [Hreps _].
      destruct (Hreps this d Hobj) as (_ & Hnd & _).
      rewrite HL in Hnd. simpl in Hnd. apply list.NoDup_cons in Hnd as [Hnin _].
      eapply (own_dealloc L s s' this d pt); [done|by apply Hown|done| |done| |].
      * intros r. rewrite Hobjs. by eapply insert_is_Some_dom.
      * rewrite HL. simpl. left.
      * intros q Hq. rewrite HL. simpl. split; [by right|]. by intros ->.
    + intros r Hr. rewrite fn_lookup_insert_ne, Hobjs, lookup_insert_ne by done. done.
Qed.



(** *** Constructors, the destructor's last step, writes through references *)

Lemma preserves_new_object strict this :
  preserves strict (eq this) (new_object this nullptr nullptr 0).
Proof.
  intros L s [Hinv Hown]. unfold new_object.
  destruct (objs s !! this) as [d|] eqn:Hobj; [done|].
  exists (<[this := []]> L). split; [split|]; cbn [objs mem trace cells].
  - destruct Hinv as [Hreps Hdisj]. split; cbn [objs mem trace cells].
    + intros r d. destruct (decide (this = r)) as [<-|Hne].
      * rewrite lookup_insert_eq, fn_lookup_insert. intros [= <-]. apply repr_nil.
      * rewrite lookup_insert_ne, fn_lookup_insert_ne by done. apply Hreps.
    + intros r1 r2 p Hne.
      destruct (decide (this = r1)) as [<-|Hne1].
      { rewrite fn_lookup_insert. by intros _ _ []%elem_of_nil. }
      destruct (decide (this = r2)) as [<-|Hne2].
      { rewrite (fn_lookup_insert L). intros _ _ _ []%elem_of_nil. }
      rewrite !lookup_insert_ne, !fn_lookup_insert_ne by done. by apply Hdisj.
  - intros Hs. eapply own_same; [by apply Hown|done|]. cbn [objs].
    intros r q. destruct (decide (this = r)) as [<-|Hne].
    + rewrite fn_lookup_insert. by intros _ []%elem_of_nil.
    + by rewrite lookup_insert_ne, fn_lookup_insert_ne.
  - intros r Hr. by rewrite fn_lookup_insert_ne, lookup_insert_ne.
Qed.

Lemma preserves_delete_object strict this :
  preserves strict (eq this) (delete_object this).
Proof.
  intros L s [Hinv Hown]. unfold delete_object.
  destruct (objs s !! this) as [d|] eqn:Hobj; [|done].
  assert (Hsub : ∀ r x, delete this (objs s) !! r = Some x → objs s !! r = Some x).
  { intros r x. destruct (decide (this = r)) as [<-|Hne].
    - by rewrite lookup_delete_eq.
    - by rewrite lookup_delete_ne. }
  exists L. split; [split|]; cbn [objs mem trace cells].
  - destruct Hinv as [Hreps Hdisj]. split; cbn [objs mem trace cells].
    + intros r x Hr. by apply Hreps, Hsub.
    + intros r1 r2 p Hne [x1 H1] [x2 H2]. apply Hdisj; eauto.
  - intros Hs. eapply own_same; [by apply Hown|done|]. cbn [objs].
    intros r q [x Hr] Hq. eauto.
  - intros r Hr. by rewrite lookup_delete_ne.
Qed.

Lemma store_value_run (s : state) p v n :
  p ≠ nullptr → cells (mem s) !! p = Some n →
  set_value p v s =
  Ok tt (mk_state (objs s)
           (mk_memory (<[p := mk_node (Init v) (prev n) (next n)]> (cells (mem s)))
              (avail (mem s)))
           (trace s)).
Proof.
  intros Hp Hc. unfold set_value, store, cell.
  by rewrite (eqb_nullptr_false p Hp), Hc.
Qed.

(** Overwriting the value of one node of a chain. *)
Lemma inv_set_value L (s : state) this d l1 p w l2 v :
  inv L s → objs s !! this = Some d → L this = l1 ++ (p, w) :: l2 →
  ∃ n, cells (mem s) !! p = Some n ∧ p ≠ nullptr ∧
    inv (<[this := l1 ++ (p, v) :: l2]> L)
      (mk_state (objs s)
         (mk_memory (<[p := mk_node (Init v) (prev n) (next n)]> (cells (mem s)))
            (avail (mem s)))
         (trace s)).
Proof.
  intros Hinv Hobj HL. pose proof Hinv as [Hreps _].
  destruct (Hreps this d Hobj) as (Hc & Hnd & Hhd & Htl & Hsz).
  rewrite HL in Hc, Hnd, Hhd, Htl, Hsz.
  apply chain_app in Hc as (Hc1 & Hp & Hcell & Hc2). simpl in Hc1.
  rewrite fmap_app in Hnd. simpl in Hnd.
  apply list.NoDup_app in Hnd as (Hnd1 & Hnin & [Hp2 Hnd2]%list.NoDup_cons).
  eexists. split; [exact Hcell|]. split; [done|]. cbn [prev next].
  eapply inv_update; [exact Hinv|exact Hobj| | | |]; cbn [objs mem cells].
  - symmetry. by apply insert_id.
  - split_and!.
    + apply chain_app. simpl. split_and!; [|done|by rewrite lookup_insert_eq|].
      * eapply chain_frame; [|exact Hc1]. intros q Hq.
        rewrite lookup_insert_ne; [done|]. intros <-. apply (Hnin _ Hq). left.
      * eapply chain_frame; [|exact Hc2]. intros q Hq.
        rewrite lookup_insert_ne; [done|]. by intros <-.
    + rewrite fmap_app. simpl. apply list.NoDup_app. split_and!; [done|done|].
      by apply list.NoDup_cons.
    + rewrite Hhd, !first_ptr_app. done.
    + rewrite Htl, !last_ptr_app. done.
    + rewrite Hsz, !length_app. done.
  - intros q Hq _. rewrite lookup_insert_ne; [done|]. intros <-. apply Hq.
    rewrite HL, fmap_app. apply elem_of_app. right. left.
  - intros q Hq. left. by rewrite HL, fmap_app in *.
Qed.

Lemma preserves_set_value_in strict L (s : state) this d l1 p w l2 v :
  Inv strict L s → objs s !! this = Some d → L this = l1 ++ (p, w) :: l2 →
  ∃ s', set_value p v s = Ok tt s' ∧
    ∃ L', Inv strict L' s' ∧ ∀ r, this ≠ r → L' r = L r ∧ objs s' !! r = objs s !! r.
Proof.
  intros [Hinv Hown] Hobj HL.
  destruct (inv_set_value L s this d l1 p w l2 v Hinv Hobj HL) as (n & Hc & Hp & Hinv').
  eexists. split; [by apply store_value_run|].
  eexists. split; [split; [exact Hinv'|]|].
  - intros Hs. eapply own_same; [by apply Hown|done|]. cbn [objs].
    intros r q Hr Hq. split; [done|]. revert Hq.
    destruct (decide (this = r)) as [<-|Hne].
    + rewrite fn_lookup_insert, HL, !fmap_app. done.
    + by rewrite fn_lookup_insert_ne.
  - intros r Hr. by rewrite fn_lookup_insert_ne.
Qed.

Lemma preserves_GetFront_assign strict this v :
  preserves strict (eq this) (GetFront_assign this v).
Proof.
  intros L s HI. unfold GetFront_assign, get_head, bind at 1 2, object.
  destruct (objs s !! this) as [d|] eqn:Hobj; [|done]. cbn [ret].
  destruct HI as [Hinv Hown]. pose proof Hinv as [Hreps _].
  pose proof (Hreps this d Hobj) as Hrep.
  destruct (L this) as [|[p w] l2] eqn:HL.
  - assert (head d = nullptr) as -> by (by apply (repr_head_nil _ _ _ Hrep)).
    simpl. by exists L.
  - destruct Hrep as (Hc & _ & Hhd & _). simpl in Hhd, Hc. destruct Hc as (Hp & _).
    rewrite Hhd, (eqb_nullptr_false p Hp).
    destruct (preserves_set_value_in strict L s this d [] p w l2 v) as (s' & -> & HL');
      [by split|done|done|]. done.
Qed.

Lemma preserves_GetBack_assign strict this v :
  preserves strict (eq this) (GetBack_assign this v).
Proof.
  intros L s HI. unfold GetBack_assign, get_tail, bind at 1 2, object.
  destruct (objs s !! this) as [d|] eqn:Hobj; [|done]. cbn [ret].
  destruct HI as [Hinv Hown]. pose proof Hinv as [Hreps _].
  pose proof (Hreps this d Hobj) as Hrep.
  destruct (snoc_cases (L this)) as [HL|(l1 & [p w] & HL)].
  - assert (tail d = nullptr) as -> by (by apply (repr_tail_nil _ _ _ Hrep)).
    simpl. by exists L.
  - pose proof Hrep as (Hc & _ & _ & Htl & _). rewrite HL, last_ptr_app in Htl.
    simpl in Htl.
    assert (p ≠ nullptr) as Hp.
    { eapply (chain_nonnull _ _ _ _ _ Hc). rewrite HL, fmap_app. apply elem_of_app.
      right. left. }
    rewrite Htl, (eqb_nullptr_false p Hp).
    destruct (preserves_set_value_in strict L s this d l1 p w [] v) as (s' & -> & HL');
      [by split|done|done|]. done.
Qed.

(** *** Iterators over a chain *)

Lemma reads_begin this : reads (begin this).
Proof. unfold begin. reads_tac. Qed.
Lemma reads_rbegin this : reads (rbegin this).
Proof. unfold rbegin. reads_tac. Qed.
Lemma reads_rend this : reads (rend this).
Proof. unfold rend. reads_tac. Qed.
Lemma reads_pre_incr it : reads (iterator.pre_incr it).
Proof. unfold iterator.pre_incr. reads_tac. Qed.
Lemma reads_reverse_pre_incr it : reads (reverse_iterator.pre_incr it).
Proof. unfold reverse_iterator.pre_incr. reads_tac. Qed.
Lemma reads_reverse_post_incr it : reads (reverse_iterator.post_incr it).
Proof. unfold reverse_iterator.post_incr. reads_tac. Qed.
Lemma reads_reverse_deref it : reads (reverse_iterator.deref it).
Proof. unfold reverse_iterator.deref. reads_tac. Qed.

#[local] Hint Resolve reads_begin reads_rbegin reads_rend reads_pre_incr
  reads_reverse_pre_incr reads_reverse_post_incr reads_reverse_deref : reads.

Lemma reads_advance k it : reads (advance k it).
Proof. revert it. induction k as [|k IH]; intros it; simpl; reads_tac. Qed.

Lemma reads_radvance k it : reads (radvance k it).
Proof. revert it. induction k as [|k IH]; intros it; simpl; reads_tac. Qed.

Lemma reads_walk fuel it last : reads (walk fuel it last).
Proof.
  revert it. induction fuel as [|fuel IH]; intros it; simpl;
    destruct (const_iterator.neq it last); reads_tac.
Qed.

Lemma reads_rwalk fuel it last : reads (rwalk fuel it last).
Proof.
  revert it. induction fuel as [|fuel IH]; intros it; simpl;
    destruct (reverse_iterator.neq it last); reads_tac.
Qed.

#[local] Hint Resolve reads_advance reads_radvance reads_walk reads_rwalk : reads.

Lemma reads_output fuel deque : reads (output fuel deque).
Proof. unfold output. reads_tac. Qed.

Lemma reads_output_reversed fuel this : reads (output_reversed fuel this).
Proof. unfold output_reversed. reads_tac. Qed.

(** [k] increments from the first node of a chain lead to its node
    number [k], to the end after the last node, and to an exception from
    there. *)
Lemma advance_chain (s : state) pv (l : list (ptr * elemType)) k :
  chain (cells (mem s)) pv l nullptr →
  advance k (iterator.mk (first_ptr l nullptr)) s =
  if (k <=? length l)%nat then Ok (iterator.mk (first_ptr (drop k l) nullptr)) s
  else Throw InvalidIterator s.
Proof.
  revert pv l. induction k as [|k IH]; intros pv l Hc; [done|].
  destruct l as [|[p v] l]; [done|]. destruct Hc as (Hp & Hcell & Hl).
  cbn [advance first_ptr]. unfold bind at 1, iterator.pre_incr.
  cbn [iterator.curNode]. unfold_methods.
  rewrite (eqb_nullptr_false p Hp), Hcell. reduce.
  fold (bind (A:=iterator.t) (B:=iterator.t) (elemType:=elemType)
          (memoryAllocator:=simple_allocator_t)).
  apply (IH p l Hl).
Qed.

Lemma radvance_chain (s : state) (l : list (ptr * elemType)) nx k :
  chain (cells (mem s)) nullptr l nx →
  radvance k (reverse_iterator.mk (last_ptr l nullptr)) s =
  if (k <=? length l)%nat
  then Ok (reverse_iterator.mk (last_ptr (take (length l - k) l) nullptr)) s
  else Throw InvalidIterator s.
Proof.
  revert l nx. induction k as [|k IH]; intros l nx Hc.
  - simpl. by rewrite Nat.sub_0_r, firstn_all.
  - destruct (snoc_cases l) as [->|(l0 & [p v] & ->)]; [done|].
    apply chain_app in Hc as (Hl0 & Hp & Hcell & _). simpl in Hcell.
    rewrite last_ptr_app. cbn [radvance last_ptr].
    unfold bind at 1, reverse_iterator.pre_incr.
    cbn [reverse_iterator.curNode]. unfold_methods.
    rewrite (eqb_nullptr_false p Hp), Hcell. reduce.
    rewrite length_app. simpl length.
    replace (S k <=? length l0 + 1)%nat with (k <=? length l0)%nat
      by (destruct (Nat.leb_spec k (length l0)), (Nat.leb_spec (S k) (length l0 + 1)); lia).
    replace (length l0 + 1 - S k)%nat with (length l0 - k)%nat by lia.
    rewrite take_app_le by lia.
    apply (IH l0 p Hl0).
Qed.

Lemma preserves_write_at strict this k v :
  preserves strict (eq this) (write_at this k v).
Proof.
  intros L s HI. unfold write_at, begin, get_head, object, bind.
  destruct (objs s !! this) as [d|] eqn:Hobj; [|done]. cbn [ret].
  pose proof HI as [Hinv _]. pose proof Hinv as [Hreps _].
  destruct (Hreps this d Hobj) as (Hc & _ & Hhd & _).
  rewrite Hhd, (advance_chain s nullptr (L this) k Hc).
  destruct (k <=? length (L this))%nat; [|by exists L].
  unfold iterator.assign. cbn [iterator.curNode].
  destruct (drop k (L this)) as [|[p w] l2] eqn:Hdrop; [by exists L|].
  assert (HL : L this = take k (L this) ++ (p, w) :: l2)
    by (by rewrite <- Hdrop, take_drop).
  assert (Hp : p ≠ nullptr).
  { eapply (chain_nonnull _ _ _ _ _ Hc). rewrite HL, fmap_app. apply elem_of_app.
    right. left. }
  cbn [first_ptr]. rewrite (eqb_nullptr_false p Hp).
  destruct (preserves_set_value_in strict L s this d _ p w l2 v HI Hobj HL)
    as (s' & -> & HL').
  done.
Qed.

Lemma preserves_write_at_reversed strict this k v :
  preserves strict (eq this) (write_at_reversed this k v).
Proof.
  intros L s HI. unfold write_at_reversed, rbegin, get_tail, object, bind.
  destruct (objs s !! this) as [d|] eqn:Hobj; [|done]. cbn [ret].
  pose proof HI as [Hinv _]. pose proof Hinv as [Hreps _].
  destruct (Hreps this d Hobj) as (Hc & _ & _ & Htl & _).
  rewrite Htl, (radvance_chain s (L this) nullptr k Hc).
  destruct (k <=? length (L this))%nat; [|by exists L].
  unfold reverse_iterator.assign. cbn [reverse_iterator.curNode].
  destruct (snoc_cases (take (length (L this) - k) (L this)))
    as [->|(l1 & [p w] & Htake)]; [by exists L|].
  assert (HL : L this = l1 ++ (p, w) :: drop (length (L this) - k) (L this)).
  { rewrite <- (take_drop (length (L this) - k) (L this)) at 1.
    by rewrite Htake, <- app_assoc. }
  assert (Hp : p ≠ nullptr).
  { eapply (chain_nonnull _ _ _ _ _ Hc). rewrite HL, fmap_app. apply elem_of_app.
    right. left. }
  rewrite Htake, last_ptr_app. cbn [last_ptr]. rewrite (eqb_nullptr_false p Hp).
  destruct (preserves_set_value_in strict L s this d l1 p w _ v HI Hobj HL)
    as (s' & -> & HL').
  done.
Qed.

End Preservation.

#[export] Hint Resolve reads_ret reads_throw reads_fault reads_timeout reads_object
  reads_node reads_read reads_get_head reads_get_tail reads_get_size reads_get_value
  reads_get_prev reads_get_next reads_IsEmpty reads_Size reads_PeekHead reads_GetFront
  reads_PeekTail reads_GetBack reads_const_deref reads_const_pre_incr
  reads_begin_const reads_end_const reads_begin reads_rbegin reads_rend
  reads_pre_incr reads_reverse_pre_incr reads_reverse_post_incr reads_reverse_deref
  reads_advance reads_radvance reads_walk reads_rwalk
  reads_output reads_output_reversed : reads.
#[export] Hint Extern 2 (reads (bind _ _)) => apply reads_bind; [|intros ?] : reads.
#[export] Hint Extern 2 (reads (if _ then _ else _)) => apply reads_if : reads.

(** ** The move operations *)

Section Moves.

Context {elemType : Type} `{!node_layout}.
Abbreviation state := (state elemType simple_allocator_t).
Abbreviation M := (M elemType simple_allocator_t).
Abbreviation reads := (reads (elemType:=elemType)).
Abbreviation preserves := (preserves (elemType:=elemType)).
Abbreviation conserves := (conserves (elemType:=elemType)).
Abbreviation take_over := (take_over (elemType:=elemType)).

Lemma deque_t_move_eq this deque :
  deque_t_move (elemType:=elemType) (memoryAllocator:=simple_allocator_t) this deque =
  (new_object this nullptr nullptr 0 ;; take_over this deque).
Proof. reflexivity. Qed.

Lemma assign_move_eq fuel this deque :
  assign_move (elemType:=elemType) (memoryAllocator:=simple_allocator_t) fuel this deque =
  (Clear fuel this ;; take_over this deque).
Proof. reflexivity. Qed.

Lemma take_over_run (s : state) this deque d dd :
  objs s !! this = Some d → objs s !! deque = Some dd → this ≠ deque →
  take_over this deque s =
  Ok tt (mk_state
           (<[deque := mk_deque nullptr nullptr 0 (allocator dd)]>
              (<[this := mk_deque (head dd) (tail dd) (size dd) (allocator d)]> (objs s)))
           (mem s) (trace s)).
Proof.
  intros Hthis Hdeque Hne. assert (deque ≠ this) as Hne' by done.
  unfold take_over. unfold_methods. reduce.
  repeat (rewrite ?lookup_insert_eq, ?insert_insert_eq, ?Hthis, ?Hdeque,
            ?(lookup_insert_ne _ this deque) by done; reduce).
  done.
Qed.

Lemma take_over_self_run (s : state) this d :
  objs s !! this = Some d →
  take_over this this s =
  Ok tt (mk_state (<[this := mk_deque nullptr nullptr 0 (allocator d)]> (objs s))
           (mem s) (trace s)).
Proof.
  intros Hthis. unfold take_over. unfold_methods. reduce.
  repeat (rewrite ?lookup_insert_eq, ?insert_insert_eq, ?Hthis; reduce).
  done.
Qed.

Lemma take_over_no_object (s : state) this deque :
  objs s !! this = None ∨ objs s !! deque = None → take_over this deque s = Fault.
Proof.
  intros Hno. unfold take_over. unfold_methods. reduce.
  destruct (objs s !! deque) as [dd|] eqn:Hdeque; [|done]. reduce.
  destruct Hno as [Hno|Hno]; [|done]. by rewrite Hno.
Qed.

(** The splice of the move merge, both deques non-empty. *)
Lemma AddOtherDeque_move_splice (s : state) this deque d dd :
  objs s !! this = Some d → objs s !! deque = Some dd → this ≠ deque →
  tail d ≠ nullptr → head dd ≠ nullptr →
  is_Some (cells (mem s) !! tail d) → is_Some (cells (mem s) !! head dd) →
  tail d ≠ head dd →
  AddOtherDeque_move this deque s =
  Ok tt (mk_state
           (<[deque := mk_deque nullptr nullptr 0 (allocator dd)]>
              (<[this := mk_deque (head d) (tail dd) (uint (size d + size dd))
                           (allocator d)]> (objs s)))
           (mk_memory
              (link_prev (head dd) (tail d) (link_next (tail d) (head dd) (cells (mem s))))
              (avail (mem s)))
           (trace s)).
Proof.
  intros Hthis Hdeque Hne Ht Hh [nt Hnt] [nh Hnh] Hth.
  assert (deque ≠ this) as Hne' by done.
  unfold AddOtherDeque_move. unfold_methods. reduce.
  repeat (rewrite ?lookup_insert_eq, ?insert_insert_eq, ?Hthis, ?Hdeque,
            ?(eqb_nullptr_false _ Ht), ?(eqb_nullptr_false _ Hh), ?Hnt,
            ?(lookup_insert_ne _ (tail d) (head dd)), ?Hnh,
            ?(lookup_insert_ne _ this deque) by done; reduce).
  unfold link_prev, link_next.
  rewrite (eqb_nullptr_false _ Ht), (eqb_nullptr_false _ Hh), Hnt.
  rewrite (lookup_insert_ne _ (tail d) (head dd)) by done. rewrite Hnh.
  done.
Qed.

Lemma AddOtherDeque_move_self (s : state) this d :
  objs s !! this = Some d →
  tail d ≠ nullptr → head d ≠ nullptr →
  is_Some (cells (mem s) !! tail d) → is_Some (cells (mem s) !! head d) →
  AddOtherDeque_move this this s =
  Ok tt (mk_state
           (<[this := mk_deque nullptr nullptr 0 (allocator d)]> (objs s))
           (mk_memory
              (link_prev (head d) (tail d) (link_next (tail d) (head d) (cells (mem s))))
              (avail (mem s)))
           (trace s)).
Proof.
  intros Hthis Ht Hh [nt Hnt] [nh Hnh].
  unfold AddOtherDeque_move. unfold_methods. reduce.
  unfold link_prev, link_next.
  rewrite (eqb_nullptr_false _ Ht), (eqb_nullptr_false _ Hh), Hnt.
  destruct (decide (tail d = head d)) as [Heq|Hth].
  - rewrite Heq in *.
    repeat (rewrite ?lookup_insert_eq, ?insert_insert_eq, ?Hthis,
              ?(eqb_nullptr_false _ Hh), ?Heq, ?Hnh; reduce).
    congruence.
  - repeat (rewrite ?lookup_insert_eq, ?insert_insert_eq, ?Hthis,
              ?(eqb_nullptr_false _ Ht), ?(eqb_nullptr_false _ Hh), ?Hnt,
              ?(lookup_insert_ne _ (tail d) (head d)), ?Hnh by done; reduce).
    done.
Qed.

Lemma AddOtherDeque_move_empty_this (s : state) this deque d :
  objs s !! this = Some d → tail d = nullptr →
  AddOtherDeque_move this deque s = take_over this deque s.
Proof.
  intros Hthis Ht. unfold AddOtherDeque_move, take_over.
  unfold get_tail at 1. unfold bind at 1 2. unfold object. rewrite Hthis.
  cbn [ret]. rewrite Ht. done.
Qed.

Lemma AddOtherDeque_move_empty_other (s : state) this deque d dd :
  objs s !! this = Some d → objs s !! deque = Some dd →
  tail d ≠ nullptr → head dd = nullptr →
  AddOtherDeque_move this deque s = Ok tt s.
Proof.
  intros Hthis Hdeque Ht Hh. unfold AddOtherDeque_move. unfold_methods. reduce.
  rewrite Hthis. reduce. rewrite (eqb_nullptr_false _ Ht). reduce.
  rewrite Hdeque. reduce. by rewrite Hh.
Qed.

Lemma AddOtherDeque_move_no_object (s : state) this deque :
  objs s !! this = None ∨ objs s !! deque = None →
  AddOtherDeque_move this deque s = Fault.
Proof.
  intros Hno. unfold AddOtherDeque_move. unfold_methods. reduce.
  destruct (objs s !! this) as [d|] eqn:Hthis; [|done]. reduce.
  destruct Hno as [Hno|Hno]; [done|].
  destruct (tail d =? nullptr)%N; rewrite Hno; done.
Qed.



Lemma inv_ext L L' (s : state) : (∀ r, L' r = L r) → inv L s → inv L' s.
Proof.
  intros Heq [Hreps Hdisj]. split.
  - intros r d Hr. rewrite Heq. by apply Hreps.
  - intros r1 r2 p. rewrite !Heq. apply Hdisj.
Qed.

Lemma repr_fields (c : gmap N (node_t elemType)) d d' l :
  head d' = head d → tail d' = tail d → size d' = size d →
  repr c d l → repr c d' l.
Proof. intros Hh Ht Hs (? & ? & ? & ? & ?). split_and!; congruence. Qed.

(** A chain passes from [deque] to [this]. *)
Lemma inv_transfer L (s : state) c' av tr this deque d dd dthis' ddeque' lnew :
  inv L s → objs s !! this = Some d → objs s !! deque = Some dd → this ≠ deque →
  repr c' dthis' lnew →
  (∀ q, q ∈ lnew.*1 → q ∈ (L this).*1 ∨ q ∈ (L deque).*1) →
  (∀ q, q ∉ (L this).*1 → q ∉ (L deque).*1 → c' !! q = cells (mem s) !! q) →
  head ddeque' = nullptr → tail ddeque' = nullptr → size ddeque' = 0 →
  inv (<[deque := []]> (<[this := lnew]> L))
    (mk_state (<[deque := ddeque']> (<[this := dthis']> (objs s))) (mk_memory c' av) tr).
Proof.
  intros Hinv Hthis Hdeque Hne Hrep Hsub Hframe Hh Ht Hsz.
  pose proof Hinv as [Hreps Hdisj].
  assert (Hdom : ∀ r, is_Some (<[deque := ddeque']> (<[this := dthis']> (objs s)) !! r) →
                      is_Some (objs s !! r)).
  { intros r Hr. eapply insert_is_Some_dom in Hr.
    - by eapply insert_is_Some_dom in Hr.
    - by rewrite lookup_insert_ne. }
  split; cbn [objs mem cells].
  - intros r x. destruct (decide (deque = r)) as [<-|Hnd].
    { rewrite lookup_insert_eq, fn_lookup_insert. intros [= <-].
      split_and!; [done|constructor|done..]. }
    rewrite lookup_insert_ne, fn_lookup_insert_ne by done.
    destruct (decide (this = r)) as [<-|Hnt].
    { rewrite lookup_insert_eq, fn_lookup_insert. by intros [= <-]. }
    rewrite lookup_insert_ne, fn_lookup_insert_ne by done. intros Hr.
    eapply repr_frame; [|by apply Hreps]. intros q Hq. apply Hframe.
    + intros Hq'. eapply (Hdisj r this); eauto.
    + intros Hq'. eapply (Hdisj r deque); eauto.
  - intros r1 r2 p Hr12 [x1 H1]%Hdom [x2 H2]%Hdom.
    destruct (decide (deque = r1)) as [<-|Hnd1].
    { rewrite fn_lookup_insert. by intros []%elem_of_nil. }
    destruct (decide (deque = r2)) as [<-|Hnd2].
    { rewrite (fn_lookup_insert _ deque). intros _ []%elem_of_nil. }
    rewrite !(fn_lookup_insert_ne _ deque) by done.
    destruct (decide (this = r1)) as [<-|Hnt1].
    { rewrite fn_lookup_insert, fn_lookup_insert_ne by done.
      intros [Hp|Hp]%Hsub; [eapply (Hdisj this r2)|eapply (Hdisj deque r2)]; eauto. }
    rewrite (fn_lookup_insert_ne _ this r1) by done.
    destruct (decide (this = r2)) as [<-|Hnt2].
    { rewrite fn_lookup_insert. intros Hp [Hp'|Hp']%Hsub.
      - eapply (Hdisj r1 this); eauto.
      - eapply (Hdisj r1 deque); eauto. }
    rewrite fn_lookup_insert_ne by done. eapply Hdisj; eauto.
Qed.

Lemma inv_emptied L (s : state) c' av tr this d d' :
  inv L s → objs s !! this = Some d →
  head d' = nullptr → tail d' = nullptr → size d' = 0 →
  (∀ q, q ∉ (L this).*1 → c' !! q = cells (mem s) !! q) →
  inv (<[this := []]> L) (mk_state (<[this := d']> (objs s)) (mk_memory c' av) tr).
Proof.
  intros Hinv Hthis Hh Ht Hsz Hframe.
  eapply inv_update; [exact Hinv|exact Hthis|done| | |]; cbn [mem cells].
  - split_and!; [done|constructor|done..].
  - intros q Hq _. by apply Hframe.
  - by intros q []%elem_of_nil.
Qed.

Lemma preserves_take_over this deque :
  preserves false (λ r, r = this ∨ r = deque) (take_over this deque).
Proof.
  intros L s [Hinv _].
  destruct (objs s !! this) as [d|] eqn:Hthis;
    [|by rewrite take_over_no_object by auto].
  destruct (objs s !! deque) as [dd|] eqn:Hdeque;
    [|by rewrite take_over_no_object by auto].
  destruct (decide (this = deque)) as [<-|Hne].
  - rewrite (take_over_self_run s this d Hthis).
    exists (<[this := []]> L). split; [split; [|done]|].
    + destruct s as [o [c av] tr]. by eapply inv_emptied.
    + intros r Hr. rewrite fn_lookup_insert_ne by (intros <-; auto).
      cbn [objs]. rewrite lookup_insert_ne by (intros <-; auto). done.
  - rewrite (take_over_run s this deque d dd Hthis Hdeque Hne).
    exists (<[deque := []]> (<[this := L deque]> L)). split; [split; [|done]|].
    + destruct s as [o [c av] tr]. eapply inv_transfer; try done.
      * destruct Hinv as [Hreps _]. eapply repr_fields; [..|by apply (Hreps deque)]; done.
      * auto.
    + intros r Hr. rewrite !fn_lookup_insert_ne by (intros <-; auto).
      cbn [objs]. rewrite !lookup_insert_ne by (intros <-; auto). done.
Qed.

Lemma inv_splice L (s : state) this deque d dd a1 a2 :
  inv L s → objs s !! this = Some d → objs s !! deque = Some dd → this ≠ deque →
  L this ≠ [] → L deque ≠ [] →
  inv (<[deque := []]> (<[this := L this ++ L deque]> L))
    (mk_state
       (<[deque := mk_deque nullptr nullptr 0 a2]>
          (<[this := mk_deque (head d) (tail dd) (uint (size d + size dd)) a1]> (objs s)))
       (mk_memory
          (link_prev (head dd) (tail d) (link_next (tail d) (head dd) (cells (mem s))))
          (avail (mem s)))
       (trace s)).
Proof.
  intros Hinv Hthis Hdeque Hne Hla Hlb. pose proof Hinv as [Hreps Hdisj].
  destruct (Hreps this d Hthis) as (Hca & Hnda & Hha & Hta & Hsa).
  destruct (Hreps deque dd Hdeque) as (Hcb & Hndb & Hhb & Htb & Hsb).
  assert (Hab : ∀ q, q ∈ (L this).*1 → q ∉ (L deque).*1).
  { intros q. eapply (Hdisj this deque); eauto. }
  assert (Hta_in : tail d ∈ (L this).*1) by (rewrite Hta; by apply last_ptr_in).
  assert (Hhb_in : head dd ∈ (L deque).*1) by (rewrite Hhb; by apply first_ptr_in).
  eapply inv_transfer; try done.
  - split_and!; cbn [head tail size].
    + apply chain_app. split.
      * eapply chain_frame.
        { intros q Hq. apply link_prev_lookup_ne. intros ->. by eapply Hab. }
        rewrite <- Hhb, Hta.
        by eapply (chain_link_next _ _ _ nullptr).
      * rewrite <- Hta, Hhb.
        eapply (chain_link_prev _ nullptr); [|done].
        eapply chain_frame; [|exact Hcb].
        intros q Hq. apply link_next_lookup_ne. intros ->. by eapply Hab.
    + rewrite fmap_app. apply list.NoDup_app. split_and!; done.
    + rewrite first_ptr_app, Hha. by apply first_ptr_dflt.
    + rewrite last_ptr_app, Htb. by apply last_ptr_dflt.
    + rewrite Hsa, Hsb, uint_plus, length_app. f_equal. lia.
  - intros q. rewrite fmap_app. by intros ?%elem_of_app.
  - intros q Hqa Hqb. rewrite link_prev_lookup_ne, link_next_lookup_ne; [done|..];
      by intros ->.
Qed.

Lemma preserves_AddOtherDeque_move this deque :
  preserves false (λ r, r = this ∨ r = deque)
    (AddOtherDeque_move this deque).
Proof.
  intros L s [Hinv Hown].
  destruct (objs s !! this) as [d|] eqn:Hthis;
    [|by rewrite AddOtherDeque_move_no_object by auto].
  destruct (objs s !! deque) as [dd|] eqn:Hdeque;
    [|by rewrite AddOtherDeque_move_no_object by auto].
  pose proof Hinv as [Hreps _].
  pose proof (Hreps this d Hthis) as Hra. pose proof (Hreps deque dd Hdeque) as Hrb.
  destruct (decide (tail d = nullptr)) as [Ht|Ht].
  { rewrite (AddOtherDeque_move_empty_this s this deque d Hthis Ht).
    by apply preserves_take_over. }
  assert (L this ≠ []) as Hla by (by rewrite <- (repr_tail_nil _ _ _ Hra)).
  assert (Hta_in : tail d ∈ (L this).*1).
  { destruct Hra as (_ & _ & _ & -> & _). by apply last_ptr_in. }
  assert (Hha_in : head d ∈ (L this).*1).
  { destruct Hra as (_ & _ & -> & _). by apply first_ptr_in. }
  destruct (decide (this = deque)) as [<-|Hne].
  - assert (dd = d) as -> by congruence.
    destruct (inv_live L s this d _ Hinv Hthis Hta_in) as [_ Htl].
    destruct (inv_live L s this d _ Hinv Hthis Hha_in) as [Hh Hhl].
    rewrite (AddOtherDeque_move_self s this d Hthis Ht Hh Htl Hhl).
    exists (<[this := []]> L). split; [split; [|done]|].
    + eapply inv_emptied; try done. intros q Hq.
      rewrite link_prev_lookup_ne, link_next_lookup_ne; [done|..]; by intros ->.
    + intros r Hr. rewrite fn_lookup_insert_ne by (intros <-; auto).
      cbn [objs]. rewrite lookup_insert_ne by (intros <-; auto). done.
  - destruct (decide (head dd = nullptr)) as [Hh|Hh].
    { rewrite (AddOtherDeque_move_empty_other s this deque d dd Hthis Hdeque Ht Hh).
      by exists L. }
    assert (L deque ≠ []) as Hlb by (by rewrite <- (repr_head_nil _ _ _ Hrb)).
    assert (Hhb_in : head dd ∈ (L deque).*1).
    { destruct Hrb as (_ & _ & -> & _). by apply first_ptr_in. }
    destruct (inv_live L s this d _ Hinv Hthis Hta_in) as [_ Htl].
    destruct (inv_live L s deque dd _ Hinv Hdeque Hhb_in) as [_ Hhl].
    assert (tail d ≠ head dd) as Hth.
    { intros Heq. destruct Hinv as [_ Hdisj].
      apply (Hdisj this deque (tail d)); [done|eauto|eauto|done|by rewrite Heq]. }
    rewrite (AddOtherDeque_move_splice s this deque d dd Hthis Hdeque Hne Ht Hh Htl Hhl Hth).
    exists (<[deque := []]> (<[this := L this ++ L deque]> L)). split; [split; [|done]|].
    + by apply inv_splice.
    + intros r Hr. rewrite !fn_lookup_insert_ne by (intros <-; auto).
      cbn [objs]. rewrite !lookup_insert_ne by (intros <-; auto). done.
Qed.

End Moves.

(** ** Loops and whole programs *)

Section Loops.

Context {elemType : Type} `{!node_layout}.
Abbreviation state := (state elemType simple_allocator_t).
Abbreviation M := (M elemType simple_allocator_t).
Abbreviation reads := (reads (elemType:=elemType)).
Abbreviation preserves := (preserves (elemType:=elemType)).
Abbreviation conserves := (conserves (elemType:=elemType)).
Abbreviation take_over := (take_over (elemType:=elemType)).

Lemma preserves_push_back_list strict this (l : list elemType) :
  preserves strict (eq this) (push_back_list this l).
Proof.
  induction l as [|x l IH]; simpl.
  - apply preserves_reads, reads_ret.
  - apply preserves_bind; [apply preserves_PushBack|by intros _].
Qed.

Lemma preserves_push_back_range strict fuel this it last :
  preserves strict (eq this) (push_back_range fuel this it last).
Proof.
  revert it. induction fuel as [|fuel IH]; intros it; simpl.
  - destruct (const_iterator.neq it last);
      [apply preserves_timeout|apply preserves_reads, reads_ret].
  - destruct (const_iterator.neq it last); [|apply preserves_reads, reads_ret].
    apply preserves_bind; [apply preserves_reads, reads_const_deref|intros d].
    apply preserves_bind; [apply preserves_PushBack|intros _].
    apply preserves_bind; [apply preserves_reads, reads_const_pre_incr|intros it'].
    apply IH.
Qed.

Lemma preserves_push_back_all strict fuel this deque :
  preserves strict (eq this) (push_back_all fuel this deque).
Proof.
  unfold push_back_all.
  apply preserves_bind; [apply preserves_reads, reads_begin_const|intros b].
  apply preserves_bind; [apply preserves_reads, reads_end_const|intros e].
  apply preserves_push_back_range.
Qed.

Lemma preserves_Clear strict fuel this :
  preserves strict (eq this) (Clear fuel this).
Proof.
  induction fuel as [|fuel IH]; simpl.
  - apply preserves_bind; [apply preserves_reads, reads_get_head|intros h].
    destruct (negb (h =? nullptr)%N);
      [apply preserves_timeout|apply preserves_reads, reads_ret].
  - apply preserves_bind; [apply preserves_reads, reads_get_head|intros h].
    destruct (negb (h =? nullptr)%N); [|apply preserves_reads, reads_ret].
    apply preserves_bind; [apply preserves_PopBack|by intros _].
Qed.

Lemma preserves_forget strict R {A} (m : M A) :
  reads m → preserves strict R (forget m).
Proof.
  intros Hm. apply preserves_reads. unfold forget.
  apply reads_bind; [done|intros a; apply reads_ret].
Qed.

Lemma preserves_this strict this deque {A} (m : M A) :
  preserves strict (eq this) m → preserves strict (λ r, r = this ∨ r = deque) m.
Proof. apply preserves_weaken. intros r <-. by left. Qed.

Lemma preserves_in strict (R : N → Prop) (l : list N) {A} (m : M A) :
  (∀ r, R r → r ∈ l) → preserves strict R m → preserves strict (.∈ l) m.
Proof. apply preserves_weaken. Qed.

(** Every use of the interface keeps the invariant and leaves alone the
    deques it does not name; without a move it also keeps every node with
    the allocator instance that allocated it. *)
Lemma exec_preserves strict fuel (o : op elemType) :
  (strict = true → is_move o = false) →
  preserves strict (.∈ op_refs o) (exec fuel o).
Proof.
  intros Hmove.
  assert (H1 : ∀ this r : N, this = r → r ∈ [this]) by (intros ?? <-; left).
  assert (H2 : ∀ this deque r : N, this = r → r ∈ [this; deque]) by (intros ??? <-; left).
  assert (H3 : ∀ this deque r : N, r = this ∨ r = deque → r ∈ [this; deque]).
  { intros ??? [->| ->]; [left|right; left]. }
  destruct o; simpl;
    try (apply preserves_forget; auto with reads; fail).
  - eapply preserves_in; [apply H1|]. apply preserves_new_object.
  - eapply preserves_in; [apply H1|]. unfold deque_t_list.
    apply preserves_bind; [apply preserves_new_object|intros _].
    apply preserves_push_back_list.
  - eapply preserves_in; [apply H2|]. unfold deque_t_copy.
    apply preserves_bind; [apply preserves_new_object|intros _].
    apply preserves_push_back_all.
  - assert (strict = false) as -> by (destruct strict; [by specialize (Hmove eq_refl)|done]).
    eapply preserves_in; [apply H3|]. rewrite deque_t_move_eq.
    apply preserves_bind; [apply preserves_this, preserves_new_object|intros _].
    apply preserves_take_over.
  - eapply preserves_in; [apply H2|]. unfold assign_copy.
    apply preserves_bind; [apply preserves_Clear|intros _].
    apply preserves_push_back_all.
  - assert (strict = false) as -> by (destruct strict; [by specialize (Hmove eq_refl)|done]).
    eapply preserves_in; [apply H3|]. rewrite assign_move_eq.
    apply preserves_bind; [apply preserves_this, preserves_Clear|intros _].
    apply preserves_take_over.
  - eapply preserves_in; [apply H1|]. apply preserves_GetFront_assign.
  - eapply preserves_in; [apply H1|]. apply preserves_GetBack_assign.
  - eapply preserves_in; [apply H1|]. apply preserves_PushFront.
  - eapply preserves_in; [apply H1|]. rewrite PushFront_move_eq. apply preserves_PushFront.
  - eapply preserves_in; [apply H1|]. apply preserves_PushBack.
  - eapply preserves_in; [apply H1|]. rewrite PushBack_move_eq. apply preserves_PushBack.
  - eapply preserves_in; [apply H1|]. apply preserves_PopFront.
  - eapply preserves_in; [apply H1|]. apply preserves_PopBack.
  - eapply preserves_in; [apply H2|]. apply preserves_push_back_all.
  - assert (strict = false) as -> by (destruct strict; [by specialize (Hmove eq_refl)|done]).
    eapply preserves_in; [apply H3|]. apply preserves_AddOtherDeque_move.
  - eapply preserves_in; [apply H1|]. apply preserves_Clear.
  - eapply preserves_in; [apply H1|]. unfold destructor.
    apply preserves_bind; [apply preserves_Clear|intros _].
    apply preserves_delete_object.
  - eapply preserves_in; [apply H1|]. apply preserves_write_at.
  - eapply preserves_in; [apply H1|]. apply preserves_write_at_reversed.
Qed.

Lemma run_preserves strict fuel (prog : list (op elemType)) L (s s' : state) :
  (strict = true → move_free prog = true) →
  Inv strict L s → run fuel prog s = Some s' →
  ∃ L', Inv strict L' s' ∧
        ∀ r, r ∉ prog_refs prog → L' r = L r ∧ objs s' !! r = objs s !! r.
Proof.
  revert L s. induction prog as [|o prog IH]; intros L s Hmf HI; simpl.
  - intros [= <-]. by exists L.
  - assert (strict = true → is_move o = false) as Hmo.
    { intros Hs. specialize (Hmf Hs). simpl in Hmf.
      apply andb_true_iff in Hmf as [Ho _]. by apply negb_true_iff. }
    assert (strict = true → move_free prog = true) as Hmp.
    { intros Hs. specialize (Hmf Hs). simpl in Hmf.
      by apply andb_true_iff in Hmf as [_ Hp]. }
    pose proof (exec_preserves strict fuel o Hmo L s HI) as Ho.
    unfold prog_refs. simpl. fold (prog_refs prog).
    destruct (exec fuel o s) as [a s1|w s1| |]; try done;
      destruct Ho as (L1 & HI1 & Hf1); intros Hrun;
      destruct (IH L1 s1 Hmp HI1 Hrun) as (L2 & HI2 & Hf2);
      exists L2; (split; [done|]); intros r Hr;
      rewrite elem_of_app in Hr;
      (destruct (Hf1 r) as [E1 E2]; [tauto|]);
      (destruct (Hf2 r) as [E3 E4]; [tauto|]);
      split; congruence.
Qed.

Lemma Inv_initial strict capacity :
  Inv (elemType:=elemType) strict (λ _, []) (initial capacity).
Proof.
  split; [split|].
  - intros r d. unfold initial. cbn [objs]. by rewrite lookup_empty.
  - intros r1 r2 p _ _ _ []%elem_of_nil.
  - intros _. exists ∅. split; [done|]. by intros r p _ []%elem_of_nil.
Qed.

(** Every state a caller can reach satisfies the invariant. *)
Lemma reachable_inv fuel capacity (prog : list (op elemType)) (s : state) :
  run fuel prog (initial capacity) = Some s → ∃ L, inv L s.
Proof.
  intros Hrun.
  destruct (run_preserves false fuel prog _ _ _ ltac:(done) (Inv_initial false capacity) Hrun)
    as (L & [HL _] & _).
  by exists L.
Qed.

End Loops.

(** ** The number of node blocks is conserved *)

Create HintDb conserves discriminated.

Section Capacity.

Context {elemType : Type} `{!node_layout}.
Abbreviation state := (state elemType simple_allocator_t).
Abbreviation M := (M elemType simple_allocator_t).
Abbreviation reads := (reads (elemType:=elemType)).
Abbreviation preserves := (preserves (elemType:=elemType)).
Abbreviation conserves := (conserves (elemType:=elemType)).
Abbreviation take_over := (take_over (elemType:=elemType)).

Lemma conserves_reads {A} (m : M A) : reads m → conserves m.
Proof.
  intros Hm s. specialize (Hm s). destruct (m s); try done; by subst.
Qed.

Lemma conserves_bind {A B} (m : M A) (k : A → M B) :
  conserves m → (∀ a, conserves (k a)) → conserves (bind m k).
Proof.
  intros Hm Hk s. unfold bind. specialize (Hm s).
  destruct (m s) as [a s1|w s1| |]; try done.
  specialize (Hk a s1). destruct (k a s1); try done; congruence.
Qed.

Lemma conserves_if {A} (b : bool) (m1 m2 : M A) :
  conserves m1 → conserves m2 → conserves (if b then m1 else m2).
Proof. by destruct b. Qed.

Lemma conserves_update this f : conserves (update this f).
Proof. intros s. unfold update. by destruct (objs s !! this). Qed.

Lemma conserves_log e : conserves (log e).
Proof. by intros s. Qed.

Lemma conserves_store p f : conserves (store p f).
Proof.
  intros s. unfold store, cell. destruct (p =? nullptr)%N; [done|].
  destruct (cells (mem s) !! p) as [n|] eqn:Hc; [|done].
  unfold blocks. cbn [mem cells avail]. by rewrite map_size_insert_Some.
Qed.

Lemma conserves_new_object this h t sz : conserves (new_object this h t sz).
Proof. intros s. unfold new_object. by destruct (objs s !! this). Qed.

Lemma conserves_delete_object this : conserves (delete_object this).
Proof. intros s. unfold delete_object. by destruct (objs s !! this). Qed.

Lemma conserves_call_alloc this : conserves (call_alloc this).
Proof.
  intros s. unfold call_alloc, bind, object, lift_mem, log, ret.
  destruct (objs s !! this) as [d|]; [|done]. cbn [alloc simple_allocator].
  unfold malloc. destruct (N.eqb_spec (avail (mem s)) 0) as [Hav|Hav]; [done|].
  unfold blocks. cbn [mem cells avail].
  rewrite map_size_insert_None by apply fresh_ptr_free.
  rewrite Nat2N.inj_succ. lia.
Qed.

Lemma conserves_call_dealloc this p : conserves (call_dealloc this p).
Proof.
  intros s. unfold call_dealloc, bind, object, lift_mem, log.
  destruct (objs s !! this) as [d|]; [|done]. cbn [dealloc simple_allocator].
  unfold free. destruct (p =? nullptr)%N; [done|].
  destruct (cells (mem s) !! p) as [n|] eqn:Hc; [|done].
  unfold blocks. cbn [mem cells avail].
  rewrite map_size_delete_Some by done.
  assert (base.size (cells (mem s)) ≠ 0%nat) as Hne.
  { intros H0%map_size_empty_iff. by rewrite H0, lookup_empty in Hc. }
  revert Hne. generalize (avail (mem s)) (base.size (cells (mem s))). intros a k Hk. lia.
Qed.

End Capacity.

#[export] Hint Resolve conserves_update conserves_log conserves_store
  conserves_new_object conserves_delete_object conserves_call_alloc
  conserves_call_dealloc : conserves.
#[export] Hint Extern 2 (conserves (bind _ _)) => apply conserves_bind; [|intros ?] : conserves.
#[export] Hint Extern 2 (conserves (if _ then _ else _)) => apply conserves_if : conserves.
#[export] Hint Extern 5 (conserves _) => apply conserves_reads; solve [auto 30 with reads] : conserves.

Section Capacity2.

Context {elemType : Type} `{!node_layout}.
Abbreviation state := (state elemType simple_allocator_t).
Abbreviation M := (M elemType simple_allocator_t).
Abbreviation reads := (reads (elemType:=elemType)).
Abbreviation preserves := (preserves (elemType:=elemType)).
Abbreviation conserves := (conserves (elemType:=elemType)).
Abbreviation take_over := (take_over (elemType:=elemType)).

Ltac conserves_tac :=
  unfold set_head, set_tail, set_size, set_value, set_prev, set_next;
  solve [auto 40 with conserves].

Lemma conserves_PushBack this (v : elemType) : conserves (PushBack this v).
Proof. unfold PushBack. conserves_tac. Qed.
Lemma conserves_PushFront this (v : elemType) : conserves (PushFront this v).
Proof. unfold PushFront. conserves_tac. Qed.
Lemma conserves_PopBack this : conserves (PopBack this).
Proof. unfold PopBack. conserves_tac. Qed.
Lemma conserves_PopFront this : conserves (PopFront this).
Proof. unfold PopFront. conserves_tac. Qed.
Lemma conserves_GetFront_assign this (v : elemType) : conserves (GetFront_assign this v).
Proof. unfold GetFront_assign. conserves_tac. Qed.
Lemma conserves_GetBack_assign this (v : elemType) : conserves (GetBack_assign this v).
Proof. unfold GetBack_assign. conserves_tac. Qed.
Lemma conserves_write_at this k (v : elemType) : conserves (write_at this k v).
Proof. unfold write_at, iterator.assign. conserves_tac. Qed.
Lemma conserves_write_at_reversed this k (v : elemType) :
  conserves (write_at_reversed this k v).
Proof. unfold write_at_reversed, reverse_iterator.assign. conserves_tac. Qed.
Lemma conserves_take_over this deque : conserves (take_over this deque).
Proof. unfold take_over. conserves_tac. Qed.
Lemma conserves_AddOtherDeque_move this deque :
  conserves (AddOtherDeque_move this deque).
Proof. unfold AddOtherDeque_move. conserves_tac. Qed.

Lemma conserves_timeout {A} : conserves (timeout (A:=A) (elemType:=elemType)).
Proof. by intros s. Qed.

Lemma conserves_push_back_list this (l : list elemType) :
  conserves (push_back_list this l).
Proof.
  induction l as [|x l IH]; simpl; [by apply conserves_reads, reads_ret|].
  apply conserves_bind; [apply conserves_PushBack|by intros _].
Qed.

Lemma conserves_push_back_range fuel this it last :
  conserves (push_back_range fuel this it last).
Proof.
  revert it. induction fuel as [|fuel IH]; intros it; simpl;
    (destruct (const_iterator.neq it last); [|by apply conserves_reads, reads_ret]).
  - apply conserves_timeout.
  - apply conserves_bind; [apply conserves_reads, reads_const_deref|intros d].
    apply conserves_bind; [apply conserves_PushBack|intros _].
    apply conserves_bind; [apply conserves_reads, reads_const_pre_incr|intros it'].
    apply IH.
Qed.

Lemma conserves_push_back_all fuel this deque :
  conserves (push_back_all fuel this deque).
Proof.
  unfold push_back_all.
  apply conserves_bind; [apply conserves_reads, reads_begin_const|intros b].
  apply conserves_bind; [apply conserves_reads, reads_end_const|intros e].
  apply conserves_push_back_range.
Qed.

Lemma conserves_Clear fuel this : conserves (Clear fuel this).
Proof.
  induction fuel as [|fuel IH]; simpl;
    (apply conserves_bind; [apply conserves_reads, reads_get_head|intros h]);
    (destruct (negb (h =? nullptr)%N); [|by apply conserves_reads, reads_ret]).
  - apply conserves_timeout.
  - apply conserves_bind; [apply conserves_PopBack|by intros _].
Qed.

Lemma conserves_exec fuel (o : op elemType) : conserves (exec fuel o).
Proof.
  destruct o; simpl;
    try (apply conserves_reads; unfold forget; auto 30 with reads; fail).
  - apply conserves_new_object.
  - apply conserves_bind; [apply conserves_new_object|intros _].
    apply conserves_push_back_list.
  - apply conserves_bind; [apply conserves_new_object|intros _].
    apply conserves_push_back_all.
  - rewrite deque_t_move_eq.
    apply conserves_bind; [apply conserves_new_object|intros _]. apply conserves_take_over.
  - apply conserves_bind; [apply conserves_Clear|intros _]. apply conserves_push_back_all.
  - rewrite assign_move_eq.
    apply conserves_bind; [apply conserves_Clear|intros _]. apply conserves_take_over.
  - apply conserves_GetFront_assign.
  - apply conserves_GetBack_assign.
  - apply conserves_PushFront.
  - rewrite PushFront_move_eq. apply conserves_PushFront.
  - apply conserves_PushBack.
  - rewrite PushBack_move_eq. apply conserves_PushBack.
  - apply conserves_PopFront.
  - apply conserves_PopBack.
  - apply conserves_push_back_all.
  - apply conserves_AddOtherDeque_move.
  - apply conserves_Clear.
  - apply conserves_bind; [apply conserves_Clear|intros _]. apply conserves_delete_object.
  - apply conserves_write_at.
  - apply conserves_write_at_reversed.
Qed.

Lemma run_blocks fuel (prog : list (op elemType)) (s s' : state) :
  run fuel prog s = Some s' → blocks s' = blocks s.
Proof.
  revert s. induction prog as [|o prog IH]; intros s; simpl; [by intros [= <-]|].
  pose proof (conserves_exec fuel o s) as Ho.
  destruct (exec fuel o s) as [a s1|w s1| |]; try done;
    intros Hrun; rewrite (IH _ Hrun); done.
Qed.

(** A chain is no longer than the heap has live blocks. *)
Lemma chain_length_le L (s : state) r d :
  inv L s → objs s !! r = Some d →
  (length (L r) ≤ base.size (cells (mem s)))%nat.
Proof.
  intros Hinv Hr. destruct Hinv as [Hreps _].
  destruct (Hreps r d Hr) as (Hc & Hnd & _).
  rewrite <- (length_fmap fst (L r)).
  transitivity (length (elements (dom (cells (mem s))))).
  - apply submseteq_length, NoDup_submseteq; [done|].
    intros p Hp. apply elem_of_elements, elem_of_dom.
    by destruct (chain_live _ _ _ _ _ Hc Hp).
  - by rewrite <- (size_dom (cells (mem s))).
Qed.

End Capacity2.

(** ** Walking a chain *)

Section Walks.

Context {elemType : Type} `{!node_layout}.
Abbreviation state := (state elemType simple_allocator_t).
Abbreviation M := (M elemType simple_allocator_t).
Abbreviation node_t := (node_t elemType).

Lemma follow_next_chain (c : gmap N node_t) pv l nx i q :
  chain c pv l nx → l.*1 !! i = Some q →
  follow_next i c (first_ptr l nx) = Some q.
Proof.
  revert pv i. induction l as [|[p v] l IH]; intros pv i Hc; [done|].
  destruct Hc as (Hp & Hcell & Hl). destruct i as [|i]; simpl.
  - by intros [= <-].
  - intros Hq. rewrite Hcell. simpl. by eapply IH.
Qed.

Lemma follow_prev_chain (c : gmap N node_t) pv l nx i q :
  chain c pv l nx → reverse l.*1 !! i = Some q →
  follow_prev i c (last_ptr l pv) = Some q.
Proof.
  revert i nx. induction l as [|[p v] l IH] using rev_ind; intros i nx Hc; [done|].
  apply chain_app in Hc as (Hl & Hp & Hcell & _). simpl in Hl, Hcell.
  rewrite fmap_app. change ([(p, v)].*1) with [p].
  rewrite reverse_snoc, last_ptr_app. simpl.
  destruct i as [|i]; simpl.
  - by intros [= <-].
  - intros Hq. rewrite Hcell. simpl. by eapply IH.
Qed.

Lemma first_ptr_lookup (l : list (ptr * elemType)) dflt :
  l ≠ [] → l.*1 !! 0%nat = Some (first_ptr l dflt).
Proof. by destruct l as [|[p v] l]. Qed.

Lemma last_ptr_lookup (l : list (ptr * elemType)) dflt :
  l ≠ [] → l.*1 !! (length l - 1)%nat = Some (last_ptr l dflt).
Proof.
  destruct (snoc_cases l) as [->|(l0 & [p v] & ->)]; [done|]. intros _.
  rewrite fmap_app, last_ptr_app, length_app. simpl.
  rewrite lookup_app_r by (rewrite length_fmap; lia).
  rewrite length_fmap. by replace (length l0 + 1 - 1 - length l0)%nat with 0%nat by lia.
Qed.

(** A deque that owns a chain of fewer than [2^32] nodes satisfies the
    structural invariant. *)
Lemma repr_structural (c : gmap N node_t) d l :
  repr c d l → Z.of_nat (length l) < UINT_MOD → structural_invariant c d.
Proof.
  intros Hrep Hlen. pose proof (repr_head_nil _ _ _ Hrep) as Hh.
  pose proof (repr_tail_nil _ _ _ Hrep) as Ht.
  destruct Hrep as (Hc & Hnd & Hhd & Htl & Hsz).
  assert (size d = Z.of_nat (length l)) as Hsize.
  { rewrite Hsz. unfold uint. apply Z.mod_small. lia. }
  split_and!.
  - by rewrite Hh, Ht.
  - rewrite Ht, Hsize. destruct l; simpl; [done|]. split; [done|lia].
  - intros Hne. assert (l ≠ []) as Hl by (by rewrite <- Hh).
    assert (Z.to_nat (size d - 1) = (length l - 1)%nat) as -> by lia.
    pose proof (first_ptr_lookup l nullptr Hl) as Hfirst.
    pose proof (last_ptr_lookup l nullptr Hl) as Hlast.
    rewrite <- Hhd in Hfirst. rewrite <- Htl in Hlast.
    assert (length l.*1 = length l) as Hlen1 by apply length_fmap.
    assert (0 < length l)%nat as Hpos by (destruct l; [done|simpl; lia]).
    split_and!.
    + destruct l as [|[p v] l']; [done|]. destruct Hc as (_ & Hcell & _).
      rewrite Hhd. simpl. eauto.
    + destruct (snoc_cases l) as [->|(l0 & [p v] & ->)]; [done|].
      apply chain_app in Hc as (_ & _ & Hcell & _).
      rewrite Htl, last_ptr_app. simpl. eauto.
    + rewrite Hhd. eapply follow_next_chain; [exact Hc|exact Hlast].
    + rewrite Htl. eapply follow_prev_chain; [exact Hc|].
      rewrite reverse_lookup by (rewrite Hlen1; lia).
      rewrite Hlen1. by replace (length l - S (length l - 1))%nat with 0%nat by lia.
    + intros k Hk. split.
      * destruct (l.*1 !! k) as [q|] eqn:Hq.
        2:{ apply lookup_ge_None in Hq. lia. }
        rewrite Hhd at 1. rewrite (follow_next_chain _ _ _ _ _ _ Hc Hq).
        intros [= ->]. pose proof (NoDup_lookup _ _ _ _ Hnd Hq Hlast). lia.
      * destruct (reverse l.*1 !! k) as [q|] eqn:Hq.
        2:{ apply lookup_ge_None in Hq. rewrite length_reverse in Hq. lia. }
        rewrite Htl at 1. rewrite (follow_prev_chain _ _ _ _ _ _ Hc Hq).
        intros [= ->]. rewrite reverse_lookup in Hq by (rewrite Hlen1; lia).
        pose proof (NoDup_lookup _ _ _ _ Hnd Hq Hfirst). lia.
Qed.

(** A deque that owns a chain of [2^32] nodes or more does not. *)
Lemma repr_not_structural (c : gmap N node_t) d l :
  repr c d l → UINT_MOD ≤ Z.of_nat (length l) → ¬ structural_invariant c d.
Proof.
  intros Hrep Hlen (_ & Hts & Hne).
  pose proof (repr_head_nil _ _ _ Hrep) as Hh.
  pose proof (repr_tail_nil _ _ _ Hrep) as Ht.
  destruct Hrep as (Hc & Hnd & Hhd & Htl & Hsz).
  assert (l ≠ []) as Hl by (intros ->; simpl in Hlen; unfold UINT_MOD in Hlen; lia).
  pose proof (uint_range (Z.of_nat (length l))) as Hrange. rewrite <- Hsz in Hrange.
  assert (size d ≠ 0) as Hsize by (rewrite <- Hts, Ht; done).
  destruct Hne as (_ & _ & Hnext & _); [by rewrite Hh|].
  destruct (l.*1 !! Z.to_nat (size d - 1)) as [q|] eqn:Hq.
  2:{ apply lookup_ge_None in Hq. rewrite length_fmap in Hq. lia. }
  rewrite Hhd in Hnext at 1. rewrite (follow_next_chain _ _ _ _ _ _ Hc Hq) in Hnext.
  injection Hnext as ->.
  pose proof (last_ptr_lookup l nullptr Hl) as Hlast. rewrite <- Htl in Hlast.
  pose proof (NoDup_lookup _ _ _ _ Hnd Hq Hlast). lia.
Qed.

(** The forward walk of a chain reads its values in order. *)
Lemma walk_chain (s : state) pv l fuel :
  chain (cells (mem s)) pv l nullptr → (length l ≤ fuel)%nat →
  walk fuel (const_iterator.mk (first_ptr l nullptr)) (const_iterator.mk nullptr) s =
  Ok l.*2 s.
Proof.
  revert pv fuel. induction l as [|[p v] l IH]; intros pv fuel Hc Hlen.
  - by destruct fuel.
  - destruct fuel as [|fuel]; [simpl in Hlen; lia|].
    destruct Hc as (Hp & Hcell & Hl). cbn [walk first_ptr].
    unfold const_iterator.neq, const_iterator.deref, const_iterator.pre_incr.
    cbn [const_iterator.curNode]. rewrite (eqb_nullptr_false p Hp). cbn [negb].
    unfold_methods. reduce.
    repeat (rewrite ?(eqb_nullptr_false p Hp), ?Hcell; reduce).
    rewrite (IH p fuel Hl) by (simpl in Hlen; lia). done.
Qed.

Lemma contents_inv L (s : state) r d :
  inv L s → objs s !! r = Some d → contents s r = Some (L r).*2.
Proof.
  intros Hinv Hr. pose proof (chain_length_le L s r d Hinv Hr) as Hlen.
  destruct Hinv as [Hreps _]. destruct (Hreps r d Hr) as (Hc & _ & Hhd & _).
  unfold contents, output, begin_const, end_const, get_head, object, bind, ret.
  rewrite Hr, Hhd. by rewrite (walk_chain s nullptr (L r) _ Hc Hlen).
Qed.

(** The backward walk reads them in reverse order. *)
Lemma rwalk_chain (s : state) (l : list (ptr * elemType)) nx fuel :
  chain (cells (mem s)) nullptr l nx → (length l ≤ fuel)%nat →
  rwalk fuel (reverse_iterator.mk (last_ptr l nullptr)) (reverse_iterator.mk nullptr) s =
  Ok (reverse l.*2) s.
Proof.
  revert nx fuel. induction l as [|[p v] l IH] using rev_ind; intros nx fuel Hc Hlen.
  - by destruct fuel.
  - rewrite length_app in Hlen. simpl in Hlen.
    destruct fuel as [|fuel]; [lia|].
    apply chain_app in Hc as (Hl & Hp & Hcell & _). simpl in Hcell.
    rewrite last_ptr_app, fmap_app, reverse_app. cbn [rwalk last_ptr].
    unfold reverse_iterator.neq, reverse_iterator.deref, reverse_iterator.post_incr.
    cbn [reverse_iterator.curNode]. rewrite (eqb_nullptr_false p Hp). cbn [negb].
    unfold_methods. reduce.
    repeat (rewrite ?(eqb_nullptr_false p Hp), ?Hcell; reduce).
    rewrite (IH p fuel Hl) by lia. done.
Qed.

Lemma contents_reversed_inv L (s : state) r d :
  inv L s → objs s !! r = Some d → contents_reversed s r = Some (reverse (L r).*2).
Proof.
  intros Hinv Hr. pose proof (chain_length_le L s r d Hinv Hr) as Hlen.
  destruct Hinv as [Hreps _]. destruct (Hreps r d Hr) as (Hc & _ & _ & Htl & _).
  unfold contents_reversed, output_reversed, rbegin, rend, get_tail, object, bind, ret.
  rewrite Hr, Htl. by rewrite (rwalk_chain s (L r) _ _ Hc Hlen).
Qed.

End Walks.

(** ** The loops, functionally *)

Section LoopSpecs.

Context {elemType : Type} `{!node_layout}.
Abbreviation state := (state elemType simple_allocator_t).
Abbreviation M := (M elemType simple_allocator_t).
Abbreviation node_t := (node_t elemType).

Lemma chain_lookup_mid (c : gmap N node_t) pv l1 q v l2 nx :
  chain c pv (l1 ++ (q, v) :: l2) nx →
  q ≠ nullptr ∧
  c !! q = Some (mk_node (Init v) (Init (last_ptr l1 pv)) (Init (first_ptr l2 nx))).
Proof. by intros (_ & Hq & Hcell & _)%chain_app. Qed.

Lemma const_deref_run (s : state) q v pv nx :
  q ≠ nullptr → cells (mem s) !! q = Some (mk_node (Init v) pv nx) →
  const_iterator.deref (const_iterator.mk q) s = Ok v s.
Proof.
  intros Hq Hc. unfold const_iterator.deref. cbn [const_iterator.curNode].
  unfold_methods. by rewrite (eqb_nullptr_false q Hq), Hc.
Qed.

Lemma const_pre_incr_run (s : state) q v pv nx :
  q ≠ nullptr → cells (mem s) !! q = Some (mk_node v pv (Init nx)) →
  const_iterator.pre_incr (const_iterator.mk q) s = Ok (const_iterator.mk nx) s.
Proof.
  intros Hq Hc. unfold const_iterator.pre_incr. cbn [const_iterator.curNode].
  unfold_methods. by rewrite (eqb_nullptr_false q Hq), Hc.
Qed.

(** Copying the rest [todo] of the chain of [deque] to the back of
    another deque [this]. *)
Lemma push_back_range_spec this deque (todo : list (ptr * elemType)) :
  ∀ done L (s : state) fuel,
  inv L s → is_Some (objs s !! this) → is_Some (objs s !! deque) → this ≠ deque →
  L deque = done ++ todo →
  (length todo ≤ fuel)%nat → (N.of_nat (length todo) ≤ avail (mem s))%N →
  ∃ s' L' added,
    push_back_range fuel this (const_iterator.mk (first_ptr todo nullptr))
      (const_iterator.mk nullptr) s = Ok tt s' ∧
    inv L' s' ∧ L' this = L this ++ added ∧ added.*2 = todo.*2 ∧
    (∀ r, r ≠ this → L' r = L r ∧ objs s' !! r = objs s !! r) ∧
    is_Some (objs s' !! this) ∧
    avail (mem s') = (avail (mem s) - N.of_nat (length todo))%N ∧
    trace s' = trace s ++ (EvAlloc this <$> added.*1).
Proof.
  induction todo as [|[q v] todo IH]; intros done L s fuel Hinv [d Hthis] Hdeque Hne HL Hfuel Hav.
  - exists s, L, []. split_and!; try done.
    + by destruct fuel.
    + by rewrite app_nil_r.
    + simpl. lia.
    + by rewrite app_nil_r.
  - destruct fuel as [|fuel]; [simpl in Hfuel; lia|].
    destruct Hdeque as [dd Hdeque]. pose proof Hinv as [Hreps _].
    destruct (Hreps deque dd Hdeque) as (Hc & _). rewrite HL in Hc.
    apply chain_lookup_mid in Hc as [Hq Hcell].
    assert (avail (mem s) ≠ 0%N) as Hav0 by (simpl in Hav; lia).
    destruct (PushBack_inv L s this d v Hinv Hthis Hav0)
      as (p & s1 & Hp & Hpush & Hinv1 & Hobjs1 & Htr1 & Hav1 & Hfree).
    assert (Hdeque1 : objs s1 !! deque = Some dd).
    { by rewrite Hobjs1, lookup_insert_ne. }
    assert (HL1 : (<[this := L this ++ [(p, v)]]> L) deque = (done ++ [(q, v)]) ++ todo).
    { rewrite fn_lookup_insert_ne by done. by rewrite HL, <- app_assoc. }
    pose proof Hinv1 as [Hreps1 _].
    destruct (Hreps1 deque dd Hdeque1) as (Hc1 & _). rewrite HL1, <- app_assoc in Hc1.
    apply chain_lookup_mid in Hc1 as [_ Hcell1].
    edestruct (IH (done ++ [(q, v)]) _ s1 fuel Hinv1) as
      (s' & L' & added & Hrun & Hinv' & HL' & Hvals & Hframe & Hsome & Hav' & Htr');
      [by rewrite Hobjs1, lookup_insert_eq|by eauto|done|exact HL1|simpl in Hfuel; lia| |].
    { rewrite Hav1. simpl length in Hav. lia. }
    exists s', L', ((p, v) :: added). split_and!.
    + cbn [push_back_range first_ptr]. unfold const_iterator.neq.
      cbn [const_iterator.curNode]. rewrite (eqb_nullptr_false q Hq). cbn [negb].
      unfold bind at 1. rewrite (const_deref_run s q v _ _ Hq Hcell).
      unfold bind at 1. rewrite Hpush.
      unfold bind at 1. rewrite (const_pre_incr_run s1 q _ _ _ Hq Hcell1).
      exact Hrun.
    + done.
    + rewrite HL', fn_lookup_insert, <- app_assoc. done.
    + by rewrite !fmap_cons, Hvals.
    + intros r Hr. destruct (Hframe r Hr) as [-> ->].
      by rewrite fn_lookup_insert_ne, Hobjs1, lookup_insert_ne.
    + done.
    + rewrite Hav', Hav1. simpl length. lia.
    + rewrite Htr', Htr1, <- app_assoc. done.
Qed.


Lemma push_back_all_spec fuel this deque L (s : state) :
  inv L s → is_Some (objs s !! this) → is_Some (objs s !! deque) → this ≠ deque →
  (length (L deque) ≤ fuel)%nat → (N.of_nat (length (L deque)) ≤ avail (mem s))%N →
  ∃ s' L' added,
    push_back_all fuel this deque s = Ok tt s' ∧
    inv L' s' ∧ L' this = L this ++ added ∧ added.*2 = (L deque).*2 ∧
    (∀ r, r ≠ this → L' r = L r ∧ objs s' !! r = objs s !! r) ∧
    is_Some (objs s' !! this) ∧
    avail (mem s') = (avail (mem s) - N.of_nat (length (L deque)))%N ∧
    trace s' = trace s ++ (EvAlloc this <$> added.*1).
Proof.
  intros Hinv Hthis [dd Hdeque] Hne Hfuel Hav.
  destruct (push_back_range_spec this deque (L deque) [] L s fuel Hinv Hthis
              (mk_is_Some _ _ Hdeque) Hne eq_refl Hfuel Hav)
    as (s' & L' & added & Hrun & Hrest).
  exists s', L', added. split; [|done].
  unfold push_back_all, begin_const, end_const, get_head, object, bind, ret.
  rewrite Hdeque. destruct Hinv as [Hreps _].
  destruct (Hreps deque dd Hdeque) as (_ & _ & -> & _). exact Hrun.
Qed.

Lemma Clear_empty fuel this (s : state) d :
  objs s !! this = Some d → head d = nullptr → Clear fuel this s = Ok tt s.
Proof.
  intros Hthis Hh. destruct fuel; simpl;
    unfold get_head, object, bind, ret; by rewrite Hthis, Hh.
Qed.

Lemma Clear_step fuel this (s : state) d :
  objs s !! this = Some d → head d ≠ nullptr →
  Clear (S fuel) this s = (PopBack this ;; Clear fuel this) s.
Proof.
  intros Hthis Hh. cbn [Clear]. unfold get_head, object, bind at 1 2, ret.
  by rewrite Hthis, (eqb_nullptr_false _ Hh).
Qed.

(** [Clear] releases the chain from the back. *)
Lemma Clear_spec this (l : list (ptr * elemType)) :
  ∀ L (s : state) d fuel,
  inv L s → objs s !! this = Some d → L this = l → (length l ≤ fuel)%nat →
  ∃ s', Clear fuel this s = Ok tt s' ∧
    inv (<[this := []]> L) s' ∧
    objs s' !! this = Some (mk_deque nullptr nullptr 0 (allocator d)) ∧
    (∀ r, r ≠ this → objs s' !! r = objs s !! r) ∧
    trace s' = trace s ++ (EvDealloc this <$> reverse l.*1) ∧
    avail (mem s') = (avail (mem s) + N.of_nat (length l))%N.
Proof.
  induction l as [|[pt vt] l IH] using rev_ind; intros L s d fuel Hinv Hthis HL Hfuel.
  - pose proof Hinv as [Hreps _]. pose proof (Hreps this d Hthis) as Hrep.
    rewrite HL in Hrep. destruct Hrep as (_ & _ & Hh & Ht & Hsz). simpl in Hh, Ht, Hsz.
    exists s. split_and!.
    + by apply (Clear_empty fuel this s d).
    + eapply inv_ext; [|exact Hinv]. intros r.
      destruct (decide (this = r)) as [<-|Hr].
      * by rewrite fn_lookup_insert, HL.
      * by rewrite fn_lookup_insert_ne.
    + rewrite Hthis. f_equal. destruct d as [h t sz a]. simpl in *. by subst.
    + done.
    + by rewrite app_nil_r.
    + simpl. lia.
  - destruct fuel as [|fuel]; [rewrite length_app in Hfuel; simpl in Hfuel; lia|].
    pose proof Hinv as [Hreps _]. pose proof (Hreps this d Hthis) as Hrep.
    assert (head d ≠ nullptr) as Hh.
    { rewrite (repr_head_nil _ _ _ Hrep), HL. by destruct l. }
    destruct (PopBack_inv L s this d l pt vt Hinv Hthis HL)
      as (s1 & Hpop & Hinv1 & Hobjs1 & Htr1 & Hav1 & _).
    edestruct (IH _ s1 (mk_deque (first_ptr l nullptr) (last_ptr l nullptr)
                          (uint (size d - 1)) (allocator d)) fuel Hinv1)
      as (s' & Hrun & Hinv' & Hthis' & Hframe & Htr' & Hav');
      [by rewrite Hobjs1, lookup_insert_eq|by rewrite fn_lookup_insert| |].
    { rewrite length_app in Hfuel. simpl in Hfuel. lia. }
    exists s'. split_and!.
    + rewrite (Clear_step fuel this s d Hthis Hh). unfold bind. by rewrite Hpop.
    + eapply inv_ext; [|exact Hinv']. intros r.
      destruct (decide (this = r)) as [<-|Hr].
      * by rewrite !fn_lookup_insert.
      * by rewrite !fn_lookup_insert_ne.
    + done.
    + intros r Hr. by rewrite Hframe, Hobjs1, lookup_insert_ne.
    + rewrite Htr', Htr1, fmap_app. change ([(pt, vt)].*1) with [pt].
      rewrite reverse_snoc, fmap_cons, <- app_assoc. done.
    + rewrite Hav', Hav1, length_app. simpl. lia.
Qed.

Lemma walk_nodes_chain (s : state) pv l fuel :
  chain (cells (mem s)) pv l nullptr → (length l ≤ fuel)%nat →
  walk_nodes fuel (const_iterator.mk (first_ptr l nullptr)) (const_iterator.mk nullptr) s =
  Ok l.*1 s.
Proof.
  revert pv fuel. induction l as [|[p v] l IH]; intros pv fuel Hc Hlen.
  - by destruct fuel.
  - destruct fuel as [|fuel]; [simpl in Hlen; lia|].
    destruct Hc as (Hp & Hcell & Hl). cbn [walk_nodes first_ptr].
    unfold const_iterator.neq.
    cbn [const_iterator.curNode]. rewrite (eqb_nullptr_false p Hp). cbn [negb].
    unfold bind at 1. rewrite (const_pre_incr_run s p _ _ _ Hp Hcell).
    unfold bind. rewrite (IH p fuel Hl) by (simpl in Hlen; lia). done.
Qed.

Lemma nodes_inv L (s : state) r d :
  inv L s → objs s !! r = Some d → nodes s r = Some (L r).*1.
Proof.
  intros Hinv Hr. pose proof (chain_length_le L s r d Hinv Hr) as Hlen.
  destruct Hinv as [Hreps _]. destruct (Hreps r d Hr) as (Hc & _ & Hhd & _).
  unfold nodes, begin_const, end_const, get_head, object, bind, ret.
  rewrite Hr, Hhd. by rewrite (walk_nodes_chain s nullptr (L r) _ Hc Hlen).
Qed.

End LoopSpecs.

(** ** The insertions throw nothing of their own *)

Create HintDb nothrow discriminated.

Section NoThrow.

Context {elemType : Type} `{!node_layout}.
Abbreviation state := (state elemType simple_allocator_t).
Abbreviation M := (M elemType simple_allocator_t).
Abbreviation nothrow := (nothrow (elemType:=elemType)).

Lemma nothrow_ret {A} (a : A) : nothrow (ret a).
Proof. by intros s. Qed.

Lemma nothrow_fault {A} : nothrow (fault (A:=A)).
Proof. by intros s. Qed.

Lemma nothrow_bind {A B} (m : M A) (k : A → M B) :
  nothrow m → (∀ a, nothrow (k a)) → nothrow (bind m k).
Proof.
  intros Hm Hk s. unfold bind. specialize (Hm s).
  destruct (m s) as [a s1|w s1| |]; try done. apply Hk.
Qed.

Lemma nothrow_if {A} (b : bool) (m1 m2 : M A) :
  nothrow m1 → nothrow m2 → nothrow (if b then m1 else m2).
Proof. by destruct b. Qed.

Lemma nothrow_object this : nothrow (object this).
Proof. intros s. unfold object. by destruct (objs s !! this). Qed.

Lemma nothrow_update this f : nothrow (update this f).
Proof. intros s. unfold update. by destruct (objs s !! this). Qed.

Lemma nothrow_node p : nothrow (node p).
Proof. intros s. unfold node. by destruct (cell p (mem s)). Qed.

Lemma nothrow_read {A} (x : slot A) : nothrow (read x).
Proof. destruct x; [apply nothrow_fault|apply nothrow_ret]. Qed.

Lemma nothrow_store p f : nothrow (store p f).
Proof. intros s. unfold store. by destruct (cell p (mem s)). Qed.

Lemma nothrow_log e : nothrow (log e).
Proof. by intros s. Qed.

Lemma nothrow_alloc (a : simple_allocator_t) sz :
  nothrow (lift_mem (alloc a sz)).
Proof.
  intros s. unfold lift_mem. cbn [alloc simple_allocator].
  by destruct (malloc sz (mem s)).
Qed.

#[local] Hint Resolve nothrow_ret nothrow_fault nothrow_object nothrow_update
  nothrow_node nothrow_read nothrow_store nothrow_log nothrow_alloc : nothrow.
#[local] Hint Extern 2 (nothrow (bind _ _)) => apply nothrow_bind; [|intros ?] : nothrow.
#[local] Hint Extern 2 (nothrow (if _ then _ else _)) => apply nothrow_if : nothrow.

Ltac nothrow_tac :=
  unfold call_alloc, get_head, get_tail, get_size, set_head, set_tail, set_size,
    set_value, set_prev, set_next;
  solve [auto 40 with nothrow].

Lemma nothrow_PushFront this (v : elemType) : nothrow (PushFront this v).
Proof. unfold PushFront. nothrow_tac. Qed.

Lemma nothrow_PushBack this (v : elemType) : nothrow (PushBack this v).
Proof. unfold PushBack. nothrow_tac. Qed.

Lemma nothrow_PushFront_move this (v : elemType) : nothrow (PushFront_move this v).
Proof. rewrite PushFront_move_eq. apply nothrow_PushFront. Qed.

Lemma nothrow_PushBack_move this (v : elemType) : nothrow (PushBack_move this v).
Proof. rewrite PushBack_move_eq. apply nothrow_PushBack. Qed.

End NoThrow.

(** * The properties of the specification *)

(** ** Iterators *)

Section IteratorClaims.

Context {elemType memoryAllocator : Type}.
Abbreviation state := (state elemType memoryAllocator).

(** C8. In each of the three iterator families, dereferencing and
    advancing (prefix and postfix) an iterator whose current node is
    absent throws [InvalidIterator] and leaves the state as it is; on an
    iterator whose current node is a live node they return normally (the
    value, and the iterator moved to [next], or to [prev] for the reverse
    iterator); and no iterator with a non-null current node ever throws. *)
Theorem iterator_end_throws_present_succeeds (s : state) (p : ptr) :
  (p = nullptr →
     iterator.deref (iterator.mk p) s = Throw InvalidIterator s ∧
     iterator.pre_incr (iterator.mk p) s = Throw InvalidIterator s ∧
     iterator.post_incr (iterator.mk p) s = Throw InvalidIterator s ∧
     const_iterator.deref (const_iterator.mk p) s = Throw InvalidIterator s ∧
     const_iterator.pre_incr (const_iterator.mk p) s = Throw InvalidIterator s ∧
     const_iterator.post_incr (const_iterator.mk p) s = Throw InvalidIterator s ∧
     reverse_iterator.deref (reverse_iterator.mk p) s = Throw InvalidIterator s ∧
     reverse_iterator.pre_incr (reverse_iterator.mk p) s = Throw InvalidIterator s ∧
     reverse_iterator.post_incr (reverse_iterator.mk p) s = Throw InvalidIterator s) ∧
  (p ≠ nullptr →
     (∀ v pv nx,
        cells (mem s) !! p = Some (mk_node (Init v) (Init pv) (Init nx)) →
        iterator.deref (iterator.mk p) s = Ok v s ∧
        iterator.pre_incr (iterator.mk p) s = Ok (iterator.mk nx) s ∧
        iterator.post_incr (iterator.mk p) s = Ok (iterator.mk p, iterator.mk nx) s ∧
        const_iterator.deref (const_iterator.mk p) s = Ok v s ∧
        const_iterator.pre_incr (const_iterator.mk p) s = Ok (const_iterator.mk nx) s ∧
        const_iterator.post_incr (const_iterator.mk p) s =
          Ok (const_iterator.mk p, const_iterator.mk nx) s ∧
        reverse_iterator.deref (reverse_iterator.mk p) s = Ok v s ∧
        reverse_iterator.pre_incr (reverse_iterator.mk p) s = Ok (reverse_iterator.mk pv) s ∧
        reverse_iterator.post_incr (reverse_iterator.mk p) s =
          Ok (reverse_iterator.mk p, reverse_iterator.mk pv) s) ∧
     (∀ w s',
        iterator.deref (iterator.mk p) s ≠ Throw w s' ∧
        iterator.pre_incr (iterator.mk p) s ≠ Throw w s' ∧
        iterator.post_incr (iterator.mk p) s ≠ Throw w s' ∧
        const_iterator.deref (const_iterator.mk p) s ≠ Throw w s' ∧
        const_iterator.pre_incr (const_iterator.mk p) s ≠ Throw w s' ∧
        const_iterator.post_incr (const_iterator.mk p) s ≠ Throw w s' ∧
        reverse_iterator.deref (reverse_iterator.mk p) s ≠ Throw w s' ∧
        reverse_iterator.pre_incr (reverse_iterator.mk p) s ≠ Throw w s' ∧
        reverse_iterator.post_incr (reverse_iterator.mk p) s ≠ Throw w s')).
Proof.
  split.
  - intros ->. by split_and!.
  - intros Hp. split.
    + intros v pv nx Hc.
      unfold iterator.deref, iterator.pre_incr, iterator.post_incr,
        const_iterator.deref, const_iterator.pre_incr, const_iterator.post_incr,
        reverse_iterator.deref, reverse_iterator.pre_incr, reverse_iterator.post_incr.
      cbn [iterator.curNode const_iterator.curNode reverse_iterator.curNode].
      unfold_methods. rewrite !(eqb_nullptr_false p Hp), Hc. by split_and!.
    + intros w s'.
      unfold iterator.deref, iterator.pre_incr, iterator.post_incr,
        const_iterator.deref, const_iterator.pre_incr, const_iterator.post_incr,
        reverse_iterator.deref, reverse_iterator.pre_incr, reverse_iterator.post_incr.
      cbn [iterator.curNode const_iterator.curNode reverse_iterator.curNode].
      unfold_methods. rewrite !(eqb_nullptr_false p Hp).
      destruct (cells (mem s) !! p) as [[[|v] [|pv] [|nx]]|]; by split_and!.
Qed.

End IteratorClaims.

(** ** The operations at the two ends *)

Section EndClaims.

Context {elemType : Type} `{!node_layout}.
Abbreviation state := (state elemType simple_allocator_t).
Abbreviation node_t := (node_t elemType).

Lemma peek_run (s : state) this d p v pv nx :
  objs s !! this = Some d → p ≠ nullptr →
  cells (mem s) !! p = Some (mk_node (Init v) pv nx) →
  (head d = p → PeekHead this s = Ok v s ∧ GetFront this s = Ok v s) ∧
  (tail d = p → PeekTail this s = Ok v s ∧ GetBack this s = Ok v s).
Proof.
  intros Hthis Hp Hc. split; intros Heq; unfold_methods; reduce;
    rewrite Hthis; reduce; rewrite Heq, !(eqb_nullptr_false p Hp), Hc; done.
Qed.

Lemma peek_throw (s : state) this d :
  objs s !! this = Some d →
  (head d = nullptr →
     PeekHead this s = Throw EmptyContainer s ∧ GetFront this s = Throw EmptyContainer s) ∧
  (tail d = nullptr →
     PeekTail this s = Throw EmptyContainer s ∧ GetBack this s = Throw EmptyContainer s).
Proof.
  intros Hthis. split; intros Heq; unfold_methods; reduce;
    rewrite Hthis; reduce; rewrite Heq; done.
Qed.

(** C7. On every deque a caller can reach, [PopFront], [PopBack],
    [PeekHead]/[GetFront] and [PeekTail]/[GetBack] throw [EmptyContainer]
    exactly when the deque is empty (its [head] is null, which is what
    [IsEmpty] tests and is the case exactly when it has no element), and
    the state at the throw is the state before the call; on a non-empty
    deque the two removals return normally and the peeks return the first
    and the last value with the state unchanged. *)
Theorem empty_container_iff_empty fuel capacity (prog : list (op elemType))
    (s : state) this d :
  run fuel prog (initial capacity) = Some s →
  objs s !! this = Some d →
  IsEmpty this s = Ok (head d =? nullptr)%N s ∧
  (head d = nullptr ↔ contents s this = Some []) ∧
  (PopFront this s = Throw EmptyContainer s ↔ head d = nullptr) ∧
  (PopBack this s = Throw EmptyContainer s ↔ head d = nullptr) ∧
  (PeekHead this s = Throw EmptyContainer s ↔ head d = nullptr) ∧
  (GetFront this s = Throw EmptyContainer s ↔ head d = nullptr) ∧
  (PeekTail this s = Throw EmptyContainer s ↔ head d = nullptr) ∧
  (GetBack this s = Throw EmptyContainer s ↔ head d = nullptr) ∧
  (head d ≠ nullptr →
     (∃ s', PopFront this s = Ok tt s') ∧
     (∃ s', PopBack this s = Ok tt s') ∧
     (∃ v rest, contents s this = Some (v :: rest) ∧
        PeekHead this s = Ok v s ∧ GetFront this s = Ok v s) ∧
     (∃ v rest, contents s this = Some (rest ++ [v]) ∧
        PeekTail this s = Ok v s ∧ GetBack this s = Ok v s)).
Proof.
  intros Hrun Hthis. destruct (reachable_inv _ _ _ _ Hrun) as [L Hinv].
  pose proof Hinv as [Hreps _]. pose proof (Hreps this d Hthis) as Hrep.
  pose proof (repr_head_nil _ _ _ Hrep) as Hhnil.
  pose proof (repr_tail_nil _ _ _ Hrep) as Htnil.
  pose proof (contents_inv L s this d Hinv Hthis) as Hcont.
  assert (HIs : IsEmpty this s = Ok (head d =? nullptr)%N s).
  { unfold_methods. reduce. by rewrite Hthis. }
  assert (Hempty : head d = nullptr ↔ contents s this = Some []).
  { rewrite Hcont, Hhnil. split; [by intros ->|].
    intros [= E]. by apply fmap_nil_inv in E. }
  destruct (decide (head d = nullptr)) as [Hh|Hh].
  - assert (tail d = nullptr) as Ht by (by rewrite Htnil, <- Hhnil).
    destruct (peek_throw s this d Hthis) as [Hph Hpt].
    destruct (Hph Hh) as [? ?]. destruct (Hpt Ht) as [? ?].
    pose proof (PopFront_throw s this d Hthis Hh).
    pose proof (PopBack_throw s this d Hthis Ht).
    split_and!; done.
  - assert (L this ≠ []) as HL by (by rewrite <- Hhnil).
    assert (∃ p v l, L this = (p, v) :: l) as (p & v & l & HLf).
    { destruct (L this) as [|[??] ?]; [done|eauto]. }
    destruct (snoc_cases (L this)) as [HLe|(l0 & [pt vt] & HLb)]; [congruence|].
    destruct (PopFront_inv L s this d l p v Hinv Hthis HLf) as (s1 & Hpf & _ & _ & _ & _ & Hhd).
    destruct (PopBack_inv L s this d l0 pt vt Hinv Hthis HLb) as (s2 & Hpb & _ & _ & _ & _ & Htl).
    destruct Hrep as (Hc & _). pose proof Hc as Hc'. rewrite HLf in Hc'. rewrite HLb in Hc.
    destruct Hc' as (Hp & Hcellp & _).
    apply chain_app in Hc as (_ & Hpt & Hcellt & _).
    destruct (peek_run s this d p v _ _ Hthis Hp Hcellp) as [Hph _].
    destruct (peek_run s this d pt vt _ _ Hthis Hpt Hcellt) as [_ Hpt'].
    destruct (Hph Hhd) as [Hph1 Hph2]. destruct (Hpt' Htl) as [Hpt1 Hpt2].
    split_and!; try done; try (split; [congruence|done]).
    intros _. split_and!; eauto.
    + exists v, l.*2. by rewrite Hcont, HLf.
    + exists vt, l0.*2. by rewrite Hcont, HLb, fmap_app.
Qed.

(** C10. On every deque a caller can reach, when the allocation
    succeeds, [PushBack] followed by [PopBack], and [PushFront] followed
    by [PopFront] (copy and move overloads alike), return normally and
    give back the deque objects and the heap of before: the same [head],
    [tail] and [size], the same chain, the same element sequence. *)
Theorem push_then_pop_same_end fuel capacity (prog : list (op elemType))
    (s : state) this d v :
  run fuel prog (initial capacity) = Some s →
  objs s !! this = Some d →
  avail (mem s) ≠ 0%N →
  (∃ s1 s2, PushBack this v s = Ok tt s1 ∧ PushBack_move this v s = Ok tt s1 ∧
            PopBack this s1 = Ok tt s2 ∧
            objs s2 = objs s ∧ mem s2 = mem s ∧ contents s2 this = contents s this) ∧
  (∃ s1 s2, PushFront this v s = Ok tt s1 ∧ PushFront_move this v s = Ok tt s1 ∧
            PopFront this s1 = Ok tt s2 ∧
            objs s2 = objs s ∧ mem s2 = mem s ∧ contents s2 this = contents s this).
Proof.
  intros Hrun Hthis Hav. destruct (reachable_inv _ _ _ _ Hrun) as [L Hinv].
  pose proof Hinv as [Hreps _]. pose proof (Hreps this d Hthis) as Hrep.
  pose proof (repr_head_nil _ _ _ Hrep) as Hhnil.
  pose proof (repr_tail_nil _ _ _ Hrep) as Htnil.
  pose proof (fresh_ptr_nonnull (cells (mem s))) as Hp.
  pose proof (fresh_ptr_free (cells (mem s))) as Hpf.
  set (p := fresh_ptr (cells (mem s))) in *.
  assert (Hsz : uint (uint (size d + 1) - 1) = size d).
  { destruct Hrep as (_ & _ & _ & _ & ->). rewrite uint_pred.
    replace (uint (Z.of_nat (length (L this))) + 1 - 1) with
      (uint (Z.of_nat (length (L this)))) by lia.
    unfold uint. apply Z.mod_mod. done. }
  assert (Hcontents : ∀ s2 : state, objs s2 = objs s → mem s2 = mem s →
            contents s2 this = contents s this).
  { intros s2 Ho Hm. rewrite (contents_inv L s this d Hinv Hthis).
    apply (contents_inv L s2 this d); [|by rewrite Ho].
    destruct Hinv as [H1 H2]. split; rewrite ?Ho, ?Hm; done. }
  assert (Havail : (avail (mem s) - 1 + 1)%N = avail (mem s)) by lia.
  destruct Hrep as (Hc & Hnd & Hhd & Htl & _).
  assert (Hpl : p ∉ (L this).*1).
  { intros Hin. destruct (chain_live _ _ _ _ _ Hc Hin) as [_ [? ?]]. congruence. }
  split.
  - (* back *)
    assert (Htp : tail d ≠ p).
    { intros Heq. destruct (decide (tail d = nullptr)) as [E|E]; [congruence|].
      apply Hpl. rewrite <- Heq, Htl. apply last_ptr_in. by rewrite <- Htnil. }
    assert (Htlive : tail d ≠ nullptr →
              ∃ vt pvt, cells (mem s) !! tail d = Some (mk_node (Init vt) (Init pvt) (Init nullptr))).
    { intros Ht. destruct (snoc_cases (L this)) as [HLe|(l0 & [pt vt] & HLb)].
      - by apply Htnil in HLe.
      - rewrite HLb in Hc, Htl. rewrite last_ptr_app in Htl. simpl in Htl.
        apply chain_app in Hc as (_ & _ & Hcell & _). rewrite Htl. eauto. }
    eexists _, _. split; [apply (PushBack_run s this d v Hthis Hav)|].
    { intros Ht. destruct (Htlive Ht) as (? & ? & ->). eauto. }
    split; [apply (PushBack_run s this d v Hthis Hav)|].
    { intros Ht. destruct (Htlive Ht) as (? & ? & ->). eauto. }
    cbv zeta. fold p.
    split.
    { eapply PopBack_run; cbn [objs mem cells tail].
      - apply lookup_insert_eq.
      - exact Hp.
      - rewrite link_next_lookup_other by (intros _ E; by apply Htp).
        apply lookup_insert_eq.
      - exact Htp.
      - intros Ht. destruct (Htlive Ht) as (vt & pvt & Hcell).
        erewrite link_next_lookup; [|done|by rewrite lookup_insert_ne].
        rewrite lookup_insert_eq. eauto. }
    cbn [objs mem cells tail head size allocator avail].
    assert (Hobjs : <[this := mk_deque
                             (if (tail d =? nullptr)%N then nullptr
                              else if (head d =? nullptr)%N then p else head d)
                             (tail d) (uint (uint (size d + 1) - 1)) (allocator d)]>
                      (<[this := mk_deque (if (head d =? nullptr)%N then p else head d) p
                                   (uint (size d + 1)) (allocator d)]> (objs s)) = objs s).
    { rewrite insert_insert_eq. apply insert_id. rewrite Hthis, Hsz. f_equal.
      destruct d as [h t sz a]. cbn [head tail size allocator] in *. f_equal.
      destruct (N.eqb_spec t nullptr) as [Ht|Ht].
      - apply Hhnil. by apply Htnil.
      - rewrite eqb_nullptr_false; [done|]. intros Hh. by apply Ht, Htnil, Hhnil. }
    assert (Hcells : link_next (tail d) nullptr
                       (delete p (link_next (tail d) p
                          (<[p := mk_node (Init v) (Init (tail d)) (Init nullptr)]>
                             (cells (mem s))))) = cells (mem s)).
    { destruct (decide (tail d = nullptr)) as [Ht|Ht].
      - rewrite Ht. rewrite !link_next_nullptr.
        rewrite delete_insert_eq. by apply delete_id.
      - destruct (Htlive Ht) as (vt & pvt & Hcell).
        erewrite (link_next_lookup _ (tail d) p); [|done|by rewrite lookup_insert_ne].
        rewrite delete_insert_ne by done. rewrite delete_insert_eq, delete_id by done.
        erewrite link_next_lookup; [|done|apply lookup_insert_eq].
        rewrite insert_insert_eq. by apply insert_id. }
    rewrite Hobjs, Hcells, Havail. split; [done|]. split; [by destruct s as [? [? ?] ?]|].
    apply Hcontents; cbn [objs mem]; [done|]. by destruct s as [? [? ?] ?].
  - (* front *)
    assert (Hhp : head d ≠ p).
    { intros Heq. destruct (decide (head d = nullptr)) as [E|E]; [congruence|].
      apply Hpl. rewrite <- Heq, Hhd. apply first_ptr_in. by rewrite <- Hhnil. }
    assert (Hhlive : head d ≠ nullptr →
              ∃ vh nxh, cells (mem s) !! head d = Some (mk_node (Init vh) (Init nullptr) (Init nxh))).
    { intros Hh. destruct (L this) as [|[ph vh] l0] eqn:HLf.
      - by rewrite Hhd in Hh.
      - destruct Hc as (_ & Hcell & _). rewrite Hhd. simpl. eauto. }
    eexists _, _. split; [apply (PushFront_run s this d v Hthis Hav)|].
    { intros Hh. destruct (Hhlive Hh) as (? & ? & ->). eauto. }
    split; [apply (PushFront_run s this d v Hthis Hav)|].
    { intros Hh. destruct (Hhlive Hh) as (? & ? & ->). eauto. }
    cbv zeta. fold p.
    split.
    { eapply PopFront_run; cbn [objs mem cells head].
      - apply lookup_insert_eq.
      - exact Hp.
      - rewrite link_prev_lookup_other by (intros _ E; by apply Hhp).
        apply lookup_insert_eq.
      - exact Hhp.
      - intros Hh. destruct (Hhlive Hh) as (vh & nxh & Hcell).
        erewrite link_prev_lookup; [|done|by rewrite lookup_insert_ne].
        rewrite lookup_insert_eq. eauto. }
    cbn [objs mem cells tail head size allocator avail].
    assert (Hobjs : <[this := mk_deque (head d)
                             (if (head d =? nullptr)%N then nullptr
                              else if (tail d =? nullptr)%N then p else tail d)
                             (uint (uint (size d + 1) - 1)) (allocator d)]>
                      (<[this := mk_deque p (if (tail d =? nullptr)%N then p else tail d)
                                   (uint (size d + 1)) (allocator d)]> (objs s)) = objs s).
    { rewrite insert_insert_eq. apply insert_id. rewrite Hthis, Hsz. f_equal.
      destruct d as [h t sz a]. cbn [head tail size allocator] in *. f_equal.
      destruct (N.eqb_spec h nullptr) as [Hh|Hh].
      - apply Htnil. by apply Hhnil.
      - rewrite eqb_nullptr_false; [done|]. intros Ht. by apply Hh, Hhnil, Htnil. }
    assert (Hcells : link_prev (head d) nullptr
                       (delete p (link_prev (head d) p
                          (<[p := mk_node (Init v) (Init nullptr) (Init (head d))]>
                             (cells (mem s))))) = cells (mem s)).
    { destruct (decide (head d = nullptr)) as [Hh|Hh].
      - rewrite Hh. rewrite !link_prev_nullptr.
        rewrite delete_insert_eq. by apply delete_id.
      - destruct (Hhlive Hh) as (vh & nxh & Hcell).
        erewrite (link_prev_lookup _ (head d) p); [|done|by rewrite lookup_insert_ne].
        rewrite delete_insert_ne by done. rewrite delete_insert_eq, delete_id by done.
        erewrite link_prev_lookup; [|done|apply lookup_insert_eq].
        rewrite insert_insert_eq. by apply insert_id. }
    rewrite Hobjs, Hcells, Havail. split; [done|]. split; [by destruct s as [? [? ?] ?]|].
    apply Hcontents; cbn [objs mem]; [done|]. by destruct s as [? [? ?] ?].
Qed.

End EndClaims.

(** ** Merging, copying and moving whole deques *)

Section WholeDequeClaims.

Context {elemType : Type} `{!node_layout}.
Abbreviation state := (state elemType simple_allocator_t).
Abbreviation node_t := (node_t elemType).

Lemma get_next_run (s : state) p v pv nx :
  p ≠ nullptr → cells (mem s) !! p = Some (mk_node v pv (Init nx)) →
  get_next p s = Ok nx s.
Proof. intros Hp Hc. unfold_methods. by rewrite (eqb_nullptr_false p Hp), Hc. Qed.

Lemma get_prev_run (s : state) p v pv nx :
  p ≠ nullptr → cells (mem s) !! p = Some (mk_node v (Init pv) nx) →
  get_prev p s = Ok pv s.
Proof. intros Hp Hc. unfold_methods. by rewrite (eqb_nullptr_false p Hp), Hc. Qed.

Lemma IsEmpty_run (s : state) this d :
  objs s !! this = Some d → IsEmpty this s = Ok (head d =? nullptr)%N s.
Proof. intros Hthis. unfold_methods. reduce. by rewrite Hthis. Qed.

(** What the move merge does to two distinct deques. *)
Lemma AddOtherDeque_move_spec L (s : state) this deque da db :
  inv L s → this ≠ deque → objs s !! this = Some da → objs s !! deque = Some db →
  ∃ s' da',
    AddOtherDeque_move this deque s = Ok tt s' ∧
    inv (<[deque := []]> (<[this := L this ++ L deque]> L)) s' ∧
    objs s' !! this = Some da' ∧
    objs s' !! deque = Some (mk_deque nullptr nullptr 0 (allocator db)) ∧
    head da' = first_ptr (L this ++ L deque) nullptr ∧
    tail da' = last_ptr (L this ++ L deque) nullptr ∧
    size da' = uint (size da + size db) ∧
    (L this = [] → mem s' = mem s) ∧
    trace s' = trace s ∧ avail (mem s') = avail (mem s).
Proof.
  intros Hinv Hne Hthis Hdeque. pose proof Hinv as [Hreps Hdisj].
  pose proof (Hreps this da Hthis) as Hra. pose proof (Hreps deque db Hdeque) as Hrb.
  pose proof Hra as (_ & _ & Hha & Hta & Hsa).
  pose proof Hrb as (_ & _ & Hhb & Htb & Hsb).
  destruct (decide (tail da = nullptr)) as [Ht|Ht].
  { assert (L this = []) as HLa by (by apply (repr_tail_nil _ _ _ Hra)).
    rewrite (AddOtherDeque_move_empty_this s this deque da Hthis Ht).
    rewrite (take_over_run s this deque da db Hthis Hdeque Hne).
    eexists _, _. split; [done|]. cbn [objs mem trace].
    rewrite lookup_insert_eq, lookup_insert_ne, lookup_insert_eq by done.
    split_and!; try done; cbn [head tail size].
    - destruct s as [o [c av] tr]. rewrite HLa. eapply inv_transfer; try done.
      intros q Hq. by right.
    - by rewrite HLa.
    - by rewrite HLa.
    - rewrite Hsa, HLa, Hsb. simpl. by rewrite Z.add_0_l, uint_uint. }
  assert (L this ≠ []) as Hla by (by rewrite <- (repr_tail_nil _ _ _ Hra)).
  destruct (decide (head db = nullptr)) as [Hh|Hh].
  { assert (L deque = []) as HLb by (by apply (repr_head_nil _ _ _ Hrb)).
    rewrite (AddOtherDeque_move_empty_other s this deque da db Hthis Hdeque Ht Hh).
    exists s, da. split; [done|]. rewrite HLb, app_nil_r. split_and!; try done.
    - eapply inv_ext; [|exact Hinv]. intros r.
      destruct (decide (deque = r)) as [<-|Hr1]; [by rewrite fn_lookup_insert|].
      rewrite fn_lookup_insert_ne by done.
      destruct (decide (this = r)) as [<-|Hr2]; [by rewrite fn_lookup_insert|].
      by rewrite fn_lookup_insert_ne.
    - rewrite Hdeque. f_equal. destruct db as [h t sz a]. cbn [head tail size] in *.
      rewrite HLb in Hhb, Htb, Hsb. simpl in Hhb, Htb, Hsb. subst. reflexivity.
    - rewrite Hsb, HLb, Hsa. simpl. by rewrite Z.add_0_r, uint_uint. }
  assert (L deque ≠ []) as Hlb by (by rewrite <- (repr_head_nil _ _ _ Hrb)).
  assert (Hta_in : tail da ∈ (L this).*1) by (rewrite Hta; by apply last_ptr_in).
  assert (Hhb_in : head db ∈ (L deque).*1) by (rewrite Hhb; by apply first_ptr_in).
  destruct (inv_live L s this da _ Hinv Hthis Hta_in) as [_ Htl].
  destruct (inv_live L s deque db _ Hinv Hdeque Hhb_in) as [_ Hhl].
  assert (tail da ≠ head db) as Hth.
  { intros Heq. apply (Hdisj this deque (tail da)); [done|eauto|eauto|done|by rewrite Heq]. }
  rewrite (AddOtherDeque_move_splice s this deque da db Hthis Hdeque Hne Ht Hh Htl Hhl Hth).
  eexists _, _. split; [done|]. cbn [objs mem trace avail].
  rewrite lookup_insert_eq, lookup_insert_ne, lookup_insert_eq by done.
  split_and!; try done; cbn [head tail size].
  - by apply inv_splice.
  - rewrite first_ptr_app, Hha. by apply first_ptr_dflt.
  - rewrite last_ptr_app, Htb. by apply last_ptr_dflt.
Qed.

(** C4, as amended. For two distinct deques a caller can reach, the
    move merge returns normally; the receiver then holds its old elements
    followed by those of the source and the source is empty ([head] and
    [tail] null, [size] 0); the receiver's [size] is the sum of the two old
    sizes modulo [2^32] (their sum, when that is below [2^32]); a receiver that
    was empty takes [head], [tail] and [size] of the source and the heap
    is untouched; otherwise, with a non-empty source, the receiver keeps
    its [head], takes the source's [tail], and the old tail and the
    source's old head point at each other; with a non-empty receiver and
    an empty source nothing changes. Nothing is allocated or released. *)
Theorem move_merge_concatenates fuel capacity (prog : list (op elemType))
    (s : state) this deque da db la lb :
  run fuel prog (initial capacity) = Some s →
  this ≠ deque →
  objs s !! this = Some da → objs s !! deque = Some db →
  contents s this = Some la → contents s deque = Some lb →
  ∃ s' da' db',
    AddOtherDeque_move this deque s = Ok tt s' ∧
    objs s' !! this = Some da' ∧ objs s' !! deque = Some db' ∧
    contents s' this = Some (la ++ lb) ∧ contents s' deque = Some [] ∧
    size da' = uint (size da + size db) ∧
    (size da + size db < UINT_MOD → size da' = size da + size db) ∧
    head db' = nullptr ∧ tail db' = nullptr ∧ size db' = 0 ∧
    IsEmpty deque s' = Ok true s' ∧
    (head da = nullptr →
       head da' = head db ∧ tail da' = tail db ∧ size da' = size db ∧ mem s' = mem s) ∧
    (head da ≠ nullptr → head db ≠ nullptr →
       head da' = head da ∧ tail da' = tail db ∧
       get_next (tail da) s' = Ok (head db) s' ∧
       get_prev (head db) s' = Ok (tail da) s') ∧
    (head da ≠ nullptr → head db = nullptr → s' = s) ∧
    trace s' = trace s ∧ avail (mem s') = avail (mem s).
Proof.
  intros Hrun Hne Hthis Hdeque Hla Hlb.
  destruct (reachable_inv _ _ _ _ Hrun) as [L Hinv].
  rewrite (contents_inv L s this da Hinv Hthis) in Hla.
  rewrite (contents_inv L s deque db Hinv Hdeque) in Hlb.
  injection Hla as <-. injection Hlb as <-.
  destruct (AddOtherDeque_move_spec L s this deque da db Hinv Hne Hthis Hdeque)
    as (s' & da' & Hrun' & Hinv' & Hthis' & Hdeque' & Hh' & Ht' & Hsz' & Hmem & Htr & Hav).
  pose proof Hinv as [Hreps _].
  pose proof (Hreps this da Hthis) as Hra. pose proof (Hreps deque db Hdeque) as Hrb.
  pose proof Hra as (_ & _ & Hha & Hta & Hsa).
  pose proof Hrb as (_ & _ & Hhb & Htb & Hsb).
  exists s', da', (mk_deque nullptr nullptr 0 (allocator db)).
  split_and!; try done.
  - rewrite (contents_inv _ s' this da' Hinv' Hthis').
    rewrite fn_lookup_insert_ne, fn_lookup_insert by done. by rewrite fmap_app.
  - rewrite (contents_inv _ s' deque _ Hinv' Hdeque'). by rewrite fn_lookup_insert.
  - intros Hsum. rewrite Hsz'. apply uint_small.
    pose proof (uint_range (Z.of_nat (length (L this)))).
    pose proof (uint_range (Z.of_nat (length (L deque)))). lia.
  - by rewrite (IsEmpty_run s' deque _ Hdeque').
  - intros Hhnull. assert (L this = []) as HLa by (by apply (repr_head_nil _ _ _ Hra)).
    rewrite Hh', Ht', Hsz', HLa, Hhb, Htb. simpl. split_and!; [done|done| |by apply Hmem].
    rewrite Hsa, HLa, Hsb. simpl. by rewrite Z.add_0_l, uint_uint.
  - intros Hhna Hhnb.
    assert (L this ≠ []) as HLa by (by rewrite <- (repr_head_nil _ _ _ Hra)).
    assert (L deque ≠ []) as HLb by (by rewrite <- (repr_head_nil _ _ _ Hrb)).
    destruct (snoc_cases (L this)) as [?|(la0 & [ta va] & HLa')]; [done|].
    assert (∃ hb vb lb0, L deque = (hb, vb) :: lb0) as (hb & vb & lb0 & HLb').
    { destruct (L deque) as [|[??] ?]; [done|eauto]. }
    destruct Hinv' as [Hreps' _]. destruct (Hreps' this da' Hthis') as (Hc' & _).
    rewrite fn_lookup_insert_ne, fn_lookup_insert in Hc' by done.
    rewrite Hh', Ht', first_ptr_app, last_ptr_app.
    rewrite (first_ptr_dflt _ _ nullptr HLa), (last_ptr_dflt _ _ nullptr HLb).
    rewrite <- Hha, <- Htb. split_and!; [done|done|..].
    + rewrite HLa', HLb', <- app_assoc in Hc'. simpl in Hc'.
      apply chain_lookup_mid in Hc' as [Hta0 Hcell]. simpl in Hcell.
      rewrite Hta, Hhb, HLa', HLb', last_ptr_app. simpl.
      by eapply get_next_run.
    + rewrite HLa', HLb' in Hc'.
      apply chain_lookup_mid in Hc' as [Hhb0 Hcell].
      rewrite Hta, Hhb, HLa', HLb'. simpl.
      by eapply get_prev_run.
  - intros Hhna Hhnb.
    assert (tail da ≠ nullptr) as Htna.
    { rewrite (repr_tail_nil _ _ _ Hra), <- (repr_head_nil _ _ _ Hra). done. }
    rewrite (AddOtherDeque_move_empty_other s this deque da db Hthis Hdeque Htna Hhnb)
      in Hrun'.
    congruence.
Qed.


(** C9. For two distinct deques a caller can reach, with room for the
    copies, the copy merge returns normally; the receiver then holds its
    old elements followed by the values of the source in the source's
    order, and the source object, its nodes and its elements are as
    before. *)
Theorem copy_merge_appends fuel capacity (prog : list (op elemType))
    (s : state) fuel' this deque la lb :
  run fuel prog (initial capacity) = Some s →
  this ≠ deque →
  contents s this = Some la → contents s deque = Some lb →
  (length lb ≤ fuel')%nat →
  (N.of_nat (length lb) ≤ avail (mem s))%N →
  ∃ s',
    AddOtherDeque fuel' this deque s = Ok tt s' ∧
    contents s' this = Some (la ++ lb) ∧
    contents s' deque = Some lb ∧
    objs s' !! deque = objs s !! deque ∧
    nodes s' deque = nodes s deque.
Proof.
  intros Hrun Hne Hla Hlb Hfuel Hav.
  destruct (reachable_inv _ _ _ _ Hrun) as [L Hinv].
  destruct (objs s !! this) as [da|] eqn:Hthis.
  2:{ unfold contents, output, begin_const, get_head, object, bind in Hla. by rewrite Hthis in Hla. }
  destruct (objs s !! deque) as [db|] eqn:Hdeque.
  2:{ unfold contents, output, begin_const, get_head, object, bind in Hlb. by rewrite Hdeque in Hlb. }
  rewrite (contents_inv L s this da Hinv Hthis) in Hla.
  rewrite (contents_inv L s deque db Hinv Hdeque) in Hlb.
  injection Hla as <-. injection Hlb as <-. rewrite length_fmap in Hfuel, Hav.
  destruct (push_back_all_spec fuel' this deque L s Hinv (mk_is_Some _ _ Hthis)
              (mk_is_Some _ _ Hdeque) Hne Hfuel Hav)
    as (s' & L' & added & Hrun' & Hinv' & HL' & Hvals & Hframe & [da' Hthis'] & _).
  destruct (Hframe deque) as [HLd Hobjd]; [done|].
  assert (objs s' !! deque = Some db) as Hdeque' by (by rewrite Hobjd).
  exists s'. split_and!.
  - exact Hrun'.
  - rewrite (contents_inv L' s' this da' Hinv' Hthis'), HL', fmap_app, Hvals. done.
  - by rewrite (contents_inv L' s' deque db Hinv' Hdeque'), HLd.
  - by rewrite Hdeque'.
  - rewrite (nodes_inv L' s' deque db Hinv' Hdeque'), HLd.
    by rewrite (nodes_inv L s deque db Hinv Hdeque).
Qed.

Lemma Inv_false L (s : state) : inv L s → Inv false L s.
Proof. by split. Qed.

(** What a caller does to other deques leaves a deque alone. *)
Lemma run_frame L (s s' : state) fuel (prog : list (op elemType)) r :
  inv L s → run fuel prog s = Some s' → r ∉ prog_refs prog →
  objs s' !! r = objs s !! r ∧ contents s' r = contents s r ∧ nodes s' r = nodes s r.
Proof.
  intros Hinv Hrun Hr.
  destruct (run_preserves false fuel prog L s s' ltac:(done) (Inv_false L s Hinv) Hrun)
    as (L' & [Hinv' _] & Hframe).
  destruct (Hframe r Hr) as [HL Hobj]. split; [done|].
  destruct (objs s !! r) as [d|] eqn:Hd.
  - rewrite (contents_inv L' s' r d Hinv' Hobj), (contents_inv L s r d Hinv Hd), HL.
    rewrite (nodes_inv L' s' r d Hinv' Hobj), (nodes_inv L s r d Hinv Hd), HL. done.
  - unfold contents, output, nodes, begin_const, get_head, object, bind. by rewrite Hobj, Hd.
Qed.

Lemma is_copy_intro L' (s' : state) this deque dd d' :
  inv L' s' → this ≠ deque →
  objs s' !! this = Some d' → objs s' !! deque = Some dd →
  (L' this).*2 = (L' deque).*2 →
  is_copy s' this deque dd (L' deque).*2.
Proof.
  intros Hinv' Hne Hthis' Hdeque' Hvals.
  pose proof (contents_inv L' s' this d' Hinv' Hthis') as Hct.
  pose proof (contents_inv L' s' deque dd Hinv' Hdeque') as Hcd.
  split_and!.
  - by rewrite Hct, Hvals.
  - done.
  - done.
  - exists d'. split; [done|]. destruct Hinv' as [Hreps _].
    destruct (Hreps this d' Hthis') as (_ & _ & _ & _ & ->).
    destruct (Hreps deque dd Hdeque') as (_ & _ & _ & _ & ->).
    by rewrite <- (length_fmap snd (L' this)), Hvals, length_fmap.
  - exists (L' this).*1, (L' deque).*1.
    rewrite (nodes_inv L' s' this d' Hinv' Hthis'), (nodes_inv L' s' deque dd Hinv' Hdeque').
    split_and!; [done|done|]. destruct Hinv' as [_ Hdisj]. intros p.
    apply (Hdisj this deque); eauto.
  - intros fuel2 prog2 s2 Hrun2. split; intros Hnot.
    + destruct (run_frame L' s' s2 fuel2 prog2 this Hinv' Hrun2 Hnot) as (Ho & Hc & _).
      by rewrite Hc, Ho, Hct, Hvals.
    + destruct (run_frame L' s' s2 fuel2 prog2 deque Hinv' Hrun2 Hnot) as (Ho & Hc & _).
      by rewrite Hc, Ho, Hcd.
Qed.

(** C5. From a source deque a caller can reach, with room for the
    copies, copy construction of a new deque, and copy assignment to
    another deque (which is cleared first), return normally and leave a
    destination with the element sequence and the [size] of the source,
    in nodes none of which is a node of the source; the source is as
    before; and whatever a caller then does without naming one of the two
    deques leaves the object and the elements of that one unchanged. *)
Theorem copy_is_deep_and_independent fuel capacity (prog : list (op elemType))
    (s : state) fuel' this deque dd l :
  run fuel prog (initial capacity) = Some s →
  this ≠ deque →
  objs s !! deque = Some dd →
  contents s deque = Some l →
  (length l ≤ fuel')%nat →
  (objs s !! this = None →
   (N.of_nat (length l) ≤ avail (mem s))%N →
   ∃ s', deque_t_copy fuel' this deque s = Ok tt s' ∧ is_copy s' this deque dd l) ∧
  (∀ l0, contents s this = Some l0 →
   (length l0 ≤ fuel')%nat →
   (N.of_nat (length l) ≤ avail (mem s) + N.of_nat (length l0))%N →
   ∃ s', assign_copy fuel' this deque s = Ok tt s' ∧ is_copy s' this deque dd l).
Proof.
  intros Hrun Hne Hdeque Hl Hfuel.
  destruct (reachable_inv _ _ _ _ Hrun) as [L Hinv].
  rewrite (contents_inv L s deque dd Hinv Hdeque) in Hl. injection Hl as <-.
  rewrite length_fmap in Hfuel.
  split.
  - intros Hthis Hav. rewrite length_fmap in Hav.
    pose proof (preserves_new_object false this L s (Inv_false L s Hinv)) as Hnew.
    unfold deque_t_copy, bind at 1.
    destruct (new_object this nullptr nullptr 0 s) as [[] s1|w s1| |] eqn:Hn1;
      try (unfold new_object in Hn1; rewrite Hthis in Hn1; done).
    destruct Hnew as (L1 & [Hinv1 _] & Hframe1).
    assert (objs s1 = <[this := mk_deque nullptr nullptr 0 inhabitant]> (objs s) ∧
            mem s1 = mem s) as [Hobjs1 Hmem1].
    { unfold new_object in Hn1. rewrite Hthis in Hn1. by injection Hn1 as <-. }
    assert (Hthis1 : objs s1 !! this = Some (mk_deque nullptr nullptr 0 inhabitant)).
    { by rewrite Hobjs1, lookup_insert_eq. }
    assert (HL1 : L1 this = []).
    { destruct Hinv1 as [Hreps1 _]. pose proof (Hreps1 this _ Hthis1) as Hr.
      by apply (repr_head_nil _ _ _ Hr). }
    destruct (Hframe1 deque) as [HLd1 Hod1]; [done|].
    assert (Hdeque1 : objs s1 !! deque = Some dd) by (by rewrite Hod1).
    destruct (push_back_all_spec fuel' this deque L1 s1 Hinv1 (mk_is_Some _ _ Hthis1)
                (mk_is_Some _ _ Hdeque1) Hne)
      as (s' & L' & added & Hrun' & Hinv' & HL' & Hvals & Hframe & [d' Hthis'] & _);
      [by rewrite HLd1|by rewrite HLd1, Hmem1|].
    destruct (Hframe deque) as [HLd Hobjd]; [done|].
    exists s'. split; [exact Hrun'|].
    rewrite <- HLd1, <- HLd.
    eapply (is_copy_intro L' s' this deque dd d'); try done.
    + by rewrite Hobjd.
    + by rewrite HL', HL1, HLd, app_nil_l, Hvals.
  - intros l0 Hl0 Hfuel0 Hav.
    destruct (objs s !! this) as [d0|] eqn:Hthis.
    2:{ unfold contents, output, begin_const, get_head, object, bind in Hl0. by rewrite Hthis in Hl0. }
    rewrite (contents_inv L s this d0 Hinv Hthis) in Hl0. injection Hl0 as <-.
    rewrite length_fmap in Hfuel0, Hav. rewrite length_fmap in Hav.
    destruct (Clear_spec this (L this) L s d0 fuel' Hinv Hthis eq_refl Hfuel0)
      as (s1 & Hclear & Hinv1 & Hthis1 & Hframe1 & _ & Hav1).
    assert (Hdeque1 : objs s1 !! deque = Some dd) by (by rewrite Hframe1).
    destruct (push_back_all_spec fuel' this deque _ s1 Hinv1 (mk_is_Some _ _ Hthis1)
                (mk_is_Some _ _ Hdeque1) Hne)
      as (s' & L' & added & Hrun' & Hinv' & HL' & Hvals & Hframe & [d' Hthis'] & _).
    { by rewrite fn_lookup_insert_ne. }
    { rewrite fn_lookup_insert_ne by done. rewrite Hav1. lia. }
    destruct (Hframe deque) as [HLd Hobjd]; [done|].
    rewrite fn_lookup_insert_ne in HLd, Hvals by done.
    rewrite fn_lookup_insert in HL'.
    exists s'. split; [unfold assign_copy, bind; by rewrite Hclear|].
    rewrite <- HLd.
    eapply (is_copy_intro L' s' this deque dd d'); try done.
    + by rewrite Hobjd.
    + by rewrite HL', HLd, app_nil_l, Hvals.
Qed.

End WholeDequeClaims.

Section MoveClaims.

Context {elemType : Type} `{!node_layout}.
Abbreviation state := (state elemType simple_allocator_t).
Abbreviation node_t := (node_t elemType).

Lemma take_over_spec L (s : state) this deque d dd :
  inv L s → this ≠ deque → objs s !! this = Some d → objs s !! deque = Some dd →
  ∃ s', take_over this deque s = Ok tt s' ∧
    inv (<[deque := []]> (<[this := L deque]> L)) s' ∧
    objs s' !! this = Some (mk_deque (head dd) (tail dd) (size dd) (allocator d)) ∧
    objs s' !! deque = Some (mk_deque nullptr nullptr 0 (allocator dd)) ∧
    mem s' = mem s ∧ trace s' = trace s.
Proof.
  intros Hinv Hne Hthis Hdeque.
  rewrite (take_over_run s this deque d dd Hthis Hdeque Hne).
  eexists. split; [done|]. cbn [objs mem trace].
  rewrite lookup_insert_eq, lookup_insert_ne, lookup_insert_eq by done.
  split_and!; try done.
  destruct s as [o [c av] tr]. eapply inv_transfer; try done.
  - destruct Hinv as [Hreps _]. by apply (repr_fields c dd), Hreps.
  - intros q Hq. by right.
Qed.

Lemma is_moved_intro L (s1 s' : state) this deque d dd :
  inv L s1 → this ≠ deque → objs s1 !! this = Some d → objs s1 !! deque = Some dd →
  take_over this deque s1 = Ok tt s' →
  is_moved s' this deque dd (L deque).*2 ∧ mem s' = mem s1 ∧ trace s' = trace s1.
Proof.
  intros Hinv Hne Hthis Hdeque Hrun.
  destruct (take_over_spec L s1 this deque d dd Hinv Hne Hthis Hdeque)
    as (s2 & Hrun2 & Hinv' & Hthis' & Hdeque' & Hmem & Htr).
  assert (s2 = s') as -> by congruence.
  split; [|done]. split_and!.
  - eexists. split; [exact Hthis'|done].
  - rewrite (contents_inv _ s' this _ Hinv' Hthis').
    by rewrite fn_lookup_insert_ne, fn_lookup_insert.
  - eexists. split; [exact Hdeque'|]. by split_and!.
  - rewrite (contents_inv _ s' deque _ Hinv' Hdeque'). by rewrite fn_lookup_insert.
  - by rewrite (IsEmpty_run s' deque _ Hdeque').
Qed.

(** C6. From a source deque a caller can reach, move construction of
    a new deque, and move assignment to another deque, return normally;
    the destination then has [head], [tail] and [size] of the source and
    exactly its element sequence, and the source is a valid empty deque.
    The constructor touches neither the heap nor an allocator; the
    assignment first releases every node of the destination's old chain,
    from the back, through the destination's own allocator. *)
Theorem move_transfers_ownership fuel capacity (prog : list (op elemType))
    (s : state) fuel' this deque dd l :
  run fuel prog (initial capacity) = Some s →
  this ≠ deque →
  objs s !! deque = Some dd →
  contents s deque = Some l →
  (objs s !! this = None →
   ∃ s', deque_t_move this deque s = Ok tt s' ∧ is_moved s' this deque dd l ∧
         mem s' = mem s ∧ trace s' = trace s) ∧
  (∀ n0, nodes s this = Some n0 → (length n0 ≤ fuel')%nat →
   ∃ s', assign_move fuel' this deque s = Ok tt s' ∧ is_moved s' this deque dd l ∧
         trace s' = trace s ++ (EvDealloc this <$> reverse n0) ∧
         avail (mem s') = (avail (mem s) + N.of_nat (length n0))%N).
Proof.
  intros Hrun Hne Hdeque Hl.
  destruct (reachable_inv _ _ _ _ Hrun) as [L Hinv].
  rewrite (contents_inv L s deque dd Hinv Hdeque) in Hl. injection Hl as <-.
  split.
  - intros Hthis.
    pose proof (preserves_new_object false this L s (Inv_false L s Hinv)) as Hnew.
    rewrite deque_t_move_eq. unfold bind at 1.
    destruct (new_object this nullptr nullptr 0 s) as [[] s1|w s1| |] eqn:Hn1;
      try (unfold new_object in Hn1; rewrite Hthis in Hn1; done).
    destruct Hnew as (L1 & [Hinv1 _] & Hframe1).
    assert (objs s1 = <[this := mk_deque nullptr nullptr 0 inhabitant]> (objs s) ∧
            mem s1 = mem s ∧ trace s1 = trace s) as (Hobjs1 & Hmem1 & Htr1).
    { unfold new_object in Hn1. rewrite Hthis in Hn1. by injection Hn1 as <-. }
    assert (Hthis1 : objs s1 !! this = Some (mk_deque nullptr nullptr 0 inhabitant)).
    { by rewrite Hobjs1, lookup_insert_eq. }
    destruct (Hframe1 deque) as [HLd1 Hod1]; [done|].
    assert (Hdeque1 : objs s1 !! deque = Some dd) by (by rewrite Hod1).
    destruct (take_over_spec L1 s1 this deque _ dd Hinv1 Hne Hthis1 Hdeque1)
      as (s' & Hrun' & _).
    destruct (is_moved_intro L1 s1 s' this deque _ dd Hinv1 Hne Hthis1 Hdeque1 Hrun')
      as (Hmoved & Hmem & Htr).
    exists s'. rewrite <- HLd1. split_and!; [done|done|congruence|congruence].
  - intros n0 Hn0 Hfuel.
    destruct (objs s !! this) as [d0|] eqn:Hthis.
    2:{ unfold nodes, begin_const, get_head, object, bind in Hn0. by rewrite Hthis in Hn0. }
    rewrite (nodes_inv L s this d0 Hinv Hthis) in Hn0. injection Hn0 as <-.
    rewrite length_fmap in Hfuel. rewrite length_fmap.
    destruct (Clear_spec this (L this) L s d0 fuel' Hinv Hthis eq_refl Hfuel)
      as (s1 & Hclear & Hinv1 & Hthis1 & Hframe1 & Htr1 & Hav1).
    assert (Hdeque1 : objs s1 !! deque = Some dd) by (by rewrite Hframe1).
    destruct (take_over_spec _ s1 this deque _ dd Hinv1 Hne Hthis1 Hdeque1)
      as (s' & Hrun' & _).
    destruct (is_moved_intro _ s1 s' this deque _ dd Hinv1 Hne Hthis1 Hdeque1 Hrun')
      as (Hmoved & Hmem & Htr).
    rewrite fn_lookup_insert_ne in Hmoved by done.
    exists s'. split_and!; [|done|congruence|congruence].
    rewrite assign_move_eq. unfold bind. by rewrite Hclear.
Qed.

(** C3, as amended. In a program without move construction, move
    assignment and move merge, every node that is deallocated (by
    [PopFront], [PopBack], [Clear], the clearing step of copy assignment
    or the destructor) is deallocated through the allocator instance
    through which it was allocated. *)
Theorem no_move_same_allocator_instance fuel capacity (prog : list (op elemType))
    (s : state) :
  move_free prog = true →
  run fuel prog (initial capacity) = Some s →
  matched (trace s) = true.
Proof.
  intros Hmf Hrun.
  destruct (run_preserves true fuel prog _ _ _ (λ _, Hmf) (Inv_initial true capacity) Hrun)
    as (L & [_ Hown] & _).
  destruct (Hown eq_refl) as (live & Hlive & _). unfold matched. by rewrite Hlive.
Qed.

(** C2, as amended. Every deque a caller can reach, before and after
    every use of the interface, satisfies the structural invariant if it
    holds fewer than [2^32] elements, and only then; on a system that can
    hold fewer than [2^32] node blocks at a time every deque does. *)
Theorem structural_invariant_reachable fuel capacity (prog : list (op elemType))
    (s : state) this d :
  run fuel prog (initial capacity) = Some s →
  objs s !! this = Some d →
  ∃ l, contents s this = Some l ∧
    (structural_invariant (cells (mem s)) d ↔ Z.of_nat (length l) < UINT_MOD) ∧
    (Z.of_N capacity < UINT_MOD → structural_invariant (cells (mem s)) d).
Proof.
  intros Hrun Hthis. destruct (reachable_inv _ _ _ _ Hrun) as [L Hinv].
  pose proof (run_blocks _ _ _ _ Hrun) as Hcons.
  pose proof (chain_length_le L s this d Hinv Hthis) as Hlen.
  pose proof (contents_inv L s this d Hinv Hthis) as Hcont.
  destruct Hinv as [Hreps _]. pose proof (Hreps this d Hthis) as Hrep.
  exists (L this).*2. rewrite length_fmap. split; [done|]. split; [split|].
  - intros HSI. destruct (Z.lt_ge_cases (Z.of_nat (length (L this))) UINT_MOD); [done|].
    by destruct (repr_not_structural _ _ _ Hrep).
  - by apply repr_structural.
  - intros Hcap. apply (repr_structural _ _ (L this)); [done|].
    unfold blocks in Hcons. cbn [initial mem cells avail] in Hcons.
    rewrite map_size_empty in Hcons. lia.
Qed.

End MoveClaims.

(** ** Allocation failure *)

Section AllocationClaims.

Context {elemType memoryAllocator : Type}.
Context `{!allocator_interface_t elemType memoryAllocator} `{!node_layout}.
Abbreviation state := (state elemType memoryAllocator).

(** C1, as amended. When the [alloc] of the deque's allocator throws,
    each of the four insertion operations throws the same exception, and
    the state at the throw is the state in which [alloc] threw: the deque
    objects and the trace are as before the call, so no node is linked in
    and [head], [tail] and [size] are unchanged; if [alloc] left the heap
    as it was, the whole state is as before the call. The allocator of the
    repository never throws: it returns what [malloc] returns, which is a
    null pointer, with the heap unchanged, when [malloc] fails; and with
    that allocator no insertion operation throws anything. *)
Theorem alloc_exception_propagates (s : state) this d (v : elemType) w m' :
  objs s !! this = Some d →
  alloc (allocator d) sizeof_node_t (mem s) = Throw w m' →
  PushFront this v s = Throw w (mk_state (objs s) m' (trace s)) ∧
  PushFront_move this v s = Throw w (mk_state (objs s) m' (trace s)) ∧
  PushBack this v s = Throw w (mk_state (objs s) m' (trace s)) ∧
  PushBack_move this v s = Throw w (mk_state (objs s) m' (trace s)) ∧
  (m' = mem s → mk_state (objs s) m' (trace s) = s) ∧
  (∀ (m : memory elemType) sz,
     ∃ p m1, alloc SimpleAllocator sz m = Ok p m1 ∧
             (p = nullptr ↔ avail m = 0%N) ∧ (p = nullptr → m1 = m)) ∧
  (∀ s0 this0 (v0 : elemType) w0 s1,
     PushFront (memoryAllocator:=simple_allocator_t) this0 v0 s0 ≠ Throw w0 s1 ∧
     PushFront_move (memoryAllocator:=simple_allocator_t) this0 v0 s0 ≠ Throw w0 s1 ∧
     PushBack (memoryAllocator:=simple_allocator_t) this0 v0 s0 ≠ Throw w0 s1 ∧
     PushBack_move (memoryAllocator:=simple_allocator_t) this0 v0 s0 ≠ Throw w0 s1).
Proof.
  intros Hthis Halloc. split_and!.
  - unfold PushFront, call_alloc, bind, object, lift_mem. by rewrite Hthis, Halloc.
  - unfold PushFront_move, call_alloc, bind, object, lift_mem. by rewrite Hthis, Halloc.
  - unfold PushBack, call_alloc, bind, object, lift_mem. by rewrite Hthis, Halloc.
  - unfold PushBack_move, call_alloc, bind, object, lift_mem. by rewrite Hthis, Halloc.
  - intros ->. by destruct s.
  - intros m sz. cbn [alloc simple_allocator]. unfold malloc.
    destruct (N.eqb_spec (avail m) 0) as [Hav|Hav].
    + by exists nullptr, m.
    + eexists _, _. split; [done|]. split; [|intros E; by apply fresh_ptr_nonnull in E].
      split; [intros E; by apply fresh_ptr_nonnull in E|done].
  - intros s0 this0 v0 w0 s1.
    pose proof (nothrow_PushFront this0 v0 s0) as H1.
    pose proof (nothrow_PushFront_move this0 v0 s0) as H2.
    pose proof (nothrow_PushBack this0 v0 s0) as H3.
    pose proof (nothrow_PushBack_move this0 v0 s0) as H4.
    split_and!; intros E; rewrite E in *; done.
Qed.

End AllocationClaims.

(** ** The failures at concrete programs *)

Module Counterexamples.

Import Demo Examples.

(** The demonstration program runs to its end on a system with room
    for 64 nodes: every deque is destroyed and every node released, the
    nodes of the moved temporaries through the allocators of the deques
    they were moved to. *)
Example main_runs :
  ∃ s : state Z simple_allocator_t,
    run 16 main (initial 64) = Some s ∧
    objs s = ∅ ∧ mem s = mk_memory ∅ 64 ∧ matched (trace s) = false.
Proof. eexists. split; [vm_compute; reflexivity|]. vm_compute. by split_and!. Qed.

(** C1, counterexample. With the allocator of the repository and no
    memory left, [alloc] returns a null pointer and throws nothing, and
    each of the four insertion operations writes through the null pointer:
    none of them throws. *)
Lemma malloc_failure_is_undefined_behaviour :
  ∃ s : state Z simple_allocator_t,
    run 0 exhausted (initial 0) = Some s ∧
    alloc SimpleAllocator sizeof_node_t (mem s) = Ok nullptr (mem s) ∧
    PushFront 1%N 7 s = Fault ∧ PushFront_move 1%N 7 s = Fault ∧
    PushBack 1%N 7 s = Fault ∧ PushBack_move 1%N 7 s = Fault.
Proof. eexists. split; [vm_compute; reflexivity|]. vm_compute. by split_and!. Qed.

(** C3, counterexample. A node allocated through the allocator of
    deque 1, moved to deque 2 by the move constructor and removed there by
    [PopBack], is deallocated through the allocator of deque 2. *)
Lemma moved_node_released_through_other_instance :
  ∃ s : state Z simple_allocator_t,
    run 0 one_node_moved (initial 8) = Some s ∧
    trace s = [EvAlloc 1%N 1%N; EvDealloc 2%N 1%N] ∧
    matched (trace s) = false.
Proof. eexists. split; [vm_compute; reflexivity|]. vm_compute. by split_and!. Qed.

End Counterexamples.

(** ** Many insertions *)

Section ManyPushes.

Context {elemType : Type} `{!node_layout}.
Abbreviation state := (state elemType simple_allocator_t).
Abbreviation M := (M elemType simple_allocator_t).

Lemma run_app fuel (p1 p2 : list (op elemType)) (s : state) :
  run fuel (p1 ++ p2) s = run fuel p1 s ≫= run fuel p2.
Proof.
  revert s. induction p1 as [|o p1 IH]; intros s; simpl; [done|].
  by destruct (exec fuel o s).
Qed.

(** [n] calls of [PushBack(v)] in a row, with room for [n] nodes. *)
Lemma run_push_backs fuel this v (n : nat) :
  ∀ L (s : state),
  inv L s → is_Some (objs s !! this) → (N.of_nat n ≤ avail (mem s))%N →
  ∃ s' L' d',
    run fuel (replicate n (CallPushBack this v)) s = Some s' ∧
    inv L' s' ∧ objs s' !! this = Some d' ∧
    length (L' this) = (length (L this) + n)%nat ∧
    (∀ r, r ≠ this → L' r = L r ∧ objs s' !! r = objs s !! r) ∧
    avail (mem s') = (avail (mem s) - N.of_nat n)%N.
Proof.
  induction n as [|n IH]; intros L s Hinv [d Hthis] Hav.
  - exists s, L, d. split_and!; [done|done|done|lia|done|lia].
  - assert (avail (mem s) ≠ 0%N) as Hav0 by lia.
    destruct (PushBack_inv L s this d v Hinv Hthis Hav0)
      as (p & s1 & _ & Hpush & Hinv1 & Hobjs1 & _ & Hav1 & _).
    edestruct (IH _ s1 Hinv1)
      as (s' & L' & d' & Hrun & Hinv' & Hthis' & Hlen & Hframe & Hav');
      [by rewrite Hobjs1, lookup_insert_eq|lia|].
    exists s', L', d'. split_and!; [|done|done| | |].
    + cbn [replicate run exec]. by rewrite Hpush.
    + rewrite Hlen, fn_lookup_insert, length_app. simpl. lia.
    + intros r Hr. destruct (Hframe r Hr) as [-> ->].
      by rewrite fn_lookup_insert_ne, Hobjs1, lookup_insert_ne.
    + rewrite Hav', Hav1. lia.
Qed.

End ManyPushes.

Module Overflow.

Import Demo Examples.

(** C2, counterexample. On a system with room for [2^32] nodes, the
    deque made by the default constructor and [2^32] calls of [PushBack]
    has a non-null [head] and [tail] and [size == 0]. *)
Lemma size_wraps_after_2_32_pushes :
  ∃ (s : state Z simple_allocator_t) d,
    run 0 (Construct 1%N :: replicate (N.to_nat 4294967296) (CallPushBack 1%N 0))
      (initial 4294967296%N) = Some s ∧
    objs s !! 1%N = Some d ∧
    size d = 0 ∧ head d ≠ nullptr ∧ tail d ≠ nullptr ∧
    ¬ structural_invariant (cells (mem s)) d.
Proof.
  pose proof (N2Nat.id 4294967296) as Hn. revert Hn.
  generalize (N.to_nat 4294967296). intros n Hn.
  pose (s0 := mk_state (elemType:=Z) (<[1%N := mk_deque nullptr nullptr 0 SimpleAllocator]> ∅)
                (mk_memory ∅ 4294967296%N) []).
  assert (Hrun0 : run 0 [Construct 1%N] (initial 4294967296%N) = Some s0) by reflexivity.
  destruct (reachable_inv _ _ _ _ Hrun0) as [L Hinv].
  assert (Hthis0 : objs s0 !! 1%N = Some (mk_deque nullptr nullptr 0 SimpleAllocator))
    by apply lookup_insert_eq.
  assert (HL0 : L 1%N = []).
  { destruct Hinv as [Hreps _]. by apply (repr_head_nil _ _ _ (Hreps _ _ Hthis0)). }
  destruct (run_push_backs 0 1%N 0 n L s0 Hinv (mk_is_Some _ _ Hthis0))
    as (s' & L' & d' & Hrun & Hinv' & Hthis' & Hlen & _).
  { rewrite Hn. cbn [s0 mem avail]. lia. }
  rewrite HL0 in Hlen. simpl length in Hlen.
  assert (Hlen' : Z.of_nat (length (L' 1%N)) = 4294967296) by lia.
  destruct Hinv' as [Hreps' _]. pose proof (Hreps' _ _ Hthis') as Hrep.
  assert (Hsize : size d' = 0).
  { destruct Hrep as (_ & _ & _ & _ & ->). by rewrite Hlen'. }
  assert (HL' : L' 1%N ≠ []).
  { intros HL. rewrite HL in Hlen'. simpl in Hlen'. lia. }
  assert (Hhead : head d' ≠ nullptr) by (by rewrite (repr_head_nil _ _ _ Hrep)).
  assert (Htail : tail d' ≠ nullptr) by (by rewrite (repr_tail_nil _ _ _ Hrep)).
  exists s', d'.
  split; [exact Hrun|split; [exact Hthis'|split; [exact Hsize|split; [exact Hhead|
    split; [exact Htail|]]]]].
  intros (_ & Hts & _). apply Htail, Hts, Hsize.
Qed.

(** C4, counterexample. Two deques of [2^31] nodes each have sizes
    [2^31] and [2^31]; after the move merge the receiver holds [2^32]
    nodes and its [size] is 0, not the sum [2^32]. And a non-empty
    receiver that merges an empty source keeps its [tail]: it does not
    take the (null) [tail] of the source. *)
Lemma merged_size_wraps_and_empty_source_is_skipped :
  (∃ (s s' : state Z simple_allocator_t) da db da',
     run 8 two_deques (initial 16) = Some s ∧
     objs s !! 1%N = Some da ∧ objs s !! 3%N = Some db ∧
     head da ≠ nullptr ∧ tail db = nullptr ∧
     AddOtherDeque_move 1%N 3%N s = Ok tt s' ∧
     objs s' !! 1%N = Some da' ∧ tail da' ≠ tail db) ∧
  ∃ (s s' : state Z simple_allocator_t) da db da' la lb,
    run 0 (Construct 1%N :: Construct 2%N ::
           replicate (N.to_nat 2147483648) (CallPushBack 1%N 0) ++
           replicate (N.to_nat 2147483648) (CallPushBack 2%N 0))
      (initial 4294967296%N) = Some s ∧
    objs s !! 1%N = Some da ∧ objs s !! 2%N = Some db ∧
    contents s 1%N = Some la ∧ contents s 2%N = Some lb ∧
    size da = 2147483648 ∧ size db = 2147483648 ∧
    AddOtherDeque_move 1%N 2%N s = Ok tt s' ∧
    objs s' !! 1%N = Some da' ∧
    contents s' 1%N = Some (la ++ lb) ∧
    size da' = 0 ∧ size da' ≠ size da + size db.
Proof.
  split.
  { eexists _, _, _, _, _. split; [vm_compute; reflexivity|]. vm_compute.
    split_and!; (reflexivity || discriminate). }
  pose proof (N2Nat.id 2147483648) as Hn. revert Hn.
  generalize (N.to_nat 2147483648). intros n Hn.
  pose (s0 := mk_state (elemType:=Z)
                (<[2%N := mk_deque nullptr nullptr 0 SimpleAllocator]>
                   (<[1%N := mk_deque nullptr nullptr 0 SimpleAllocator]> ∅))
                (mk_memory ∅ 4294967296%N) []).
  assert (Hrun0 : run 0 [Construct 1%N; Construct 2%N] (initial 4294967296%N) = Some s0)
    by reflexivity.
  destruct (reachable_inv _ _ _ _ Hrun0) as [L Hinv].
  assert (H1 : objs s0 !! 1%N = Some (mk_deque nullptr nullptr 0 SimpleAllocator))
    by reflexivity.
  assert (H2 : objs s0 !! 2%N = Some (mk_deque nullptr nullptr 0 SimpleAllocator))
    by reflexivity.
  assert (HL1 : L 1%N = []).
  { destruct Hinv as [Hreps _]. by apply (repr_head_nil _ _ _ (Hreps _ _ H1)). }
  assert (HL2 : L 2%N = []).
  { destruct Hinv as [Hreps _]. by apply (repr_head_nil _ _ _ (Hreps _ _ H2)). }
  destruct (run_push_backs 0 1%N 0 n L s0 Hinv (mk_is_Some _ _ H1))
    as (sa & La & da & Hruna & Hinva & Hthisa & Hlena & Hframea & Hava).
  { rewrite Hn. cbn [s0 mem avail]. lia. }
  destruct (Hframea 2%N) as [HLa2 Hoa2]; [discriminate|].
  assert (H2a : objs sa !! 2%N = Some (mk_deque nullptr nullptr 0 SimpleAllocator))
    by (rewrite Hoa2; exact H2).
  destruct (run_push_backs 0 2%N 0 n La sa Hinva (mk_is_Some _ _ H2a))
    as (s & Lb & db & Hrunb & Hinvb & Hthisb & Hlenb & Hframeb & _).
  { rewrite Hava, Hn. cbn [s0 mem avail]. lia. }
  destruct (Hframeb 1%N) as [HLb1 Hob1]; [discriminate|].
  assert (H1b : objs s !! 1%N = Some da) by (rewrite Hob1; exact Hthisa).
  rewrite HL1 in Hlena. rewrite HLa2, HL2 in Hlenb. simpl length in Hlena, Hlenb.
  assert (Hsa : size da = 2147483648).
  { destruct Hinva as [Hreps _]. destruct (Hreps _ _ Hthisa) as (_ & _ & _ & _ & ->).
    replace (Z.of_nat (length (La 1%N))) with 2147483648 by lia. reflexivity. }
  assert (Hsb : size db = 2147483648).
  { destruct Hinvb as [Hreps _]. destruct (Hreps _ _ Hthisb) as (_ & _ & _ & _ & ->).
    replace (Z.of_nat (length (Lb 2%N))) with 2147483648 by lia. reflexivity. }
  destruct (AddOtherDeque_move_spec Lb s 1%N 2%N da db Hinvb ltac:(discriminate) H1b Hthisb)
    as (s' & da' & Hmerge & Hinv' & Hthis' & _ & _ & _ & Hsz & _).
  assert (Hsz0 : size da' = 0) by (rewrite Hsz, Hsa, Hsb; reflexivity).
  exists s, s', da, db, da', (Lb 1%N).*2, (Lb 2%N).*2.
  split; [|split; [exact H1b|split; [exact Hthisb|split; [|split; [|split; [exact Hsa|
    split; [exact Hsb|split; [exact Hmerge|split; [exact Hthis'|split; [|split;
    [exact Hsz0|]]]]]]]]]]].
  - change (run 0 (Construct 1%N :: Construct 2%N :: ?r) ?i) with (run 0 r s0).
    rewrite run_app, Hruna. exact Hrunb.
  - apply (contents_inv Lb s 1%N da Hinvb H1b).
  - apply (contents_inv Lb s 2%N db Hinvb Hthisb).
  - rewrite (contents_inv _ s' 1%N da' Hinv' Hthis').
    rewrite fn_lookup_insert_ne, fn_lookup_insert by discriminate. by rewrite fmap_app.
  - rewrite Hsz0, Hsa, Hsb. discriminate.
Qed.

End Overflow.

(** ** The theorems at concrete programs *)

Module Witnesses.

Import Demo Examples.

Lemma alloc_exception_propagates_witness :
  objs exhausted_checked !! 1%N = Some (mk_deque nullptr nullptr 0 CheckedAllocator) ∧
  alloc CheckedAllocator sizeof_node_t (mem exhausted_checked)
    = Throw "OutOfMemory" (mem exhausted_checked) ∧
  PushBack 1%N 7 exhausted_checked = Throw "OutOfMemory" exhausted_checked.
Proof.
  split; [vm_compute; reflexivity|]. split; [vm_compute; reflexivity|].
  refine (proj1 (proj2 (proj2 (alloc_exception_propagates exhausted_checked 1%N
            (mk_deque nullptr nullptr 0 CheckedAllocator) 7 "OutOfMemory"
            (mem exhausted_checked) _ _))));
    vm_compute; reflexivity.
Defined.

Lemma structural_invariant_reachable_witness :
  run 8 two_deques (initial 16) = Some (after two_deques 16) ∧
  objs (after two_deques 16) !! 1%N = Some (deque_at (after two_deques 16) 1%N) ∧
  structural_invariant (cells (mem (after two_deques 16))) (deque_at (after two_deques 16) 1%N).
Proof.
  split; [vm_compute; reflexivity|]. split; [vm_compute; reflexivity|].
  destruct (structural_invariant_reachable 8 16 two_deques (after two_deques 16) 1%N
              (deque_at (after two_deques 16) 1%N))
    as (l & _ & _ & HSI); [vm_compute; reflexivity|vm_compute; reflexivity|].
  apply HSI. reflexivity.
Defined.

Lemma no_move_same_allocator_instance_witness :
  move_free no_moves = true ∧
  run 8 no_moves (initial 16) = Some (after no_moves 16) ∧
  matched (trace (after no_moves 16)) = true.
Proof.
  split; [reflexivity|]. split; [vm_compute; reflexivity|].
  refine (no_move_same_allocator_instance 8 16 no_moves _ _ _); vm_compute; reflexivity.
Defined.

Lemma move_merge_concatenates_witness :
  run 8 move_merge (initial 16) = Some (after move_merge 16) ∧
  1%N ≠ 2%N ∧
  objs (after move_merge 16) !! 1%N = Some (deque_at (after move_merge 16) 1%N) ∧
  objs (after move_merge 16) !! 2%N = Some (deque_at (after move_merge 16) 2%N) ∧
  contents (after move_merge 16) 1%N = Some [1; 2; 3; 4; 5] ∧
  contents (after move_merge 16) 2%N = Some [1; 2; 3; 4; 5] ∧
  ∃ s' da', AddOtherDeque_move 1%N 2%N (after move_merge 16) = Ok tt s' ∧
    objs s' !! 1%N = Some da' ∧ size da' = 10 ∧
    contents s' 1%N = Some [1; 2; 3; 4; 5; 1; 2; 3; 4; 5] ∧
    contents s' 2%N = Some [].
Proof.
  split; [vm_compute; reflexivity|]. split; [discriminate|].
  split; [vm_compute; reflexivity|]. split; [vm_compute; reflexivity|].
  split; [vm_compute; reflexivity|]. split; [vm_compute; reflexivity|].
  destruct (move_merge_concatenates 8 16 move_merge (after move_merge 16) 1%N 2%N
              (deque_at (after move_merge 16) 1%N) (deque_at (after move_merge 16) 2%N)
              [1; 2; 3; 4; 5] [1; 2; 3; 4; 5])
    as (s' & da' & db' & Hrun & Hthis & _ & Hc1 & Hc2 & Hsz & _);
    [vm_compute; reflexivity|discriminate|vm_compute; reflexivity|vm_compute; reflexivity|
     vm_compute; reflexivity|vm_compute; reflexivity|].
  exists s', da'. split_and!; [exact Hrun|exact Hthis|exact Hsz|exact Hc1|exact Hc2].
Defined.

Lemma copy_merge_appends_witness :
  run 8 copy_merge (initial 16) = Some (after copy_merge 16) ∧
  1%N ≠ 2%N ∧
  contents (after copy_merge 16) 1%N = Some [1; 2; 3] ∧
  contents (after copy_merge 16) 2%N = Some [6; 7] ∧
  (length [6; 7] ≤ 2)%nat ∧
  (N.of_nat (length [6; 7]) ≤ avail (mem (after copy_merge 16)))%N ∧
  ∃ s', AddOtherDeque 2 1%N 2%N (after copy_merge 16) = Ok tt s' ∧
    contents s' 1%N = Some [1; 2; 3; 6; 7] ∧
    contents s' 2%N = Some [6; 7].
Proof.
  split; [vm_compute; reflexivity|]. split; [discriminate|].
  split; [vm_compute; reflexivity|]. split; [vm_compute; reflexivity|].
  split; [simpl; lia|]. split; [vm_compute; discriminate|].
  destruct (copy_merge_appends 8 16 copy_merge (after copy_merge 16) 2 1%N 2%N
              [1; 2; 3] [6; 7])
    as (s' & Hrun & Hc1 & Hc2 & _);
    [vm_compute; reflexivity|discriminate|vm_compute; reflexivity|vm_compute; reflexivity|
     simpl; lia|vm_compute; discriminate|].
  exists s'. split_and!; [exact Hrun|exact Hc1|exact Hc2].
Defined.

Lemma copy_is_deep_and_independent_witness :
  run 8 two_deques (initial 16) = Some (after two_deques 16) ∧
  4%N ≠ 1%N ∧ 2%N ≠ 1%N ∧
  objs (after two_deques 16) !! 1%N = Some (deque_at (after two_deques 16) 1%N) ∧
  contents (after two_deques 16) 1%N = Some [1; 2; 3] ∧
  (length [1; 2; 3] ≤ 3)%nat ∧
  objs (after two_deques 16) !! 4%N = None ∧
  (N.of_nat (length [1; 2; 3]) ≤ avail (mem (after two_deques 16)))%N ∧
  contents (after two_deques 16) 2%N = Some [6; 7] ∧
  (length [6; 7] ≤ 3)%nat ∧
  (N.of_nat (length [1; 2; 3])
     ≤ avail (mem (after two_deques 16)) + N.of_nat (length [6; 7]))%N ∧
  (∃ s', deque_t_copy 3 4%N 1%N (after two_deques 16) = Ok tt s' ∧
         is_copy s' 4%N 1%N (deque_at (after two_deques 16) 1%N) [1; 2; 3]) ∧
  (∃ s', assign_copy 3 2%N 1%N (after two_deques 16) = Ok tt s' ∧
         is_copy s' 2%N 1%N (deque_at (after two_deques 16) 1%N) [1; 2; 3]).
Proof.
  split; [vm_compute; reflexivity|]. split; [discriminate|]. split; [discriminate|].
  split; [vm_compute; reflexivity|]. split; [vm_compute; reflexivity|].
  split; [simpl; lia|]. split; [vm_compute; reflexivity|].
  split; [vm_compute; discriminate|]. split; [vm_compute; reflexivity|].
  split; [simpl; lia|]. split; [vm_compute; discriminate|].
  split.
  - refine (proj1 (copy_is_deep_and_independent 8 16 two_deques (after two_deques 16)
                     3 4%N 1%N (deque_at (after two_deques 16) 1%N) [1; 2; 3]
                     _ _ _ _ _) _ _);
      [vm_compute; reflexivity|discriminate|vm_compute; reflexivity|vm_compute; reflexivity|
       simpl; lia|vm_compute; reflexivity|vm_compute; discriminate].
  - refine (proj2 (copy_is_deep_and_independent 8 16 two_deques (after two_deques 16)
                     3 2%N 1%N (deque_at (after two_deques 16) 1%N) [1; 2; 3]
                     _ _ _ _ _) [6; 7] _ _ _);
      [vm_compute; reflexivity|discriminate|vm_compute; reflexivity|vm_compute; reflexivity|
       simpl; lia|vm_compute; reflexivity|simpl; lia|vm_compute; discriminate].
Defined.

Lemma move_transfers_ownership_witness :
  run 8 two_deques (initial 16) = Some (after two_deques 16) ∧
  4%N ≠ 1%N ∧ 2%N ≠ 1%N ∧
  objs (after two_deques 16) !! 1%N = Some (deque_at (after two_deques 16) 1%N) ∧
  contents (after two_deques 16) 1%N = Some [1; 2; 3] ∧
  objs (after two_deques 16) !! 4%N = None ∧
  nodes (after two_deques 16) 2%N = Some [4%N; 5%N] ∧
  (length [4%N; 5%N] ≤ 2)%nat ∧
  (∃ s', deque_t_move 4%N 1%N (after two_deques 16) = Ok tt s' ∧
         is_moved s' 4%N 1%N (deque_at (after two_deques 16) 1%N) [1; 2; 3]) ∧
  (∃ s', assign_move 2 2%N 1%N (after two_deques 16) = Ok tt s' ∧
         is_moved s' 2%N 1%N (deque_at (after two_deques 16) 1%N) [1; 2; 3] ∧
         trace s' = trace (after two_deques 16) ++ [EvDealloc 2%N 5%N; EvDealloc 2%N 4%N]).
Proof.
  split; [vm_compute; reflexivity|]. split; [discriminate|]. split; [discriminate|].
  split; [vm_compute; reflexivity|]. split; [vm_compute; reflexivity|].
  split; [vm_compute; reflexivity|]. split; [vm_compute; reflexivity|].
  split; [simpl; lia|].
  split.
  - destruct (proj1 (move_transfers_ownership 8 16 two_deques (after two_deques 16)
                       2 4%N 1%N (deque_at (after two_deques 16) 1%N) [1; 2; 3]
                       ltac:(vm_compute; reflexivity) ltac:(discriminate)
                       ltac:(vm_compute; reflexivity) ltac:(vm_compute; reflexivity)))
      as (s' & Hrun & Hmoved & _); [vm_compute; reflexivity|].
    exists s'. by split.
  - destruct (proj2 (move_transfers_ownership 8 16 two_deques (after two_deques 16)
                       2 2%N 1%N (deque_at (after two_deques 16) 1%N) [1; 2; 3]
                       ltac:(vm_compute; reflexivity) ltac:(discriminate)
                       ltac:(vm_compute; reflexivity) ltac:(vm_compute; reflexivity))
                [4%N; 5%N])
      as (s' & Hrun & Hmoved & Htr & _); [vm_compute; reflexivity|simpl; lia|].
    exists s'. split_and!; [exact Hrun|exact Hmoved|exact Htr].
Defined.

Lemma empty_container_iff_empty_witness :
  run 8 two_deques (initial 16) = Some (after two_deques 16) ∧
  objs (after two_deques 16) !! 3%N = Some (deque_at (after two_deques 16) 3%N) ∧
  (PopFront 3%N (after two_deques 16) = Throw EmptyContainer (after two_deques 16)
   ↔ head (deque_at (after two_deques 16) 3%N) = nullptr).
Proof.
  split; [vm_compute; reflexivity|]. split; [vm_compute; reflexivity|].
  refine (proj1 (proj2 (proj2 (empty_container_iff_empty 8 16 two_deques _ 3%N _ _ _))));
    vm_compute; reflexivity.
Defined.

Lemma iterator_end_throws_present_succeeds_witness :
  iterator.deref (iterator.mk nullptr) (after two_deques 16)
    = Throw InvalidIterator (after two_deques 16) ∧
  2%N ≠ nullptr ∧
  cells (mem (after two_deques 16)) !! 2%N = Some (mk_node (Init 2) (Init 1%N) (Init 3%N)) ∧
  reverse_iterator.pre_incr (reverse_iterator.mk 2%N) (after two_deques 16)
    = Ok (reverse_iterator.mk 1%N) (after two_deques 16).
Proof.
  split.
  { refine (proj1 (proj1 (iterator_end_throws_present_succeeds _ nullptr) _)). reflexivity. }
  split; [discriminate|]. split; [vm_compute; reflexivity|].
  refine (proj1 (proj2 (proj2 (proj2 (proj2 (proj2 (proj2 (proj2
            (proj1 (proj2 (iterator_end_throws_present_succeeds _ 2%N) _) 2 1%N 3%N _))))))))).
  - discriminate.
  - vm_compute; reflexivity.
Defined.

Lemma push_then_pop_same_end_witness :
  run 8 two_deques (initial 16) = Some (after two_deques 16) ∧
  objs (after two_deques 16) !! 1%N = Some (deque_at (after two_deques 16) 1%N) ∧
  avail (mem (after two_deques 16)) ≠ 0%N ∧
  ∃ s1 s2, PushBack 1%N 9 (after two_deques 16) = Ok tt s1 ∧ PopBack 1%N s1 = Ok tt s2 ∧
           objs s2 = objs (after two_deques 16) ∧ mem s2 = mem (after two_deques 16).
Proof.
  split; [vm_compute; reflexivity|]. split; [vm_compute; reflexivity|].
  split; [vm_compute; discriminate|].
  destruct (proj1 (push_then_pop_same_end 8 16 two_deques (after two_deques 16) 1%N
                     (deque_at (after two_deques 16) 1%N) 9
                     ltac:(vm_compute; reflexivity) ltac:(vm_compute; reflexivity)
                     ltac:(vm_compute; discriminate)))
    as (s1 & s2 & H1 & _ & H2 & H3 & H4 & _).
  exists s1, s2. split_and!; [exact H1|exact H2|exact H3|exact H4].
Defined.

End Witnesses.

(** * More of the interface *)

(** ** What the end operations do to the element sequence *)

Section EndEffects.

Context {elemType : Type} `{!node_layout}.
Abbreviation state := (state elemType simple_allocator_t).
Abbreviation node_t := (node_t elemType).

(** Deques that keep their chain and their object keep their elements. *)
Lemma frame_contents L L' (s s' : state) r :
  inv L s → inv L' s' → L' r = L r → objs s' !! r = objs s !! r →
  contents s' r = contents s r ∧ nodes s' r = nodes s r.
Proof.
  intros Hinv Hinv' HL Hobj. destruct (objs s !! r) as [d|] eqn:Hd.
  - rewrite (contents_inv L' s' r d Hinv' Hobj), (contents_inv L s r d Hinv Hd), HL.
    by rewrite (nodes_inv L' s' r d Hinv' Hobj), (nodes_inv L s r d Hinv Hd), HL.
  - unfold contents, output, nodes, begin_const, get_head, object, bind.
    by rewrite Hobj, Hd.
Qed.

Lemma PeekTail_last L (s : state) this d l0 p v :
  inv L s → objs s !! this = Some d → L this = l0 ++ [(p, v)] →
  PeekTail this s = Ok v s ∧ GetBack this s = Ok v s.
Proof.
  intros [Hreps _] Hthis HL. destruct (Hreps this d Hthis) as (Hc & _ & _ & Htl & _).
  rewrite HL in Hc, Htl. rewrite last_ptr_app in Htl. simpl in Htl.
  apply chain_app in Hc as (_ & Hp & Hcell & _).
  by apply (peek_run s this d p v _ _ Hthis Hp Hcell).
Qed.

Lemma PeekHead_first L (s : state) this d l0 p v :
  inv L s → objs s !! this = Some d → L this = (p, v) :: l0 →
  PeekHead this s = Ok v s ∧ GetFront this s = Ok v s.
Proof.
  intros [Hreps _] Hthis HL. destruct (Hreps this d Hthis) as (Hc & _ & Hhd & _).
  rewrite HL in Hc, Hhd. simpl in Hhd. destruct Hc as (Hp & Hcell & _).
  by apply (peek_run s this d p v _ _ Hthis Hp Hcell).
Qed.

(** X1. On a deque a caller can reach, [PushBack] (either overload)
    has undefined behaviour when [malloc] fails and otherwise returns
    normally: the value is the new last element, the elements before it
    are the old ones, [size] went up by one in [unsigned int], one block
    was allocated through the deque's allocator, [PeekTail] then returns
    the value, and every other deque is as before. *)
Theorem PushBack_appends fuel capacity (prog : list (op elemType))
    (s : state) this d l v :
  run fuel prog (initial capacity) = Some s →
  objs s !! this = Some d → contents s this = Some l →
  (avail (mem s) = 0%N →
     PushBack this v s = Fault ∧ PushBack_move this v s = Fault) ∧
  (avail (mem s) ≠ 0%N →
     ∃ s' d' p,
       PushBack this v s = Ok tt s' ∧ PushBack_move this v s = Ok tt s' ∧
       objs s' !! this = Some d' ∧
       contents s' this = Some (l ++ [v]) ∧
       size d' = uint (size d + 1) ∧
       PeekTail this s' = Ok v s' ∧
       trace s' = trace s ++ [EvAlloc this p] ∧
       avail (mem s') = (avail (mem s) - 1)%N ∧
       ∀ r, r ≠ this →
         objs s' !! r = objs s !! r ∧ contents s' r = contents s r).
Proof.
  intros Hrun Hthis Hl. destruct (reachable_inv _ _ _ _ Hrun) as [L Hinv].
  rewrite (contents_inv L s this d Hinv Hthis) in Hl. injection Hl as <-.
  split.
  - intros Hav. split; exact (PushBack_fault s this v Hav).
  - intros Hav.
    destruct (PushBack_inv L s this d v Hinv Hthis Hav)
      as (p & s' & _ & Hpush & Hinv' & Hobjs & Htr & Hav' & _).
    assert (Hthis' : objs s' !! this = Some (mk_deque
              (if (head d =? nullptr)%N then p else head d) p
              (uint (size d + 1)) (allocator d)))
      by (by rewrite Hobjs, lookup_insert_eq).
    eexists s', _, p.
    split_and!; [exact Hpush|exact Hpush|exact Hthis'| |done| |exact Htr|exact Hav'|].
    + rewrite (contents_inv _ s' this _ Hinv' Hthis'), fn_lookup_insert.
      by rewrite fmap_app.
    + eapply (PeekTail_last _ s' this _ (L this) p v Hinv' Hthis').
      by rewrite fn_lookup_insert.
    + intros r Hr.
      assert (objs s' !! r = objs s !! r) as Ho by (by rewrite Hobjs, lookup_insert_ne).
      split; [done|].
      eapply (frame_contents L _ s s' r Hinv Hinv'); [|done].
      by rewrite fn_lookup_insert_ne.
Qed.

(** X2. On a deque a caller can reach, [PushFront] (either overload)
    has undefined behaviour when [malloc] fails and otherwise returns
    normally: the value is the new first element, the elements after it
    are the old ones, [size] went up by one in [unsigned int], one block
    was allocated through the deque's allocator, [PeekHead] then returns
    the value, and every other deque is as before. *)
Theorem PushFront_prepends fuel capacity (prog : list (op elemType))
    (s : state) this d l v :
  run fuel prog (initial capacity) = Some s →
  objs s !! this = Some d → contents s this = Some l →
  (avail (mem s) = 0%N →
     PushFront this v s = Fault ∧ PushFront_move this v s = Fault) ∧
  (avail (mem s) ≠ 0%N →
     ∃ s' d' p,
       PushFront this v s = Ok tt s' ∧ PushFront_move this v s = Ok tt s' ∧
       objs s' !! this = Some d' ∧
       contents s' this = Some (v :: l) ∧
       size d' = uint (size d + 1) ∧
       PeekHead this s' = Ok v s' ∧
       trace s' = trace s ++ [EvAlloc this p] ∧
       avail (mem s') = (avail (mem s) - 1)%N ∧
       ∀ r, r ≠ this →
         objs s' !! r = objs s !! r ∧ contents s' r = contents s r).
Proof.
  intros Hrun Hthis Hl. destruct (reachable_inv _ _ _ _ Hrun) as [L Hinv].
  rewrite (contents_inv L s this d Hinv Hthis) in Hl. injection Hl as <-.
  split.
  - intros Hav. split; exact (PushFront_fault s this v Hav).
  - intros Hav.
    destruct (PushFront_inv L s this d v Hinv Hthis Hav)
      as (p & s' & _ & Hpush & Hinv' & Hobjs & Htr & Hav' & _).
    assert (Hthis' : objs s' !! this = Some (mk_deque p
              (if (tail d =? nullptr)%N then p else tail d)
              (uint (size d + 1)) (allocator d)))
      by (by rewrite Hobjs, lookup_insert_eq).
    eexists s', _, p.
    split_and!; [exact Hpush|exact Hpush|exact Hthis'| |done| |exact Htr|exact Hav'|].
    + by rewrite (contents_inv _ s' this _ Hinv' Hthis'), fn_lookup_insert.
    + eapply (PeekHead_first _ s' this _ (L this) p v Hinv' Hthis').
      by rewrite fn_lookup_insert.
    + intros r Hr.
      assert (objs s' !! r = objs s !! r) as Ho by (by rewrite Hobjs, lookup_insert_ne).
      split; [done|].
      eapply (frame_contents L _ s s' r Hinv Hinv'); [|done].
      by rewrite fn_lookup_insert_ne.
Qed.

(** X3. On a deque a caller can reach whose elements are [v :: rest],
    [PopFront] returns normally and leaves the elements [rest]: [size]
    went down by one in [unsigned int], the old head node, and no other
    block, was released through the deque's allocator, and every other
    deque is as before. *)
Theorem PopFront_removes_first fuel capacity (prog : list (op elemType))
    (s : state) this d v rest :
  run fuel prog (initial capacity) = Some s →
  objs s !! this = Some d → contents s this = Some (v :: rest) →
  ∃ s' d',
    PopFront this s = Ok tt s' ∧
    objs s' !! this = Some d' ∧
    contents s' this = Some rest ∧
    size d' = uint (size d - 1) ∧
    trace s' = trace s ++ [EvDealloc this (head d)] ∧
    avail (mem s') = (avail (mem s) + 1)%N ∧
    ∀ r, r ≠ this →
      objs s' !! r = objs s !! r ∧ contents s' r = contents s r.
Proof.
  intros Hrun Hthis Hl. destruct (reachable_inv _ _ _ _ Hrun) as [L Hinv].
  rewrite (contents_inv L s this d Hinv Hthis) in Hl.
  destruct (L this) as [|[p w] l0] eqn:HL; [done|]. injection Hl as <- <-.
  destruct (PopFront_inv L s this d l0 p w Hinv Hthis HL)
    as (s' & Hpop & Hinv' & Hobjs & Htr & Hav' & Hhd).
  assert (Hthis' : objs s' !! this = Some (mk_deque (first_ptr l0 nullptr)
            (last_ptr l0 nullptr) (uint (size d - 1)) (allocator d)))
    by (by rewrite Hobjs, lookup_insert_eq).
  eexists s', _.
  split_and!; [exact Hpop|exact Hthis'| |done|by rewrite Hhd|exact Hav'|].
  - by rewrite (contents_inv _ s' this _ Hinv' Hthis'), fn_lookup_insert.
  - intros r Hr.
    assert (objs s' !! r = objs s !! r) as Ho by (by rewrite Hobjs, lookup_insert_ne).
    split; [done|].
    eapply (frame_contents L _ s s' r Hinv Hinv'); [|done].
    by rewrite fn_lookup_insert_ne.
Qed.

(** X4. On a deque a caller can reach whose elements are
    [rest ++ [v]], [PopBack] returns normally and leaves the elements
    [rest]: [size] went down by one in [unsigned int], the old tail node,
    and no other block, was released through the deque's allocator, and
    every other deque is as before. *)
Theorem PopBack_removes_last fuel capacity (prog : list (op elemType))
    (s : state) this d v rest :
  run fuel prog (initial capacity) = Some s →
  objs s !! this = Some d → contents s this = Some (rest ++ [v]) →
  ∃ s' d',
    PopBack this s = Ok tt s' ∧
    objs s' !! this = Some d' ∧
    contents s' this = Some rest ∧
    size d' = uint (size d - 1) ∧
    trace s' = trace s ++ [EvDealloc this (tail d)] ∧
    avail (mem s') = (avail (mem s) + 1)%N ∧
    ∀ r, r ≠ this →
      objs s' !! r = objs s !! r ∧ contents s' r = contents s r.
Proof.
  intros Hrun Hthis Hl. destruct (reachable_inv _ _ _ _ Hrun) as [L Hinv].
  rewrite (contents_inv L s this d Hinv Hthis) in Hl.
  destruct (snoc_cases (L this)) as [HL|(l0 & [p w] & HL)].
  { rewrite HL in Hl. injection Hl as Hl. by destruct rest. }
  rewrite HL, fmap_app in Hl. injection Hl as Hl.
  apply app_inj_tail in Hl as [<- <-].
  destruct (PopBack_inv L s this d l0 p w Hinv Hthis HL)
    as (s' & Hpop & Hinv' & Hobjs & Htr & Hav' & Htl).
  assert (Hthis' : objs s' !! this = Some (mk_deque (first_ptr l0 nullptr)
            (last_ptr l0 nullptr) (uint (size d - 1)) (allocator d)))
    by (by rewrite Hobjs, lookup_insert_eq).
  eexists s', _.
  split_and!; [exact Hpop|exact Hthis'| |done|by rewrite Htl|exact Hav'|].
  - by rewrite (contents_inv _ s' this _ Hinv' Hthis'), fn_lookup_insert.
  - intros r Hr.
    assert (objs s' !! r = objs s !! r) as Ho by (by rewrite Hobjs, lookup_insert_ne).
    split; [done|].
    eapply (frame_contents L _ s s' r Hinv Hinv'); [|done].
    by rewrite fn_lookup_insert_ne.
Qed.

(** X5. On a deque a caller can reach, [Size] changes nothing and
    returns the number of elements modulo [2^32]: the number itself when
    the deque holds fewer than [2^32] elements, as every deque does on a
    system that cannot hold [2^32] nodes; and then [Size] is 0 exactly when
    [IsEmpty] is true. *)
Theorem Size_counts_elements fuel capacity (prog : list (op elemType))
    (s : state) this d l :
  run fuel prog (initial capacity) = Some s →
  objs s !! this = Some d → contents s this = Some l →
  Size this s = Ok (uint (Z.of_nat (length l))) s ∧
  (Z.of_nat (length l) < UINT_MOD →
     Size this s = Ok (Z.of_nat (length l)) s ∧
     (IsEmpty this s = Ok true s ↔ Size this s = Ok 0 s)) ∧
  (Z.of_N capacity < UINT_MOD → Z.of_nat (length l) < UINT_MOD).
Proof.
  intros Hrun Hthis Hl. destruct (reachable_inv _ _ _ _ Hrun) as [L Hinv].
  pose proof (run_blocks _ _ _ _ Hrun) as Hcons.
  pose proof (chain_length_le L s this d Hinv Hthis) as Hlen.
  rewrite (contents_inv L s this d Hinv Hthis) in Hl. injection Hl as <-.
  rewrite length_fmap.
  pose proof Hinv as [Hreps _]. pose proof (Hreps this d Hthis) as Hrep.
  pose proof (repr_head_nil _ _ _ Hrep) as Hhnil.
  destruct Hrep as (_ & _ & _ & _ & Hsz).
  assert (HSize : Size this s = Ok (size d) s).
  { unfold_methods. by rewrite Hthis. }
  assert (HIs : IsEmpty this s = Ok (head d =? nullptr)%N s).
  { unfold_methods. reduce. by rewrite Hthis. }
  split_and!.
  - by rewrite HSize, Hsz.
  - intros Hsmall. rewrite HSize, HIs, Hsz, uint_small by lia. split; [done|].
    split.
    + intros [= E]. apply N.eqb_eq, Hhnil in E. by rewrite E.
    + intros [= E]. assert (L this = []) as HL by (destruct (L this); [done|simpl in E; lia]).
      apply Hhnil in HL. by rewrite HL.
  - intros Hcap. unfold blocks in Hcons. cbn [initial mem cells avail] in Hcons.
    rewrite map_size_empty in Hcons. lia.
Qed.

End EndEffects.

(** ** Clearing, destroying and constructing *)

Section Lifetime.

Context {elemType : Type} `{!node_layout}.
Abbreviation state := (state elemType simple_allocator_t).
Abbreviation node_t := (node_t elemType).

(** X6. On a deque a caller can reach, [Clear] returns normally and
    leaves the deque empty, with [head] and [tail] null and [size] 0; it
    released every node of the deque, from the last to the first, through
    the deque's own allocator, and no other block; every other deque is as
    before; and clearing again changes nothing. *)
Theorem Clear_empties_and_releases fuel capacity (prog : list (op elemType))
    (s : state) fuel' this d l ns :
  run fuel prog (initial capacity) = Some s →
  objs s !! this = Some d →
  contents s this = Some l → nodes s this = Some ns →
  (length l ≤ fuel')%nat →
  ∃ s',
    Clear fuel' this s = Ok tt s' ∧
    objs s' !! this = Some (mk_deque nullptr nullptr 0 (allocator d)) ∧
    contents s' this = Some [] ∧
    IsEmpty this s' = Ok true s' ∧
    trace s' = trace s ++ (EvDealloc this <$> reverse ns) ∧
    avail (mem s') = (avail (mem s) + N.of_nat (length l))%N ∧
    (∀ r, r ≠ this → objs s' !! r = objs s !! r ∧ contents s' r = contents s r) ∧
    (∀ fuel'', Clear fuel'' this s' = Ok tt s').
Proof.
  intros Hrun Hthis Hl Hns Hfuel. destruct (reachable_inv _ _ _ _ Hrun) as [L Hinv].
  rewrite (contents_inv L s this d Hinv Hthis) in Hl. injection Hl as <-.
  rewrite (nodes_inv L s this d Hinv Hthis) in Hns. injection Hns as <-.
  rewrite length_fmap in *.
  destruct (Clear_spec this (L this) L s d fuel' Hinv Hthis eq_refl Hfuel)
    as (s' & Hclear & Hinv' & Hthis' & Hframe & Htr & Hav).
  exists s'. split_and!; [done|done| | |done|done| |].
  - by rewrite (contents_inv _ s' this _ Hinv' Hthis'), fn_lookup_insert.
  - by rewrite (IsEmpty_run s' this _ Hthis').
  - intros r Hr. split; [by apply Hframe|].
    eapply (frame_contents L _ s s' r Hinv Hinv'); [|by apply Hframe].
    by rewrite fn_lookup_insert_ne.
  - intros fuel''. by apply (Clear_empty fuel'' this s' _ Hthis').
Qed.

(** X7. The destructor of a deque a caller can reach returns normally:
    the object is gone, every node it held was released, from the last to
    the first, through its own allocator, and every other deque is as
    before. *)
Theorem destructor_releases_all_nodes fuel capacity (prog : list (op elemType))
    (s : state) fuel' this d l ns :
  run fuel prog (initial capacity) = Some s →
  objs s !! this = Some d →
  contents s this = Some l → nodes s this = Some ns →
  (length l ≤ fuel')%nat →
  ∃ s',
    destructor fuel' this s = Ok tt s' ∧
    objs s' !! this = None ∧
    trace s' = trace s ++ (EvDealloc this <$> reverse ns) ∧
    avail (mem s') = (avail (mem s) + N.of_nat (length l))%N ∧
    base.size (cells (mem s')) = (base.size (cells (mem s)) - length l)%nat ∧
    (∀ r, r ≠ this → objs s' !! r = objs s !! r ∧ contents s' r = contents s r).
Proof.
  intros Hrun Hthis Hl Hns Hfuel. destruct (reachable_inv _ _ _ _ Hrun) as [L Hinv].
  rewrite (contents_inv L s this d Hinv Hthis) in Hl. injection Hl as <-.
  rewrite (nodes_inv L s this d Hinv Hthis) in Hns. injection Hns as <-.
  rewrite length_fmap in *.
  destruct (Clear_spec this (L this) L s d fuel' Hinv Hthis eq_refl Hfuel)
    as (s1 & Hclear & Hinv1 & Hthis1 & Hframe & Htr & Hav).
  pose proof (conserves_Clear fuel' this s) as Hcons. rewrite Hclear in Hcons.
  pose proof (preserves_delete_object false this _ s1 (Inv_false _ s1 Hinv1)) as Hdel.
  unfold destructor, bind. rewrite Hclear.
  unfold delete_object in *. rewrite Hthis1 in *.
  destruct Hdel as (L' & [Hinv' _] & Hframe').
  eexists. split; [done|]. cbn [objs mem trace].
  split_and!; [by rewrite lookup_delete_eq|done|done| |].
  - unfold blocks in Hcons. lia.
  - intros r Hr. destruct (Hframe' r) as [HL' Hobj']; [done|]. cbn [objs] in Hobj'.
    assert (delete this (objs s1) !! r = objs s !! r) as Ho
      by (rewrite Hobj'; by apply Hframe).
    split; [done|].
    eapply (frame_contents L L' s _ r Hinv Hinv'); [|done].
    by rewrite HL', fn_lookup_insert_ne.
Qed.

(** [PushBack] of each value of a list, with room for all of them. *)
Lemma push_back_list_spec this (l : list elemType) :
  ∀ L (s : state),
  inv L s → is_Some (objs s !! this) → (N.of_nat (length l) ≤ avail (mem s))%N →
  ∃ s' L' added,
    push_back_list this l s = Ok tt s' ∧
    inv L' s' ∧ L' this = L this ++ added ∧ added.*2 = l ∧
    (∀ r, r ≠ this → L' r = L r ∧ objs s' !! r = objs s !! r) ∧
    is_Some (objs s' !! this) ∧
    trace s' = trace s ++ (EvAlloc this <$> added.*1) ∧
    avail (mem s') = (avail (mem s) - N.of_nat (length l))%N.
Proof.
  induction l as [|v l IH]; intros L s Hinv [d Hthis] Hav.
  - exists s, L, []. rewrite !app_nil_r. split_and!; eauto. simpl. lia.
  - simpl length in Hav. assert (avail (mem s) ≠ 0%N) as Hav0 by lia.
    destruct (PushBack_inv L s this d v Hinv Hthis Hav0)
      as (p & s1 & _ & Hpush & Hinv1 & Hobjs1 & Htr1 & Hav1 & _).
    edestruct (IH _ s1 Hinv1)
      as (s' & L' & added & Hrun & Hinv' & HL' & Hvals & Hframe & Hsome & Htr & Hav');
      [by rewrite Hobjs1, lookup_insert_eq|lia|].
    exists s', L', ((p, v) :: added). split_and!; [|done| | | |done| |].
    + cbn [push_back_list]. unfold bind. by rewrite Hpush.
    + by rewrite HL', fn_lookup_insert, <- app_assoc.
    + rewrite fmap_cons. simpl. by f_equal.
    + intros r Hr. destruct (Hframe r Hr) as [-> ->].
      by rewrite fn_lookup_insert_ne, Hobjs1, lookup_insert_ne.
    + rewrite Htr, Htr1, <- app_assoc. done.
    + rewrite Hav', Hav1. simpl length. lia.
Qed.

(** Without room for all of them, the first [PushBack] without a block
    writes through a null pointer. *)
Lemma push_back_list_fault this (l : list elemType) :
  ∀ L (s : state),
  inv L s → is_Some (objs s !! this) → (avail (mem s) < N.of_nat (length l))%N →
  push_back_list this l s = Fault.
Proof.
  induction l as [|v l IH]; intros L s Hinv [d Hthis] Hav; [simpl in Hav; lia|].
  cbn [push_back_list]. unfold bind.
  destruct (decide (avail (mem s) = 0%N)) as [Hav0|Hav0].
  - by rewrite (PushBack_fault s this v Hav0).
  - destruct (PushBack_inv L s this d v Hinv Hthis Hav0)
      as (p & s1 & _ & Hpush & Hinv1 & Hobjs1 & _ & Hav1 & _).
    rewrite Hpush. apply (IH _ s1 Hinv1).
    + by rewrite Hobjs1, lookup_insert_eq.
    + rewrite Hav1. simpl length in Hav. lia.
Qed.

(** X8. Where a caller can get to, the default constructor makes an
    empty deque without touching the heap, and the constructor from an
    initializer list makes a deque with the values of the list in their
    order: [size] is their number in [unsigned int], one block was
    allocated per value, and every other deque is as before. Without room
    for all the values the constructor has undefined behaviour. *)
Theorem constructors_build_the_list fuel capacity (prog : list (op elemType))
    (s : state) this (list : list elemType) :
  run fuel prog (initial capacity) = Some s →
  objs s !! this = None →
  (∃ s', deque_t_default this s = Ok tt s' ∧
         objs s' !! this = Some (mk_deque nullptr nullptr 0 SimpleAllocator) ∧
         contents s' this = Some [] ∧ mem s' = mem s ∧ trace s' = trace s ∧
         ∀ r, r ≠ this → objs s' !! r = objs s !! r ∧ contents s' r = contents s r) ∧
  ((N.of_nat (length list) ≤ avail (mem s))%N →
   ∃ s' d',
     deque_t_list this list s = Ok tt s' ∧
     objs s' !! this = Some d' ∧
     contents s' this = Some list ∧
     size d' = uint (Z.of_nat (length list)) ∧
     avail (mem s') = (avail (mem s) - N.of_nat (length list))%N ∧
     ∀ r, r ≠ this → objs s' !! r = objs s !! r ∧ contents s' r = contents s r) ∧
  ((avail (mem s) < N.of_nat (length list))%N → deque_t_list this list s = Fault).
Proof.
  intros Hrun Hthis. destruct (reachable_inv _ _ _ _ Hrun) as [L Hinv].
  pose proof (preserves_new_object false this L s (Inv_false L s Hinv)) as Hnew.
  unfold deque_t_list, deque_t_default, bind.
  destruct (new_object this nullptr nullptr 0 s) as [[] s1|w s1| |] eqn:Hn1;
    try (unfold new_object in Hn1; rewrite Hthis in Hn1; done).
  destruct Hnew as (L1 & [Hinv1 _] & Hframe1).
  assert (objs s1 = <[this := mk_deque nullptr nullptr 0 inhabitant]> (objs s) ∧
          mem s1 = mem s ∧ trace s1 = trace s) as (Hobjs1 & Hmem1 & Htr1).
  { unfold new_object in Hn1. rewrite Hthis in Hn1. by injection Hn1 as <-. }
  assert (Hthis1 : objs s1 !! this = Some (mk_deque nullptr nullptr 0 inhabitant)).
  { by rewrite Hobjs1, lookup_insert_eq. }
  assert (HL1 : L1 this = []).
  { destruct Hinv1 as [Hreps1 _]. pose proof (Hreps1 this _ Hthis1) as Hr.
    by apply (repr_head_nil _ _ _ Hr). }
  assert (Hfr1 : ∀ r, r ≠ this →
            objs s1 !! r = objs s !! r ∧ contents s1 r = contents s r).
  { intros r Hr. destruct (Hframe1 r) as [HLr Hor]; [done|]. split; [done|].
    by eapply (frame_contents L L1 s s1 r Hinv Hinv1). }
  split_and!.
  - exists s1. split_and!; try done.
    by rewrite (contents_inv L1 s1 this _ Hinv1 Hthis1), HL1.
  - intros Hav. rewrite <- Hmem1 in Hav.
    destruct (push_back_list_spec this list L1 s1 Hinv1 (mk_is_Some _ _ Hthis1) Hav)
      as (s' & L' & added & Hpush & Hinv' & HL' & Hvals & Hframe & [d' Hthis'] & _ & Hav').
    exists s', d'. split_and!; [done|done| | | |].
    + by rewrite (contents_inv L' s' this d' Hinv' Hthis'), HL', HL1, app_nil_l, Hvals.
    + destruct Hinv' as [Hreps' _]. destruct (Hreps' this d' Hthis') as (_ & _ & _ & _ & ->).
      by rewrite HL', HL1, app_nil_l, <- Hvals, length_fmap.
    + by rewrite Hav', Hmem1.
    + intros r Hr. destruct (Hframe r Hr) as [HLr Hor]. destruct (Hfr1 r Hr) as [Ho1 Hc1].
      split; [congruence|]. rewrite <- Hc1.
      by eapply (frame_contents L1 L' s1 s' r Hinv1 Hinv').
  - intros Hav. rewrite <- Hmem1 in Hav.
    by apply (push_back_list_fault this list L1 s1 Hinv1 (mk_is_Some _ _ Hthis1)).
Qed.

(** X9. On a deque a caller can reach, assigning through the
    reference that [GetFront] returns replaces the first element and
    nothing else, and assigning through the reference that [GetBack]
    returns replaces the last one; the deque objects, the trace and the
    number of blocks are as before, and the peek at that end then returns
    the new value. On an empty deque both throw and change nothing. *)
Theorem reference_write_replaces_end fuel capacity (prog : list (op elemType))
    (s : state) this d l v :
  run fuel prog (initial capacity) = Some s →
  objs s !! this = Some d → contents s this = Some l →
  (l = [] →
     GetFront_assign this v s = Throw EmptyContainer s ∧
     GetBack_assign this v s = Throw EmptyContainer s) ∧
  (∀ w rest, l = w :: rest →
     ∃ s', GetFront_assign this v s = Ok tt s' ∧
           contents s' this = Some (v :: rest) ∧ PeekHead this s' = Ok v s' ∧
           objs s' = objs s ∧ trace s' = trace s ∧ avail (mem s') = avail (mem s) ∧
           ∀ r, r ≠ this → contents s' r = contents s r) ∧
  (∀ w rest, l = rest ++ [w] →
     ∃ s', GetBack_assign this v s = Ok tt s' ∧
           contents s' this = Some (rest ++ [v]) ∧ PeekTail this s' = Ok v s' ∧
           objs s' = objs s ∧ trace s' = trace s ∧ avail (mem s') = avail (mem s) ∧
           ∀ r, r ≠ this → contents s' r = contents s r).
Proof.
  intros Hrun Hthis Hl. destruct (reachable_inv _ _ _ _ Hrun) as [L Hinv].
  rewrite (contents_inv L s this d Hinv Hthis) in Hl. injection Hl as <-.
  pose proof Hinv as [Hreps _]. pose proof (Hreps this d Hthis) as Hrep.
  pose proof (repr_head_nil _ _ _ Hrep) as Hhnil.
  pose proof (repr_tail_nil _ _ _ Hrep) as Htnil.
  destruct Hrep as (_ & _ & Hhd & Htl & _).
  split_and!.
  - intros HL%fmap_nil_inv.
    assert (head d = nullptr) as Hh by (by apply Hhnil).
    assert (tail d = nullptr) as Ht by (by apply Htnil).
    unfold GetFront_assign, GetBack_assign, get_head, get_tail, bind, object.
    rewrite Hthis. cbn [ret]. by rewrite Hh, Ht.
  - intros w rest Hl.
    destruct (L this) as [|[p w'] l0] eqn:HL; [done|]. injection Hl as <- <-.
    destruct (inv_set_value L s this d [] p w' l0 v Hinv Hthis HL)
      as (n & Hcell & Hp & Hinv').
    simpl in Hhd.
    eexists. split.
    { unfold GetFront_assign, get_head, bind, object. rewrite Hthis. cbn [ret].
      rewrite Hhd, (eqb_nullptr_false p Hp). by apply store_value_run. }
    cbn [objs mem trace avail].
    split_and!; try done.
    + by rewrite (contents_inv _ _ this d Hinv' Hthis), fn_lookup_insert.
    + eapply (PeekHead_first _ _ this d l0 p v Hinv' Hthis). by rewrite fn_lookup_insert.
    + intros r Hr. eapply (frame_contents L _ s _ r Hinv Hinv'); [|done].
      by rewrite fn_lookup_insert_ne.
  - intros w rest Hl.
    destruct (snoc_cases (L this)) as [HL|(l0 & [p w'] & HL)].
    { rewrite HL in Hl. by destruct rest. }
    rewrite HL, fmap_app in Hl. apply app_inj_tail in Hl as [<- <-].
    destruct (inv_set_value L s this d l0 p w' [] v Hinv Hthis HL)
      as (n & Hcell & Hp & Hinv').
    rewrite HL, last_ptr_app in Htl. simpl in Htl.
    eexists. split.
    { unfold GetBack_assign, get_tail, bind, object. rewrite Hthis. cbn [ret].
      rewrite Htl, (eqb_nullptr_false p Hp). by apply store_value_run. }
    cbn [objs mem trace avail].
    split_and!; try done.
    + by rewrite (contents_inv _ _ this d Hinv' Hthis), fn_lookup_insert, fmap_app.
    + eapply (PeekTail_last _ _ this d l0 p v Hinv' Hthis). by rewrite fn_lookup_insert.
    + intros r Hr. eapply (frame_contents L _ s _ r Hinv Hinv'); [|done].
      by rewrite fn_lookup_insert_ne.
Qed.

End Lifetime.

(** ** Iterators over a reachable deque *)

Section Iteration.

Context {elemType : Type} `{!node_layout}.
Abbreviation state := (state elemType simple_allocator_t).
Abbreviation node_t := (node_t elemType).

Lemma chain_nth (c : gmap N node_t) pv (l : list (ptr * elemType)) nx k p v :
  chain c pv l nx → l !! k = Some (p, v) →
  p ≠ nullptr ∧ ∃ pv' nx', c !! p = Some (mk_node (Init v) (Init pv') (Init nx')).
Proof.
  intros Hc Hk. rewrite <- (take_drop_middle l k (p, v) Hk) in Hc.
  apply chain_lookup_mid in Hc as [Hp Hcell]. eauto.
Qed.

Lemma deref_run (s : state) p v pv nx :
  p ≠ nullptr → cells (mem s) !! p = Some (mk_node (Init v) pv nx) →
  iterator.deref (iterator.mk p) s = Ok v s ∧
  reverse_iterator.deref (reverse_iterator.mk p) s = Ok v s.
Proof.
  intros Hp Hc. unfold iterator.deref, reverse_iterator.deref.
  cbn [iterator.curNode reverse_iterator.curNode].
  unfold_methods. by rewrite (eqb_nullptr_false p Hp), Hc.
Qed.

(** X10. On a deque a caller can reach, the iterator obtained from
    [begin()] by [k] increments stands on element number [k] (counted
    from 0): it differs from [end()] and dereferencing it gives that
    element. After as many increments as the deque has elements it is
    [end()], and one more increment throws. Nothing of this changes the
    state. *)
Theorem iterator_reaches_each_element fuel capacity (prog : list (op elemType))
    (s : state) this d l k :
  run fuel prog (initial capacity) = Some s →
  objs s !! this = Some d → contents s this = Some l →
  (∀ v, l !! k = Some v →
     ∃ it, (b <- begin this ;; advance k b) s = Ok it s ∧
           iterator.neq it (iterator.mk nullptr) = true ∧
           iterator.deref it s = Ok v s) ∧
  (k = length l →
     (b <- begin this ;; advance k b) s = Ok (iterator.mk nullptr) s ∧
     end_ this s = Ok (iterator.mk nullptr) s ∧
     iterator.deref (iterator.mk nullptr) s = Throw InvalidIterator s) ∧
  ((length l < k)%nat →
     (b <- begin this ;; advance k b) s = Throw InvalidIterator s).
Proof.
  intros Hrun Hthis Hl. destruct (reachable_inv _ _ _ _ Hrun) as [L Hinv].
  rewrite (contents_inv L s this d Hinv Hthis) in Hl. injection Hl as <-.
  rewrite length_fmap.
  pose proof Hinv as [Hreps _]. destruct (Hreps this d Hthis) as (Hc & _ & Hhd & _).
  assert (Hadv : (b <- begin this ;; advance k b) s =
                 if (k <=? length (L this))%nat
                 then Ok (iterator.mk (first_ptr (drop k (L this)) nullptr)) s
                 else Throw InvalidIterator s).
  { unfold begin, get_head, object, bind. rewrite Hthis. cbn [ret]. rewrite Hhd.
    apply (advance_chain s nullptr (L this) k Hc). }
  rewrite Hadv. split_and!.
  - intros v Hv. rewrite list_lookup_fmap in Hv.
    destruct (L this !! k) as [[p w]|] eqn:Hk; [|done]. injection Hv as <-.
    pose proof (lookup_lt_Some _ _ _ Hk) as Hlt.
    destruct (chain_nth _ _ _ _ _ _ _ Hc Hk) as (Hp & pv' & nx' & Hcell).
    rewrite (drop_S _ _ _ Hk). cbn [first_ptr].
    destruct (Nat.leb_spec k (length (L this))) as [_|?]; [|lia].
    eexists. split; [done|]. split.
    + unfold iterator.neq. cbn [iterator.curNode]. by rewrite (eqb_nullptr_false p Hp).
    + by apply (deref_run s p w _ _ Hp Hcell).
  - intros ->. rewrite Nat.leb_refl, drop_all. done.
  - intros Hk. by destruct (Nat.leb_spec k (length (L this))) as [?|_]; [lia|].
Qed.

(** X11. On a deque a caller can reach, the reverse iterator obtained
    from [rbegin()] by [k] increments stands on element number [k]
    counted from the back: it differs from [rend()] and dereferencing it
    gives that element. After as many increments as the deque has elements
    it is [rend()], and one more increment throws. *)
Theorem reverse_iterator_reaches_each_element fuel capacity
    (prog : list (op elemType)) (s : state) this d l k :
  run fuel prog (initial capacity) = Some s →
  objs s !! this = Some d → contents s this = Some l →
  (∀ v, reverse l !! k = Some v →
     ∃ it, (b <- rbegin this ;; radvance k b) s = Ok it s ∧
           reverse_iterator.neq it (reverse_iterator.mk nullptr) = true ∧
           reverse_iterator.deref it s = Ok v s) ∧
  (k = length l →
     (b <- rbegin this ;; radvance k b) s = Ok (reverse_iterator.mk nullptr) s ∧
     rend this s = Ok (reverse_iterator.mk nullptr) s ∧
     reverse_iterator.deref (reverse_iterator.mk nullptr) s = Throw InvalidIterator s) ∧
  ((length l < k)%nat →
     (b <- rbegin this ;; radvance k b) s = Throw InvalidIterator s).
Proof.
  intros Hrun Hthis Hl. destruct (reachable_inv _ _ _ _ Hrun) as [L Hinv].
  rewrite (contents_inv L s this d Hinv Hthis) in Hl. injection Hl as <-.
  rewrite length_fmap.
  pose proof Hinv as [Hreps _]. destruct (Hreps this d Hthis) as (Hc & _ & _ & Htl & _).
  assert (Hadv : (b <- rbegin this ;; radvance k b) s =
                 if (k <=? length (L this))%nat
                 then Ok (reverse_iterator.mk
                            (last_ptr (take (length (L this) - k) (L this)) nullptr)) s
                 else Throw InvalidIterator s).
  { unfold rbegin, get_tail, object, bind. rewrite Hthis. cbn [ret]. rewrite Htl.
    apply (radvance_chain s (L this) nullptr k Hc). }
  rewrite Hadv. split_and!.
  - intros v Hv. pose proof (lookup_lt_Some _ _ _ Hv) as Hlt.
    rewrite length_reverse, length_fmap in Hlt.
    rewrite reverse_lookup in Hv by (by rewrite length_fmap).
    rewrite length_fmap, list_lookup_fmap in Hv.
    destruct (L this !! (length (L this) - S k)%nat) as [[p w]|] eqn:Hk; [|done].
    injection Hv as <-.
    destruct (chain_nth _ _ _ _ _ _ _ Hc Hk) as (Hp & pv' & nx' & Hcell).
    replace (length (L this) - k)%nat with (S (length (L this) - S k)) by lia.
    rewrite (take_S_r _ _ _ Hk), last_ptr_app. cbn [last_ptr].
    destruct (Nat.leb_spec k (length (L this))) as [_|?]; [|lia].
    eexists. split; [done|]. split.
    + unfold reverse_iterator.neq. cbn [reverse_iterator.curNode].
      by rewrite (eqb_nullptr_false p Hp).
    + by apply (deref_run s p w _ _ Hp Hcell).
  - intros ->. rewrite Nat.leb_refl, Nat.sub_diag, take_0. done.
  - intros Hk. by destruct (Nat.leb_spec k (length (L this))) as [?|_]; [lia|].
Qed.

(** X12. On a deque a caller can reach, assigning through the
    iterator [k] increments after [begin()] replaces element number [k]
    and nothing else, and assigning through the reverse iterator [k]
    increments after [rbegin()] replaces element number [k] from the back;
    the deque objects, the chain, the trace and the number of blocks are
    as before. From the number of elements on, the assignment throws and
    changes nothing. *)
Theorem iterator_write_replaces_element fuel capacity (prog : list (op elemType))
    (s : state) this d l k v :
  run fuel prog (initial capacity) = Some s →
  objs s !! this = Some d → contents s this = Some l →
  ((k < length l)%nat →
     (∃ s', write_at this k v s = Ok tt s' ∧
            contents s' this = Some (<[k := v]> l) ∧
            objs s' = objs s ∧ nodes s' this = nodes s this ∧
            trace s' = trace s ∧ avail (mem s') = avail (mem s) ∧
            ∀ r, r ≠ this → contents s' r = contents s r) ∧
     (∃ s', write_at_reversed this k v s = Ok tt s' ∧
            contents s' this = Some (<[(length l - S k)%nat := v]> l) ∧
            objs s' = objs s ∧ nodes s' this = nodes s this ∧
            trace s' = trace s ∧ avail (mem s') = avail (mem s) ∧
            ∀ r, r ≠ this → contents s' r = contents s r)) ∧
  ((length l ≤ k)%nat →
     write_at this k v s = Throw InvalidIterator s ∧
     write_at_reversed this k v s = Throw InvalidIterator s).
Proof.
  intros Hrun Hthis Hl. destruct (reachable_inv _ _ _ _ Hrun) as [L Hinv].
  rewrite (contents_inv L s this d Hinv Hthis) in Hl. injection Hl as <-.
  rewrite length_fmap.
  pose proof Hinv as [Hreps _].
  destruct (Hreps this d Hthis) as (Hc & _ & Hhd & Htl & _).
  assert (Hw : write_at this k v s =
               match (if (k <=? length (L this))%nat
                      then Ok (iterator.mk (first_ptr (drop k (L this)) nullptr)) s
                      else Throw InvalidIterator s) with
               | Ok it s1 => iterator.assign it v s1
               | Throw w s1 => Throw w s1
               | Fault => Fault
               | Timeout => Timeout
               end).
  { unfold write_at, begin, get_head, object, bind. rewrite Hthis. cbn [ret].
    by rewrite Hhd, (advance_chain s nullptr (L this) k Hc). }
  assert (Hrw : write_at_reversed this k v s =
               match (if (k <=? length (L this))%nat
                      then Ok (reverse_iterator.mk
                                 (last_ptr (take (length (L this) - k) (L this)) nullptr)) s
                      else Throw InvalidIterator s) with
               | Ok it s1 => reverse_iterator.assign it v s1
               | Throw w s1 => Throw w s1
               | Fault => Fault
               | Timeout => Timeout
               end).
  { unfold write_at_reversed, rbegin, get_tail, object, bind. rewrite Hthis. cbn [ret].
    by rewrite Htl, (radvance_chain s (L this) nullptr k Hc). }
  assert (Hstep : ∀ i p w, L this !! i = Some (p, w) →
            p ≠ nullptr ∧
            set_value p v s = Ok tt
              (mk_state (objs s)
                 (mk_memory (<[p := mk_node (Init v) (prev (default uninit (cells (mem s) !! p)))
                                       (next (default uninit (cells (mem s) !! p)))]>
                               (cells (mem s))) (avail (mem s)))
                 (trace s)) ∧
            inv (<[this := take i (L this) ++ (p, v) :: drop (S i) (L this)]> L)
              (mk_state (objs s)
                 (mk_memory (<[p := mk_node (Init v) (prev (default uninit (cells (mem s) !! p)))
                                       (next (default uninit (cells (mem s) !! p)))]>
                               (cells (mem s))) (avail (mem s)))
                 (trace s)) ∧
            (take i (L this) ++ (p, v) :: drop (S i) (L this)).*2 = <[i := v]> (L this).*2 ∧
            (take i (L this) ++ (p, v) :: drop (S i) (L this)).*1 = (L this).*1).
  { intros i p w Hi. pose proof (take_drop_middle _ _ _ Hi) as Hmid. symmetry in Hmid.
    destruct (inv_set_value L s this d _ p w _ v Hinv Hthis Hmid) as (n & Hcell & Hp & Hinv').
    rewrite Hcell. cbn [default]. split_and!; [done|by apply store_value_run|done| |].
    - rewrite (insert_take_drop (L this).*2 i v)
        by (rewrite length_fmap; by eapply lookup_lt_Some).
      by rewrite fmap_app, fmap_cons, fmap_take, fmap_drop.
    - rewrite Hmid at 3. by rewrite !fmap_app, !fmap_cons. }
  split.
  - intros Hk. split.
    + destruct (lookup_lt_is_Some_2 (L this) k Hk) as [[p w] Hi].
      destruct (Hstep k p w Hi) as (Hp & Hset & Hinv' & Hvals & Hptrs).
      eexists. split.
      { rewrite Hw. destruct (Nat.leb_spec k (length (L this))) as [_|?]; [|lia].
        unfold iterator.assign. cbn [iterator.curNode].
        rewrite (drop_S _ _ _ Hi). cbn [first_ptr].
        rewrite (eqb_nullptr_false p Hp). exact Hset. }
      cbn [objs mem trace avail]. split_and!; try done.
      * by rewrite (contents_inv _ _ this d Hinv' Hthis), fn_lookup_insert, Hvals.
      * rewrite (nodes_inv _ _ this d Hinv' Hthis), fn_lookup_insert, Hptrs.
        by rewrite (nodes_inv L s this d Hinv Hthis).
      * intros r Hr. eapply (frame_contents L _ s _ r Hinv Hinv'); [|done].
        by rewrite fn_lookup_insert_ne.
    + assert (length (L this) - S k < length (L this))%nat as Hk' by lia.
      destruct (lookup_lt_is_Some_2 (L this) _ Hk') as [[p w] Hi].
      destruct (Hstep _ p w Hi) as (Hp & Hset & Hinv' & Hvals & Hptrs).
      eexists. split.
      { rewrite Hrw. destruct (Nat.leb_spec k (length (L this))) as [_|?]; [|lia].
        unfold reverse_iterator.assign. cbn [reverse_iterator.curNode].
        replace (length (L this) - k)%nat with (S (length (L this) - S k)) by lia.
        rewrite (take_S_r _ _ _ Hi), last_ptr_app. cbn [last_ptr].
        rewrite (eqb_nullptr_false p Hp). exact Hset. }
      cbn [objs mem trace avail]. split_and!; try done.
      * by rewrite (contents_inv _ _ this d Hinv' Hthis), fn_lookup_insert, Hvals.
      * rewrite (nodes_inv _ _ this d Hinv' Hthis), fn_lookup_insert, Hptrs.
        by rewrite (nodes_inv L s this d Hinv Hthis).
      * intros r Hr. eapply (frame_contents L _ s _ r Hinv Hinv'); [|done].
        by rewrite fn_lookup_insert_ne.
  - intros Hk. rewrite Hw, Hrw.
    destruct (Nat.leb_spec k (length (L this))) as [Hle|_]; [|done].
    assert (k = length (L this)) as -> by lia.
    by rewrite drop_all, Nat.sub_diag, take_0.
Qed.

(** X13. On a deque a caller can reach, the loop of [operator<<]
    reads the elements from the first to the last and the loop over
    [rbegin()]..[rend()] reads them from the last to the first; both end
    after as many steps as the deque has elements and leave the state as
    it is. *)
Theorem traversals_read_the_sequence fuel capacity (prog : list (op elemType))
    (s : state) fuel' this d l :
  run fuel prog (initial capacity) = Some s →
  objs s !! this = Some d → contents s this = Some l →
  (length l ≤ fuel')%nat →
  output fuel' this s = Ok l s ∧
  output_reversed fuel' this s = Ok (reverse l) s ∧
  contents_reversed s this = Some (reverse l).
Proof.
  intros Hrun Hthis Hl Hfuel. destruct (reachable_inv _ _ _ _ Hrun) as [L Hinv].
  rewrite (contents_inv L s this d Hinv Hthis) in Hl. injection Hl as <-.
  rewrite length_fmap in Hfuel.
  pose proof (contents_reversed_inv L s this d Hinv Hthis) as Hrev.
  destruct Hinv as [Hreps _]. destruct (Hreps this d Hthis) as (Hc & _ & Hhd & Htl & _).
  split_and!; [| |done].
  - unfold output, begin_const, end_const, get_head, object, bind, ret.
    rewrite Hthis, Hhd. by rewrite (walk_chain s nullptr (L this) _ Hc Hfuel).
  - unfold output_reversed, rbegin, rend, get_tail, object, bind, ret.
    rewrite Hthis, Htl. by rewrite (rwalk_chain s (L this) _ _ Hc Hfuel).
Qed.

End Iteration.

(** ** A deque used as its own argument *)

Section Aliasing.

Context {elemType : Type} `{!node_layout}.
Abbreviation state := (state elemType simple_allocator_t).
Abbreviation node_t := (node_t elemType).

Lemma push_back_range_end fuel this (s : state) :
  push_back_range fuel this (const_iterator.mk nullptr) (const_iterator.mk nullptr) s =
  Ok tt s.
Proof. by destruct fuel. Qed.

(** X14. A deque a caller can reach that is assigned to itself, by
    copy or by move, ends up empty: neither [operator=] tests for
    self-assignment, both clear the deque first, releasing every node
    through its allocator, and then find nothing left to copy or to take
    over. *)
Theorem self_assignment_empties fuel capacity (prog : list (op elemType))
    (s : state) fuel' this d l ns :
  run fuel prog (initial capacity) = Some s →
  objs s !! this = Some d →
  contents s this = Some l → nodes s this = Some ns →
  (length l ≤ fuel')%nat →
  ∃ s',
    assign_copy fuel' this this s = Ok tt s' ∧
    assign_move fuel' this this s = Ok tt s' ∧
    objs s' !! this = Some (mk_deque nullptr nullptr 0 (allocator d)) ∧
    contents s' this = Some [] ∧
    trace s' = trace s ++ (EvDealloc this <$> reverse ns) ∧
    avail (mem s') = (avail (mem s) + N.of_nat (length l))%N.
Proof.
  intros Hrun Hthis Hl Hns Hfuel. destruct (reachable_inv _ _ _ _ Hrun) as [L Hinv].
  rewrite (contents_inv L s this d Hinv Hthis) in Hl. injection Hl as <-.
  rewrite (nodes_inv L s this d Hinv Hthis) in Hns. injection Hns as <-.
  rewrite length_fmap in *.
  destruct (Clear_spec this (L this) L s d fuel' Hinv Hthis eq_refl Hfuel)
    as (s' & Hclear & Hinv' & Hthis' & Hframe & Htr & Hav).
  exists s'. split_and!; [| |done| |done|done].
  - unfold assign_copy, bind. rewrite Hclear.
    unfold push_back_all, begin_const, end_const, get_head, object, bind, ret.
    rewrite Hthis'. cbn [head]. apply push_back_range_end.
  - rewrite assign_move_eq. unfold bind. rewrite Hclear.
    rewrite (take_over_self_run s' this _ Hthis'). cbn [allocator].
    f_equal. destruct s' as [o m t]. cbn [objs mem trace] in *. f_equal.
    by apply insert_id.
  - by rewrite (contents_inv _ s' this _ Hinv' Hthis'), fn_lookup_insert.
Qed.

Lemma link_next_is_Some (c : gmap N node_t) t p q :
  is_Some (c !! q) → is_Some (link_next t p c !! q).
Proof.
  intros Hq. unfold link_next. destruct (t =? nullptr)%N; [done|].
  destruct (c !! t) as [nt|] eqn:Ht; [|done].
  destruct (decide (t = q)) as [->|Hne];
    [by rewrite lookup_insert_eq|by rewrite lookup_insert_ne].
Qed.

Lemma link_prev_is_Some (c : gmap N node_t) h p q :
  is_Some (c !! q) → is_Some (link_prev h p c !! q).
Proof.
  intros Hq. unfold link_prev. destruct (h =? nullptr)%N; [done|].
  destruct (c !! h) as [nh|] eqn:Hh; [|done].
  destruct (decide (h = q)) as [->|Hne];
    [by rewrite lookup_insert_eq|by rewrite lookup_insert_ne].
Qed.

(** X15. A non-empty deque a caller can reach that is move-merged
    into itself ends up empty while none of its nodes is released: the
    call returns normally, [head] and [tail] are null and [size] is 0,
    nothing was deallocated, every node of the old chain is still a live
    block, and a later [Clear] finds nothing to release. *)
Theorem self_move_merge_leaks fuel capacity (prog : list (op elemType))
    (s : state) this d l ns :
  run fuel prog (initial capacity) = Some s →
  objs s !! this = Some d →
  contents s this = Some l → nodes s this = Some ns →
  l ≠ [] →
  ∃ s',
    AddOtherDeque_move this this s = Ok tt s' ∧
    objs s' !! this = Some (mk_deque nullptr nullptr 0 (allocator d)) ∧
    contents s' this = Some [] ∧
    trace s' = trace s ∧ avail (mem s') = avail (mem s) ∧
    (∀ p, p ∈ ns → is_Some (cells (mem s') !! p)) ∧
    (∀ fuel', Clear fuel' this s' = Ok tt s').
Proof.
  intros Hrun Hthis Hl Hns Hne. destruct (reachable_inv _ _ _ _ Hrun) as [L Hinv].
  rewrite (contents_inv L s this d Hinv Hthis) in Hl. injection Hl as <-.
  rewrite (nodes_inv L s this d Hinv Hthis) in Hns. injection Hns as <-.
  assert (HL : L this ≠ []) by (by intros E; rewrite E in Hne).
  pose proof Hinv as [Hreps _]. pose proof (Hreps this d Hthis) as Hrep.
  assert (Hh : head d ≠ nullptr) by (by rewrite (repr_head_nil _ _ _ Hrep)).
  assert (Ht : tail d ≠ nullptr) by (by rewrite (repr_tail_nil _ _ _ Hrep)).
  destruct Hrep as (_ & _ & Hhd & Htl & _).
  assert (Hhin : head d ∈ (L this).*1) by (rewrite Hhd; by apply first_ptr_in).
  assert (Htin : tail d ∈ (L this).*1) by (rewrite Htl; by apply last_ptr_in).
  destruct (inv_live L s this d _ Hinv Hthis Hhin) as [_ Hhl].
  destruct (inv_live L s this d _ Hinv Hthis Htin) as [_ Htlv].
  pose proof (preserves_AddOtherDeque_move this this L s (Inv_false L s Hinv)) as Hpres.
  rewrite (AddOtherDeque_move_self s this d Hthis Ht Hh Htlv Hhl) in Hpres |- *.
  destruct Hpres as (L' & [Hinv' _] & _).
  eexists. split; [done|]. cbn [objs mem trace avail cells] in *.
  assert (Hthis' : <[this := mk_deque nullptr nullptr 0 (allocator d)]> (objs s) !! this =
                   Some (mk_deque nullptr nullptr 0 (allocator d)))
    by apply lookup_insert_eq.
  assert (HL' : L' this = []).
  { destruct Hinv' as [Hreps' _]. pose proof (Hreps' this _ Hthis') as Hr.
    by apply (repr_head_nil _ _ _ Hr). }
  split_and!; try done.
  - by rewrite (contents_inv L' _ this _ Hinv' Hthis'), HL'.
  - intros p Hp. destruct (inv_live L s this d p Hinv Hthis Hp) as [_ Hlive].
    by apply link_prev_is_Some, link_next_is_Some.
  - intros fuel'. by eapply Clear_empty.
Qed.

(** The loop of the copy merge over the deque it appends to: the
    iterator never reaches the end, since every step puts one more node
    behind it. *)
Lemma push_back_range_self fuel' this :
  ∀ L (s : state) l1 q v l2,
  inv L s → is_Some (objs s !! this) → L this = l1 ++ (q, v) :: l2 →
  push_back_range fuel' this (const_iterator.mk q) (const_iterator.mk nullptr) s =
  if (N.of_nat fuel' <=? avail (mem s))%N then Timeout else Fault.
Proof.
  induction fuel' as [|fuel' IH]; intros L s l1 q v l2 Hinv [d Hthis] HL.
  all: pose proof Hinv as [Hreps _]; destruct (Hreps this d Hthis) as (Hc & _).
  all: rewrite HL in Hc; destruct (chain_lookup_mid _ _ _ _ _ _ _ Hc) as [Hq Hcell].
  all: cbn [push_back_range]; unfold const_iterator.neq; cbn [const_iterator.curNode].
  all: rewrite (eqb_nullptr_false q Hq); cbn [negb].
  - by destruct (N.leb_spec (N.of_nat 0) (avail (mem s))); [|lia].
  - unfold bind at 1. rewrite (const_deref_run s q v _ _ Hq Hcell).
    unfold bind at 1.
    destruct (decide (avail (mem s) = 0%N)) as [Hav|Hav].
    { rewrite (PushBack_fault s this v Hav), Hav.
      by destruct (N.leb_spec (N.of_nat (S fuel')) 0) as [?|_]; [lia|]. }
    destruct (PushBack_inv L s this d v Hinv Hthis Hav)
      as (p & s1 & _ & Hpush & Hinv1 & Hobjs1 & _ & Hav1 & _).
    rewrite Hpush. unfold bind at 1.
    pose proof Hinv1 as [Hreps1 _].
    assert (Hthis1 : is_Some (objs s1 !! this)) by (by rewrite Hobjs1, lookup_insert_eq).
    destruct Hthis1 as [d1 Hthis1]. destruct (Hreps1 this d1 Hthis1) as (Hc1 & _).
    rewrite fn_lookup_insert, HL, <- app_assoc in Hc1. simpl in Hc1.
    destruct (chain_lookup_mid _ _ _ _ _ _ _ Hc1) as [_ Hcell1].
    rewrite (const_pre_incr_run s1 q _ _ _ Hq Hcell1).
    assert (∃ q' v' l2', l2 ++ [(p, v)] = (q', v') :: l2') as (q' & v' & l2' & Hl2).
    { destruct l2 as [|[q' v'] l2]; simpl; eauto. }
    rewrite Hl2. cbn [first_ptr].
    rewrite (IH _ s1 (l1 ++ [(q, v)]) q' v' l2' Hinv1 (mk_is_Some _ _ Hthis1)).
    2:{ by rewrite fn_lookup_insert, HL, <- !app_assoc, <- Hl2. }
    rewrite Hav1.
    destruct (N.leb_spec (N.of_nat fuel') (avail (mem s) - 1)),
             (N.leb_spec (N.of_nat (S fuel')) (avail (mem s))); done || lia.
Qed.

(** X16. A non-empty deque a caller can reach that is copy-merged
    into itself keeps the loop of the merge running for as long as
    [malloc] succeeds: after any number of steps up to the number of
    blocks the system can still hand out the loop has not ended, and the
    step after the last block writes through a null pointer. The merge
    never returns and never throws. *)
Theorem self_copy_merge_never_returns fuel capacity (prog : list (op elemType))
    (s : state) fuel' this d l :
  run fuel prog (initial capacity) = Some s →
  objs s !! this = Some d → contents s this = Some l →
  l ≠ [] →
  ((N.of_nat fuel' ≤ avail (mem s))%N → AddOtherDeque fuel' this this s = Timeout) ∧
  ((avail (mem s) < N.of_nat fuel')%N → AddOtherDeque fuel' this this s = Fault).
Proof.
  intros Hrun Hthis Hl Hne. destruct (reachable_inv _ _ _ _ Hrun) as [L Hinv].
  rewrite (contents_inv L s this d Hinv Hthis) in Hl. injection Hl as <-.
  destruct (L this) as [|[q v] l2] eqn:HL; [done|].
  pose proof Hinv as [Hreps _]. destruct (Hreps this d Hthis) as (_ & _ & Hhd & _).
  rewrite HL in Hhd. simpl in Hhd.
  assert (Hrun' : AddOtherDeque fuel' this this s =
                  if (N.of_nat fuel' <=? avail (mem s))%N then Timeout else Fault).
  { unfold AddOtherDeque, push_back_all, begin_const, end_const, get_head, object, bind, ret.
    rewrite Hthis, Hhd.
    by apply (push_back_range_self fuel' this L s [] q v l2 Hinv (mk_is_Some _ _ Hthis)). }
  rewrite Hrun'. split; intros Hav.
  - by destruct (N.leb_spec (N.of_nat fuel') (avail (mem s))); [|lia].
  - by destruct (N.leb_spec (N.of_nat fuel') (avail (mem s))); [lia|].
Qed.

End Aliasing.

(** ** No block is lost *)

Create HintDb tracks discriminated.

Section Tracking.

Context {elemType : Type} `{!node_layout}.
Abbreviation state := (state elemType simple_allocator_t).
Abbreviation M := (M elemType simple_allocator_t).
Abbreviation tracks := (tracks (elemType:=elemType)).

Lemma live_after_app evs1 evs2 X :
  live_after (evs1 ++ evs2) X = live_after evs2 (live_after evs1 X).
Proof.
  revert X. induction evs1 as [|[i p|i p] evs1 IH]; intros X; simpl; [done|apply IH..].
Qed.

Lemma tracks_reads {A} (m : M A) : reads m → tracks m.
Proof.
  intros Hm s. specialize (Hm s).
  destruct (m s) as [a s1|w s1| |]; try done; subst s1; exists [];
    by rewrite app_nil_r.
Qed.

Lemma tracks_bind {A B} (m : M A) (k : A → M B) :
  tracks m → (∀ a, tracks (k a)) → tracks (bind m k).
Proof.
  intros Hm Hk s. unfold bind. specialize (Hm s).
  destruct (m s) as [a s1|w s1| |]; try done.
  destruct Hm as (evs1 & Htr1 & Hdom1). specialize (Hk a s1).
  destruct (k a s1) as [b s2|w s2| |]; try done;
    destruct Hk as (evs2 & Htr2 & Hdom2); exists (evs1 ++ evs2);
    by rewrite Htr2, Htr1, app_assoc, Hdom2, Hdom1, live_after_app.
Qed.

Lemma tracks_if {A} (b : bool) (m1 m2 : M A) :
  tracks m1 → tracks m2 → tracks (if b then m1 else m2).
Proof. by destruct b. Qed.

Lemma tracks_update this f : tracks (update this f).
Proof.
  intros s. unfold update. destruct (objs s !! this); [|done].
  exists []. by rewrite app_nil_r.
Qed.

Lemma tracks_store p f : tracks (store p f).
Proof.
  intros s. unfold store, cell. destruct (p =? nullptr)%N; [done|].
  destruct (cells (mem s) !! p) as [n|] eqn:Hc; [|done].
  exists []. rewrite app_nil_r. split; [done|]. cbn [mem cells live_after].
  by apply dom_insert_lookup_L.
Qed.

Lemma tracks_new_object this h t sz : tracks (new_object this h t sz).
Proof.
  intros s. unfold new_object. destruct (objs s !! this); [done|].
  exists []. by rewrite app_nil_r.
Qed.

Lemma tracks_delete_object this : tracks (delete_object this).
Proof.
  intros s. unfold delete_object. destruct (objs s !! this); [|done].
  exists []. by rewrite app_nil_r.
Qed.

Lemma tracks_call_alloc this : tracks (call_alloc this).
Proof.
  intros s. unfold call_alloc, bind, object, lift_mem, log, ret.
  destruct (objs s !! this) as [d|]; [|done]. cbn [alloc simple_allocator].
  unfold malloc. destruct (N.eqb_spec (avail (mem s)) 0) as [Hav|Hav].
  - by exists [EvAlloc this nullptr].
  - exists [EvAlloc this (fresh_ptr (cells (mem s)))]. split; [done|].
    cbn [mem cells trace live_after fst snd].
    rewrite (eqb_nullptr_false _ (fresh_ptr_nonnull (cells (mem s)))).
    by rewrite dom_insert_L.
Qed.

Lemma tracks_call_dealloc this p : tracks (call_dealloc this p).
Proof.
  intros s. unfold call_dealloc, bind, object, lift_mem, log.
  destruct (objs s !! this) as [d|]; [|done]. cbn [dealloc simple_allocator].
  unfold free. destruct (N.eqb_spec p nullptr) as [->|Hp].
  - by exists [EvDealloc this nullptr].
  - destruct (cells (mem s) !! p) as [n|] eqn:Hc; [|done].
    exists [EvDealloc this p]. split; [done|]. cbn [mem cells trace live_after].
    rewrite (eqb_nullptr_false p Hp). by rewrite dom_delete_L.
Qed.

#[local] Hint Resolve tracks_update tracks_store tracks_new_object tracks_delete_object
  tracks_call_alloc tracks_call_dealloc : tracks.
#[local] Hint Extern 2 (tracks (bind _ _)) => apply tracks_bind; [|intros ?] : tracks.
#[local] Hint Extern 2 (tracks (if _ then _ else _)) => apply tracks_if : tracks.
#[local] Hint Extern 5 (tracks _) => apply tracks_reads; solve [auto 30 with reads] : tracks.

Ltac tracks_tac :=
  unfold set_head, set_tail, set_size, set_value, set_prev, set_next;
  solve [auto 40 with tracks].

Lemma tracks_PushBack this (v : elemType) : tracks (PushBack this v).
Proof. unfold PushBack. tracks_tac. Qed.
Lemma tracks_PushFront this (v : elemType) : tracks (PushFront this v).
Proof. unfold PushFront. tracks_tac. Qed.
Lemma tracks_PopBack this : tracks (PopBack this).
Proof. unfold PopBack. tracks_tac. Qed.
Lemma tracks_PopFront this : tracks (PopFront this).
Proof. unfold PopFront. tracks_tac. Qed.

(** What the heap holds after a call whose trace is known. *)
Lemma tracks_dom {A} (m : M A) (s s' : state) a evs :
  tracks m → m s = Ok a s' → trace s' = trace s ++ evs →
  dom (cells (mem s')) = live_after evs (dom (cells (mem s))).
Proof.
  intros Hm Hrun Htr. specialize (Hm s). rewrite Hrun in Hm.
  destruct Hm as (evs' & Htr' & Hdom). rewrite Htr in Htr'.
  by apply app_inv_head in Htr' as ->.
Qed.

End Tracking.

Section NoLeak.

Context {elemType : Type} `{!node_layout}.
Abbreviation state := (state elemType simple_allocator_t).
Abbreviation M := (M elemType simple_allocator_t).
Abbreviation keeps := (keeps (elemType:=elemType)).

Lemma Inv_lax L (s : state) : inv L s → Inv false L s.
Proof. by split. Qed.

Lemma keeps_reads {A} (m : M A) : reads m → keeps m.
Proof.
  intros Hm L s Hinv Ht. specialize (Hm s).
  destruct (m s) as [a s1|w s1| |]; try done; subst s1; by exists L.
Qed.

Lemma keeps_bind {A B} (m : M A) (k : A → M B) :
  keeps m → (∀ a, keeps (k a)) → keeps (bind m k).
Proof.
  intros Hm Hk L s Hinv Ht. unfold bind. specialize (Hm L s Hinv Ht).
  destruct (m s) as [a s1|w s1| |]; try done.
  destruct Hm as (L1 & Hinv1 & Ht1). apply (Hk a L1 s1 Hinv1 Ht1).
Qed.

Lemma keeps_timeout {A} : keeps (timeout (A:=A)).
Proof. by intros L s _ _. Qed.

(** One deque changes its chain: the blocks that are new are nodes of
    the new chain, and the nodes the chain lost are no longer live. *)
Lemma tight_update L (s s' : state) this d d' (l' : list (ptr * elemType)) :
  tight L s → objs s !! this = Some d →
  objs s' = <[this := d']> (objs s) →
  (∀ q, q ∈ dom (cells (mem s')) → q ∈ dom (cells (mem s)) ∨ q ∈ l'.*1) →
  (∀ q, q ∈ (L this).*1 → q ∈ l'.*1 ∨ q ∉ dom (cells (mem s'))) →
  tight (<[this := l']> L) s'.
Proof.
  intros Ht Hthis Hobjs Hnew Hold q Hq.
  assert (Hme : is_Some (objs s' !! this)) by (by rewrite Hobjs, lookup_insert_eq).
  destruct (Hnew q Hq) as [Hq0|Hq'].
  2:{ exists this. by rewrite fn_lookup_insert. }
  destruct (Ht q Hq0) as (r & Hr & Hin).
  destruct (decide (this = r)) as [<-|Hne].
  - destruct (Hold q Hin) as [Hq'|Hq']; [|done].
    exists this. by rewrite fn_lookup_insert.
  - exists r. rewrite fn_lookup_insert_ne, Hobjs, lookup_insert_ne by done. done.
Qed.

Lemma keeps_PushBack this (v : elemType) : keeps (PushBack this v).
Proof.
  intros L s Hinv Ht.
  destruct (objs s !! this) as [d|] eqn:Hthis; [|by rewrite PushBack_no_object].
  destruct (decide (avail (mem s) = 0%N)) as [Hav|Hav]; [by rewrite PushBack_fault|].
  destruct (PushBack_inv L s this d v Hinv Hthis Hav)
    as (p & s' & Hp & Hpush & Hinv' & Hobjs & Htr & _).
  rewrite Hpush. eexists. split; [exact Hinv'|].
  pose proof (tracks_dom _ s s' tt _ (tracks_PushBack this v) Hpush Htr) as Hdom.
  cbn [live_after] in Hdom.
  rewrite (eqb_nullptr_false p) in Hdom by (rewrite Hp; apply fresh_ptr_nonnull).
  eapply tight_update; [done|done|done| |].
  - intros q. rewrite Hdom, fmap_app.
    intros [->%elem_of_singleton|Hq]%elem_of_union; [right|by left].
    apply elem_of_app. right. left.
  - intros q Hq. left. rewrite fmap_app. apply elem_of_app. by left.
Qed.

Lemma keeps_PushFront this (v : elemType) : keeps (PushFront this v).
Proof.
  intros L s Hinv Ht.
  destruct (objs s !! this) as [d|] eqn:Hthis; [|by rewrite PushFront_no_object].
  destruct (decide (avail (mem s) = 0%N)) as [Hav|Hav]; [by rewrite PushFront_fault|].
  destruct (PushFront_inv L s this d v Hinv Hthis Hav)
    as (p & s' & Hp & Hpush & Hinv' & Hobjs & Htr & _).
  rewrite Hpush. eexists. split; [exact Hinv'|].
  pose proof (tracks_dom _ s s' tt _ (tracks_PushFront this v) Hpush Htr) as Hdom.
  cbn [live_after] in Hdom.
  rewrite (eqb_nullptr_false p) in Hdom by (rewrite Hp; apply fresh_ptr_nonnull).
  eapply tight_update; [done|done|done| |].
  - intros q. rewrite Hdom, fmap_cons.
    intros [->%elem_of_singleton|Hq]%elem_of_union; [right; left|by left].
  - intros q Hq. left. rewrite fmap_cons. by right.
Qed.

Lemma keeps_PopBack this : keeps (PopBack this).
Proof.
  intros L s Hinv Ht.
  destruct (objs s !! this) as [d|] eqn:Hthis; [|by rewrite PopBack_no_object].
  pose proof Hinv as [Hreps _]. pose proof (Hreps this d Hthis) as Hrep.
  destruct (snoc_cases (L this)) as [HL|(l0 & [pt vt] & HL)].
  { rewrite (PopBack_throw s this d Hthis) by (by apply (repr_tail_nil _ _ _ Hrep)).
    by exists L. }
  destruct (PopBack_inv L s this d l0 pt vt Hinv Hthis HL)
    as (s' & Hpop & Hinv' & Hobjs & Htr & _ & Htl).
  rewrite Hpop. eexists. split; [exact Hinv'|].
  pose proof (tracks_dom _ s s' tt _ (tracks_PopBack this) Hpop Htr) as Hdom.
  cbn [live_after] in Hdom.
  assert (Hpt : pt ≠ nullptr).
  { destruct Hrep as (Hc & _). eapply (chain_nonnull _ _ _ _ _ Hc).
    rewrite HL, fmap_app. apply elem_of_app. right. left. }
  rewrite (eqb_nullptr_false pt Hpt) in Hdom.
  eapply tight_update; [done|done|done| |].
  - intros q. rewrite Hdom. intros [Hq _]%elem_of_difference. by left.
  - intros q. rewrite HL, fmap_app, Hdom. intros [Hq|Hq]%elem_of_app; [by left|].
    right. apply list_elem_of_singleton in Hq as ->.
    rewrite elem_of_difference, elem_of_singleton. by intros [_ Hq].
Qed.

Lemma keeps_PopFront this : keeps (PopFront this).
Proof.
  intros L s Hinv Ht.
  destruct (objs s !! this) as [d|] eqn:Hthis; [|by rewrite PopFront_no_object].
  pose proof Hinv as [Hreps _]. pose proof (Hreps this d Hthis) as Hrep.
  destruct (L this) as [|[pt vt] l0] eqn:HL.
  { rewrite (PopFront_throw s this d Hthis) by (by apply (repr_head_nil _ _ _ Hrep)).
    by exists L. }
  destruct (PopFront_inv L s this d l0 pt vt Hinv Hthis HL)
    as (s' & Hpop & Hinv' & Hobjs & Htr & _ & Hhd).
  rewrite Hpop. eexists. split; [exact Hinv'|].
  pose proof (tracks_dom _ s s' tt _ (tracks_PopFront this) Hpop Htr) as Hdom.
  cbn [live_after] in Hdom.
  assert (Hpt : pt ≠ nullptr) by (by destruct Hrep as ((? & _) & _)).
  rewrite (eqb_nullptr_false pt Hpt) in Hdom.
  eapply tight_update; [done|done|done| |].
  - intros q. rewrite Hdom. intros [Hq _]%elem_of_difference. by left.
  - intros q. rewrite HL, fmap_cons, Hdom. intros [->|Hq]%elem_of_cons; [|by left].
    right. rewrite elem_of_difference, elem_of_singleton. by intros [_ Hq].
Qed.

Lemma tight_same L L' (s s' : state) :
  tight L s →
  (∀ q, q ∈ dom (cells (mem s')) → q ∈ dom (cells (mem s))) →
  (∀ r q, is_Some (objs s !! r) → q ∈ (L r).*1 →
          is_Some (objs s' !! r) ∧ q ∈ (L' r).*1) →
  tight L' s'.
Proof.
  intros Ht Hdom Hsub q Hq. destruct (Ht q (Hdom q Hq)) as (r & Hr & Hin).
  exists r. by apply Hsub.
Qed.

(** The blocks of [this] and of [deque] all pass to [this]. *)
Lemma tight_transfer L (s s' : state) this deque dthis' ddeque' lnew :
  tight L s → this ≠ deque →
  objs s' = <[deque := ddeque']> (<[this := dthis']> (objs s)) →
  (∀ q, q ∈ dom (cells (mem s')) → q ∈ dom (cells (mem s))) →
  (∀ q, q ∈ (L this).*1 ∨ q ∈ (L deque).*1 → q ∈ lnew.*1) →
  tight (<[deque := []]> (<[this := lnew]> L)) s'.
Proof.
  intros Ht Hne Hobjs Hdom Hsub q Hq. destruct (Ht q (Hdom q Hq)) as (r & Hr & Hin).
  assert (Hthis' : is_Some (objs s' !! this)).
  { by rewrite Hobjs, lookup_insert_ne, lookup_insert_eq. }
  destruct (decide (r = this)) as [->|Hrt].
  { exists this. rewrite fn_lookup_insert_ne, fn_lookup_insert by done. auto. }
  destruct (decide (r = deque)) as [->|Hrd].
  { exists this. rewrite fn_lookup_insert_ne, fn_lookup_insert by done. auto. }
  exists r. rewrite !fn_lookup_insert_ne, Hobjs, !lookup_insert_ne by done. done.
Qed.

Lemma dom_link_next t p (c : gmap N (node_t elemType)) : dom (link_next t p c) = dom c.
Proof.
  unfold link_next. destruct (t =? nullptr)%N; [done|].
  destruct (c !! t) eqn:Hc; [|done]. by apply dom_insert_lookup_L.
Qed.

Lemma dom_link_prev h p (c : gmap N (node_t elemType)) : dom (link_prev h p c) = dom c.
Proof.
  unfold link_prev. destruct (h =? nullptr)%N; [done|].
  destruct (c !! h) eqn:Hc; [|done]. by apply dom_insert_lookup_L.
Qed.

(** *** Constructors and writes *)

Lemma keeps_new_object this : keeps (new_object this nullptr nullptr 0).
Proof.
  intros L s Hinv Ht.
  pose proof (preserves_new_object false this L s (Inv_lax L s Hinv)) as Hp.
  revert Hp. unfold new_object.
  destruct (objs s !! this) as [d|] eqn:Hobj; [done|].
  intros (L' & [Hinv' _] & Hfr). exists L'. split; [done|].
  eapply tight_same; [exact Ht|done|]. cbn [objs].
  intros r q Hr Hq. assert (this ≠ r) as Hne by (intros <-; rewrite Hobj in Hr; by destruct Hr).
  destruct (Hfr r Hne) as [-> _]. by rewrite lookup_insert_ne.
Qed.

Lemma keeps_set_value_in L (s : state) this d l1 p w l2 v :
  inv L s → tight L s → objs s !! this = Some d → L this = l1 ++ (p, w) :: l2 →
  ∃ s', set_value p v s = Ok tt s' ∧ ∃ L', inv L' s' ∧ tight L' s'.
Proof.
  intros Hinv Ht Hobj HL.
  destruct (inv_set_value L s this d l1 p w l2 v Hinv Hobj HL) as (n & Hc & Hp & Hinv').
  eexists. split; [by apply store_value_run|].
  eexists. split; [exact Hinv'|].
  eapply tight_same; [exact Ht| |]; cbn [objs mem cells].
  - intros q. by rewrite dom_insert_lookup_L.
  - intros r q Hr Hq. split; [done|]. revert Hq.
    destruct (decide (this = r)) as [<-|Hne].
    + by rewrite fn_lookup_insert, HL, !fmap_app.
    + by rewrite fn_lookup_insert_ne.
Qed.

Lemma keeps_GetFront_assign this v : keeps (GetFront_assign this v).
Proof.
  intros L s Hinv Ht. unfold GetFront_assign, get_head, bind at 1 2, object.
  destruct (objs s !! this) as [d|] eqn:Hobj; [|done]. cbn [ret].
  pose proof Hinv as [Hreps _]. pose proof (Hreps this d Hobj) as Hrep.
  destruct (L this) as [|[p w] l2] eqn:HL.
  - assert (head d = nullptr) as -> by (by apply (repr_head_nil _ _ _ Hrep)).
    simpl. by exists L.
  - destruct Hrep as (Hc & _ & Hhd & _). simpl in Hhd, Hc. destruct Hc as (Hp & _).
    rewrite Hhd, (eqb_nullptr_false p Hp).
    destruct (keeps_set_value_in L s this d [] p w l2 v) as (s' & -> & HL'); done.
Qed.

Lemma keeps_GetBack_assign this v : keeps (GetBack_assign this v).
Proof.
  intros L s Hinv Ht. unfold GetBack_assign, get_tail, bind at 1 2, object.
  destruct (objs s !! this) as [d|] eqn:Hobj; [|done]. cbn [ret].
  pose proof Hinv as [Hreps _]. pose proof (Hreps this d Hobj) as Hrep.
  destruct (snoc_cases (L this)) as [HL|(l1 & [p w] & HL)].
  - assert (tail d = nullptr) as -> by (by apply (repr_tail_nil _ _ _ Hrep)).
    simpl. by exists L.
  - pose proof Hrep as (Hc & _ & _ & Htl & _). rewrite HL, last_ptr_app in Htl.
    simpl in Htl.
    assert (p ≠ nullptr) as Hp.
    { eapply (chain_nonnull _ _ _ _ _ Hc). rewrite HL, fmap_app. apply elem_of_app.
      right. left. }
    rewrite Htl, (eqb_nullptr_false p Hp).
    destruct (keeps_set_value_in L s this d l1 p w [] v) as (s' & -> & HL'); done.
Qed.

Lemma keeps_write_at this k v : keeps (write_at this k v).
Proof.
  intros L s Hinv Ht. unfold write_at, begin, get_head, object, bind.
  destruct (objs s !! this) as [d|] eqn:Hobj; [|done]. cbn [ret].
  pose proof Hinv as [Hreps _].
  destruct (Hreps this d Hobj) as (Hc & _ & Hhd & _).
  rewrite Hhd, (advance_chain s nullptr (L this) k Hc).
  destruct (k <=? length (L this))%nat; [|by exists L].
  unfold iterator.assign. cbn [iterator.curNode].
  destruct (drop k (L this)) as [|[p w] l2] eqn:Hdrop; [by exists L|].
  assert (HL : L this = take k (L this) ++ (p, w) :: l2)
    by (by rewrite <- Hdrop, take_drop).
  assert (Hp : p ≠ nullptr).
  { eapply (chain_nonnull _ _ _ _ _ Hc). rewrite HL, fmap_app. apply elem_of_app.
    right. left. }
  cbn [first_ptr]. rewrite (eqb_nullptr_false p Hp).
  destruct (keeps_set_value_in L s this d _ p w l2 v Hinv Ht Hobj HL) as (s' & -> & HL').
  done.
Qed.

Lemma keeps_write_at_reversed this k v : keeps (write_at_reversed this k v).
Proof.
  intros L s Hinv Ht. unfold write_at_reversed, rbegin, get_tail, object, bind.
  destruct (objs s !! this) as [d|] eqn:Hobj; [|done]. cbn [ret].
  pose proof Hinv as [Hreps _].
  destruct (Hreps this d Hobj) as (Hc & _ & _ & Htl & _).
  rewrite Htl, (radvance_chain s (L this) nullptr k Hc).
  destruct (k <=? length (L this))%nat; [|by exists L].
  unfold reverse_iterator.assign. cbn [reverse_iterator.curNode].
  destruct (snoc_cases (take (length (L this) - k) (L this)))
    as [->|(l1 & [p w] & Htake)]; [by exists L|].
  assert (HL : L this = l1 ++ (p, w) :: drop (length (L this) - k) (L this)).
  { rewrite <- (take_drop (length (L this) - k) (L this)) at 1.
    by rewrite Htake, <- app_assoc. }
  assert (Hp : p ≠ nullptr).
  { eapply (chain_nonnull _ _ _ _ _ Hc). rewrite HL, fmap_app. apply elem_of_app.
    right. left. }
  rewrite Htake, last_ptr_app. cbn [last_ptr]. rewrite (eqb_nullptr_false p Hp).
  destruct (keeps_set_value_in L s this d l1 p w _ v Hinv Ht Hobj HL) as (s' & -> & HL').
  done.
Qed.

(** *** Loops *)

Lemma keeps_push_back_list this (l : list elemType) : keeps (push_back_list this l).
Proof.
  induction l as [|x l IH]; simpl.
  - apply keeps_reads, reads_ret.
  - apply keeps_bind; [apply keeps_PushBack|by intros _].
Qed.

Lemma keeps_push_back_all fuel this deque : keeps (push_back_all fuel this deque).
Proof.
  unfold push_back_all.
  apply keeps_bind; [apply keeps_reads, reads_begin_const|intros b].
  apply keeps_bind; [apply keeps_reads, reads_end_const|intros e].
  revert b. induction fuel as [|fuel IH]; intros it; simpl.
  - destruct (const_iterator.neq it e); [apply keeps_timeout|apply keeps_reads, reads_ret].
  - destruct (const_iterator.neq it e); [|apply keeps_reads, reads_ret].
    apply keeps_bind; [apply keeps_reads, reads_const_deref|intros d].
    apply keeps_bind; [apply keeps_PushBack|intros _].
    apply keeps_bind; [apply keeps_reads, reads_const_pre_incr|intros it'].
    apply IH.
Qed.

Lemma keeps_Clear fuel this : keeps (Clear fuel this).
Proof.
  induction fuel as [|fuel IH]; simpl.
  - apply keeps_bind; [apply keeps_reads, reads_get_head|intros h].
    destruct (negb (h =? nullptr)%N); [apply keeps_timeout|apply keeps_reads, reads_ret].
  - apply keeps_bind; [apply keeps_reads, reads_get_head|intros h].
    destruct (negb (h =? nullptr)%N); [|apply keeps_reads, reads_ret].
    apply keeps_bind; [apply keeps_PopBack|by intros _].
Qed.

(** [Clear] returns with a null head only. *)
Lemma Clear_returns_empty fuel this (s : state) a (s' : state) :
  Clear fuel this s = Ok a s' → ∃ d, objs s' !! this = Some d ∧ head d = nullptr.
Proof.
  revert s. induction fuel as [|fuel IH]; intros s; simpl;
    unfold bind at 1, get_head, bind at 1, object;
    destruct (objs s !! this) as [d|] eqn:Hobj; try done; cbn [ret];
    destruct (N.eqb_spec (head d) nullptr) as [Hh|Hh]; cbn [negb]; try done.
  - intros [= _ <-]. eauto.
  - intros [= _ <-]. eauto.
  - unfold bind. destruct (PopBack this s) as [u s1|w s1| |]; try done. apply IH.
Qed.

(** A step that is safe once [this] is empty, after a step that leaves
    it empty. *)
Lemma keeps_then_empty {A B} this (m : M A) (k : M B) :
  keeps m →
  (∀ s a s', m s = Ok a s' → ∃ d, objs s' !! this = Some d ∧ head d = nullptr) →
  (∀ L s d, inv L s → tight L s → objs s !! this = Some d → head d = nullptr →
     match k s with
     | Ok _ s' | Throw _ s' => ∃ L', inv L' s' ∧ tight L' s'
     | _ => True
     end) →
  keeps (m ;; k).
Proof.
  intros Hm Hpost Hk L s Hinv Ht. unfold bind. specialize (Hm L s Hinv Ht).
  destruct (m s) as [a s1|w s1| |] eqn:Hrun; try done.
  destruct Hm as (L1 & Hinv1 & Ht1).
  destruct (Hpost s a s1 Hrun) as (d & Hobj & Hh). by eapply Hk.
Qed.

(** *** Handing over a chain *)

Lemma keeps_take_over_empty L (s : state) this deque d :
  inv L s → tight L s → objs s !! this = Some d → head d = nullptr →
  match take_over this deque s with
  | Ok _ s' | Throw _ s' => ∃ L', inv L' s' ∧ tight L' s'
  | _ => True
  end.
Proof.
  intros Hinv Ht Hthis Hh.
  pose proof (preserves_take_over this deque L s (Inv_lax L s Hinv)) as Hp.
  assert (HL : L this = []).
  { destruct Hinv as [Hreps _]. by apply (repr_head_nil _ _ _ (Hreps this d Hthis)). }
  destruct (objs s !! deque) as [dd|] eqn:Hdeque;
    [|by rewrite take_over_no_object by auto].
  destruct (decide (this = deque)) as [<-|Hne].
  - rewrite (take_over_self_run s this d Hthis).
    exists (<[this := []]> L). split.
    + destruct s as [o [c av] tr]. by eapply inv_emptied.
    + eapply tight_update; [exact Ht|exact Hthis|done|auto|].
      intros q. rewrite HL. by intros []%elem_of_nil.
  - rewrite (take_over_run s this deque d dd Hthis Hdeque Hne).
    exists (<[deque := []]> (<[this := L deque]> L)). split.
    + destruct s as [o [c av] tr]. eapply inv_transfer; try done.
      * destruct Hinv as [Hreps _]. eapply repr_fields; [..|by apply (Hreps deque)]; done.
      * auto.
    + eapply tight_transfer; [exact Ht|done|done|done|].
      intros q [Hq|Hq]; [|done]. rewrite HL in Hq. by apply elem_of_nil in Hq.
Qed.

Lemma keeps_deque_t_move this deque : keeps (deque_t_move this deque).
Proof.
  rewrite deque_t_move_eq.
  apply (keeps_then_empty this); [apply keeps_new_object| |].
  - intros s a s'. unfold new_object. destruct (objs s !! this); [done|].
    intros [= _ <-]. cbn [objs]. rewrite lookup_insert_eq. eauto.
  - intros L s d. apply keeps_take_over_empty.
Qed.

Lemma keeps_assign_move fuel this deque : keeps (assign_move fuel this deque).
Proof.
  rewrite assign_move_eq.
  apply (keeps_then_empty this); [apply keeps_Clear|apply Clear_returns_empty|].
  intros L s d. apply keeps_take_over_empty.
Qed.

Lemma keeps_AddOtherDeque_move this deque :
  this ≠ deque → keeps (AddOtherDeque_move this deque).
Proof.
  intros Hne L s Hinv Htight.
  destruct (objs s !! this) as [d|] eqn:Hthis;
    [|by rewrite AddOtherDeque_move_no_object by auto].
  destruct (objs s !! deque) as [dd|] eqn:Hdeque;
    [|by rewrite AddOtherDeque_move_no_object by auto].
  pose proof Hinv as [Hreps _].
  pose proof (Hreps this d Hthis) as Hra. pose proof (Hreps deque dd Hdeque) as Hrb.
  destruct (decide (tail d = nullptr)) as [Ht|Ht].
  { rewrite (AddOtherDeque_move_empty_this s this deque d Hthis Ht).
    eapply keeps_take_over_empty; [done..|].
    apply (repr_head_nil _ _ _ Hra). by apply (repr_tail_nil _ _ _ Hra). }
  assert (L this ≠ []) as Hla by (by rewrite <- (repr_tail_nil _ _ _ Hra)).
  assert (Hta_in : tail d ∈ (L this).*1).
  { destruct Hra as (_ & _ & _ & -> & _). by apply last_ptr_in. }
  destruct (decide (head dd = nullptr)) as [Hh|Hh].
  { rewrite (AddOtherDeque_move_empty_other s this deque d dd Hthis Hdeque Ht Hh).
    by exists L. }
  assert (L deque ≠ []) as Hlb by (by rewrite <- (repr_head_nil _ _ _ Hrb)).
  assert (Hhb_in : head dd ∈ (L deque).*1).
  { destruct Hrb as (_ & _ & -> & _). by apply first_ptr_in. }
  destruct (inv_live L s this d _ Hinv Hthis Hta_in) as [_ Htl].
  destruct (inv_live L s deque dd _ Hinv Hdeque Hhb_in) as [_ Hhl].
  assert (tail d ≠ head dd) as Hth.
  { intros Heq. destruct Hinv as [_ Hdisj].
    apply (Hdisj this deque (tail d)); [done|eauto|eauto|done|by rewrite Heq]. }
  rewrite (AddOtherDeque_move_splice s this deque d dd Hthis Hdeque Hne Ht Hh Htl Hhl Hth).
  exists (<[deque := []]> (<[this := L this ++ L deque]> L)). split.
  - by apply inv_splice.
  - eapply tight_transfer; [exact Htight|done|done| |]; cbn [mem cells].
    + intros q. by rewrite dom_link_prev, dom_link_next.
    + intros q. rewrite fmap_app, elem_of_app. done.
Qed.

(** *** The destructor *)

Lemma keeps_delete_object_empty L (s : state) this d :
  inv L s → tight L s → objs s !! this = Some d → head d = nullptr →
  match delete_object this s with
  | Ok _ s' | Throw _ s' => ∃ L', inv L' s' ∧ tight L' s'
  | _ => True
  end.
Proof.
  intros Hinv Ht Hthis Hh.
  pose proof (preserves_delete_object false this L s (Inv_lax L s Hinv)) as Hp.
  assert (HL : L this = []).
  { destruct Hinv as [Hreps _]. by apply (repr_head_nil _ _ _ (Hreps this d Hthis)). }
  revert Hp. unfold delete_object. rewrite Hthis.
  intros (L' & [Hinv' _] & Hfr). exists L'. split; [done|].
  eapply tight_same; [exact Ht|done|]. cbn [objs].
  intros r q Hr Hq. destruct (decide (this = r)) as [<-|Hne].
  - rewrite HL in Hq. by apply elem_of_nil in Hq.
  - destruct (Hfr r Hne) as [-> _]. by rewrite lookup_delete_ne.
Qed.

Lemma keeps_destructor fuel this : keeps (destructor fuel this).
Proof.
  unfold destructor.
  apply (keeps_then_empty this); [apply keeps_Clear|apply Clear_returns_empty|].
  intros L s d. apply keeps_delete_object_empty.
Qed.

(** *** Whole programs *)

Lemma keeps_forget {A} (m : M A) : reads m → keeps (forget m).
Proof.
  intros Hm. apply keeps_reads. unfold forget.
  apply reads_bind; [done|intros a; apply reads_ret].
Qed.

Lemma exec_keeps fuel (o : op elemType) : self_merge o = false → keeps (exec fuel o).
Proof.
  intros Hself.
  destruct o; simpl; try (apply keeps_forget; auto with reads; fail).
  - apply keeps_new_object.
  - unfold deque_t_list. apply keeps_bind; [apply keeps_new_object|intros _].
    apply keeps_push_back_list.
  - unfold deque_t_copy. apply keeps_bind; [apply keeps_new_object|intros _].
    apply keeps_push_back_all.
  - apply keeps_deque_t_move.
  - unfold assign_copy. apply keeps_bind; [apply keeps_Clear|intros _].
    apply keeps_push_back_all.
  - apply keeps_assign_move.
  - apply keeps_GetFront_assign.
  - apply keeps_GetBack_assign.
  - apply keeps_PushFront.
  - rewrite PushFront_move_eq. apply keeps_PushFront.
  - apply keeps_PushBack.
  - rewrite PushBack_move_eq. apply keeps_PushBack.
  - apply keeps_PopFront.
  - apply keeps_PopBack.
  - apply keeps_push_back_all.
  - apply keeps_AddOtherDeque_move. simpl in Hself. by apply N.eqb_neq.
  - apply keeps_Clear.
  - apply keeps_destructor.
  - apply keeps_write_at.
  - apply keeps_write_at_reversed.
Qed.

Lemma run_keeps fuel (prog : list (op elemType)) L (s s' : state) :
  self_merge_free prog = true → inv L s → tight L s → run fuel prog s = Some s' →
  ∃ L', inv L' s' ∧ tight L' s'.
Proof.
  revert L s. induction prog as [|o prog IH]; intros L s Hfree Hinv Ht; simpl.
  - intros [= <-]. by exists L.
  - simpl in Hfree. apply andb_true_iff in Hfree as [Ho Hfree].
    apply negb_true_iff in Ho.
    pose proof (exec_keeps fuel o Ho L s Hinv Ht) as Hk.
    destruct (exec fuel o s) as [a s1|w s1| |]; try done;
      destruct Hk as (L1 & Hinv1 & Ht1); by apply (IH L1 s1).
Qed.

End NoLeak.

Section NoLeakTheorem.

Context {elemType : Type} `{!node_layout}.
Abbreviation state := (state elemType simple_allocator_t).

(** X17. No node is lost. In every state a caller can reach, the nodes
    of the live deques are live blocks of the heap, and live blocks and
    blocks still to hand out add up to the capacity. If the program never
    move-merges a deque into itself, the live blocks are exactly the
    nodes of the live deques, and once every deque is destroyed the heap
    is empty again. *)
Theorem no_block_is_lost fuel capacity (prog : list (op elemType)) (s : state) :
  run fuel prog (initial capacity) = Some s →
  (∀ p r ns, nodes s r = Some ns → p ∈ ns → is_Some (cells (mem s) !! p)) ∧
  (N.of_nat (base.size (cells (mem s))) + avail (mem s))%N = capacity ∧
  (self_merge_free prog = true →
     (∀ p, is_Some (cells (mem s) !! p) → ∃ r ns, nodes s r = Some ns ∧ p ∈ ns) ∧
     (objs s = ∅ → mem s = mk_memory ∅ capacity)).
Proof.
  intros Hrun.
  pose proof (run_blocks fuel prog _ s Hrun) as Hb. unfold blocks in Hb.
  cbn [initial mem cells avail] in Hb. rewrite map_size_empty in Hb.
  split; [|split; [exact Hb|]].
  - destruct (reachable_inv fuel capacity prog s Hrun) as [L Hinv].
    intros p r ns Hns Hin. destruct (objs s !! r) as [d|] eqn:Hr.
    + rewrite (nodes_inv L s r d Hinv Hr) in Hns. injection Hns as <-.
      by destruct (inv_live L s r d p Hinv Hr Hin).
    + exfalso. revert Hns. unfold nodes, begin_const, get_head, object, bind.
      by rewrite Hr.
  - intros Hfree.
    assert (Ht0 : tight (elemType:=elemType) (λ _, []) (initial capacity)).
    { intros p. unfold initial. cbn [mem cells]. by rewrite dom_empty_L, elem_of_empty. }
    destruct (run_keeps fuel prog _ _ s Hfree (proj1 (Inv_initial false capacity)) Ht0 Hrun)
      as (L & Hinv & Ht).
    split.
    + intros p Hp. apply elem_of_dom in Hp. destruct (Ht p Hp) as (r & [d Hr] & Hin).
      exists r, (L r).*1. split; [by eapply nodes_inv|done].
    + intros Hobjs.
      assert (Hc : cells (mem s) = ∅).
      { apply dom_empty_iff_L. apply elem_of_equiv_empty_L. intros p Hp.
        destruct (Ht p Hp) as (r & [d Hr] & _). by rewrite Hobjs, lookup_empty in Hr. }
      destruct (mem s) as [c av]. cbn [cells avail] in *. subst c.
      rewrite map_size_empty in Hb. f_equal. lia.
Qed.

(** X18. Deques share nothing. Whatever a caller does from a state it
    can reach, to the deques it names, a deque it does not name keeps its
    object, its nodes and its elements, in both directions of
    traversal. *)
Theorem unnamed_deques_are_untouched fuel capacity (prog : list (op elemType))
    (s : state) fuel' (prog' : list (op elemType)) (s' : state) r :
  run fuel prog (initial capacity) = Some s →
  run fuel' prog' s = Some s' →
  r ∉ prog_refs prog' →
  objs s' !! r = objs s !! r ∧ nodes s' r = nodes s r ∧
  contents s' r = contents s r ∧ contents_reversed s' r = contents_reversed s r.
Proof.
  intros Hrun Hrun' Hr.
  destruct (reachable_inv fuel capacity prog s Hrun) as [L Hinv].
  destruct (run_preserves false fuel' prog' L s s' ltac:(done) (Inv_lax L s Hinv) Hrun')
    as (L' & [Hinv' _] & Hframe).
  destruct (Hframe r Hr) as [HL Hobj]. split; [done|].
  destruct (objs s !! r) as [d|] eqn:Hd.
  - rewrite (contents_inv L' s' r d Hinv' Hobj), (contents_inv L s r d Hinv Hd), HL.
    rewrite (nodes_inv L' s' r d Hinv' Hobj), (nodes_inv L s r d Hinv Hd), HL.
    rewrite (contents_reversed_inv L' s' r d Hinv' Hobj),
      (contents_reversed_inv L s r d Hinv Hd), HL. done.
  - unfold contents, contents_reversed, output, output_reversed, nodes, begin_const,
      rbegin, get_head, get_tail, object, bind.
    by rewrite Hobj, Hd.
Qed.

End NoLeakTheorem.

(** ** Every call is defined *)

Section Defined.

Context {elemType : Type} `{!node_layout}.
Abbreviation state := (state elemType simple_allocator_t).
Abbreviation M := (M elemType simple_allocator_t).
Abbreviation completes := (completes (elemType:=elemType)).

Lemma live_true (s : state) r : live s r = true → ∃ d, objs s !! r = Some d.
Proof. unfold live. destruct (objs s !! r); [eauto|done]. Qed.

Lemma live_false (s : state) r : negb (live s r) = true → objs s !! r = None.
Proof. unfold live. by destruct (objs s !! r). Qed.

Lemma completes_forget {A} (m : M A) (s : state) a :
  m s = Ok a s → completes (forget m) s.
Proof. intros Hm. left. exists s. unfold forget, bind. by rewrite Hm. Qed.

Lemma completes_forget_throw {A} (m : M A) (s : state) :
  m s = Throw EmptyContainer s → completes (forget m) s.
Proof.
  intros Hm. right. exists EmptyContainer. unfold forget, bind. rewrite Hm. auto.
Qed.

Lemma new_object_inv L (s : state) this :
  inv L s → objs s !! this = None →
  ∃ s1 L1, new_object this nullptr nullptr 0 s = Ok tt s1 ∧ inv L1 s1 ∧
    is_Some (objs s1 !! this) ∧ mem s1 = mem s ∧
    ∀ r, r ≠ this → L1 r = L r ∧ objs s1 !! r = objs s !! r.
Proof.
  intros Hinv Hno.
  pose proof (preserves_new_object false this L s (Inv_lax L s Hinv)) as Hp.
  revert Hp. unfold new_object. rewrite Hno. intros (L1 & [Hinv1 _] & Hfr).
  eexists _, L1. split; [done|]. split; [exact Hinv1|]. cbn [objs mem].
  split; [by rewrite lookup_insert_eq|]. split; [done|].
  intros r Hr. apply Hfr. by intros <-.
Qed.

Lemma completes_peek L (s : state) this d :
  inv L s → objs s !! this = Some d →
  completes (forget (PeekHead this)) s ∧ completes (forget (GetFront this)) s ∧
  completes (forget (PeekTail this)) s ∧ completes (forget (GetBack this)) s.
Proof.
  intros Hinv Hthis. pose proof Hinv as [Hreps _].
  pose proof (Hreps this d Hthis) as Hrep.
  destruct (peek_throw s this d Hthis) as [Hh Ht].
  assert (Hfront : completes (forget (PeekHead this)) s ∧
                   completes (forget (GetFront this)) s).
  { destruct (L this) as [|[p v] l] eqn:HL.
    - destruct Hh as [H1 H2]; [by apply (repr_head_nil _ _ _ Hrep)|].
      split; by apply completes_forget_throw.
    - destruct Hrep as (Hc & _ & Hhd & _). destruct Hc as (Hp & Hcell & _).
      destruct (proj1 (peek_run s this d p v _ _ Hthis Hp Hcell) Hhd) as [H1 H2].
      split; by eapply completes_forget. }
  assert (Hback : completes (forget (PeekTail this)) s ∧
                  completes (forget (GetBack this)) s).
  { destruct (snoc_cases (L this)) as [HL|(l & [p v] & HL)].
    - destruct Ht as [H1 H2]; [by apply (repr_tail_nil _ _ _ Hrep)|].
      split; by apply completes_forget_throw.
    - destruct Hrep as (Hc & _ & _ & Htl & _). rewrite HL in Hc, Htl.
      apply chain_app in Hc as (_ & Hp & Hcell & _). rewrite last_ptr_app in Htl.
      destruct (proj2 (peek_run s this d p v _ _ Hthis Hp Hcell) Htl) as [H1 H2].
      split; by eapply completes_forget. }
  tauto.
Qed.

Lemma completes_set_value_in L (s : state) this d l1 p w l2 v :
  inv L s → objs s !! this = Some d → L this = l1 ++ (p, w) :: l2 →
  ∃ s', set_value p v s = Ok tt s'.
Proof.
  intros Hinv Hobj HL.
  destruct (inv_set_value L s this d l1 p w l2 v Hinv Hobj HL) as (n & Hc & Hp & _).
  eexists. by apply store_value_run.
Qed.

Lemma completes_GetFront_assign L (s : state) this d v :
  inv L s → objs s !! this = Some d → completes (GetFront_assign this v) s.
Proof.
  intros Hinv Hobj. unfold completes, GetFront_assign, get_head, bind at 1 2 3 4, object.
  rewrite Hobj. cbn [ret].
  pose proof Hinv as [Hreps _]. pose proof (Hreps this d Hobj) as Hrep.
  destruct (L this) as [|[p w] l2] eqn:HL.
  - assert (head d = nullptr) as -> by (by apply (repr_head_nil _ _ _ Hrep)).
    right. exists EmptyContainer. auto.
  - destruct Hrep as (Hc & _ & Hhd & _). simpl in Hhd, Hc. destruct Hc as (Hp & _).
    rewrite Hhd, (eqb_nullptr_false p Hp). left.
    by apply (completes_set_value_in L s this d [] p w l2 v).
Qed.

Lemma completes_GetBack_assign L (s : state) this d v :
  inv L s → objs s !! this = Some d → completes (GetBack_assign this v) s.
Proof.
  intros Hinv Hobj. unfold completes, GetBack_assign, get_tail, bind at 1 2 3 4, object.
  rewrite Hobj. cbn [ret].
  pose proof Hinv as [Hreps _]. pose proof (Hreps this d Hobj) as Hrep.
  destruct (snoc_cases (L this)) as [HL|(l1 & [p w] & HL)].
  - assert (tail d = nullptr) as -> by (by apply (repr_tail_nil _ _ _ Hrep)).
    right. exists EmptyContainer. auto.
  - pose proof Hrep as (Hc & _ & _ & Htl & _). rewrite HL, last_ptr_app in Htl.
    simpl in Htl.
    assert (p ≠ nullptr) as Hp.
    { eapply (chain_nonnull _ _ _ _ _ Hc). rewrite HL, fmap_app. apply elem_of_app.
      right. left. }
    rewrite Htl, (eqb_nullptr_false p Hp). left.
    by apply (completes_set_value_in L s this d l1 p w [] v).
Qed.

Lemma completes_write_at L (s : state) this d k v :
  inv L s → objs s !! this = Some d → completes (write_at this k v) s.
Proof.
  intros Hinv Hobj. unfold completes, write_at, begin, get_head, object, bind.
  rewrite Hobj. cbn [ret].
  pose proof Hinv as [Hreps _].
  destruct (Hreps this d Hobj) as (Hc & _ & Hhd & _).
  rewrite Hhd, (advance_chain s nullptr (L this) k Hc).
  destruct (k <=? length (L this))%nat; [|right; exists InvalidIterator; auto].
  unfold iterator.assign. cbn [iterator.curNode].
  destruct (drop k (L this)) as [|[p w] l2] eqn:Hdrop;
    [right; exists InvalidIterator; auto|].
  assert (HL : L this = take k (L this) ++ (p, w) :: l2)
    by (by rewrite <- Hdrop, take_drop).
  assert (Hp : p ≠ nullptr).
  { eapply (chain_nonnull _ _ _ _ _ Hc). rewrite HL, fmap_app. apply elem_of_app.
    right. left. }
  cbn [first_ptr]. rewrite (eqb_nullptr_false p Hp). left.
  by apply (completes_set_value_in L s this d _ p w l2 v Hinv Hobj HL).
Qed.

Lemma completes_write_at_reversed L (s : state) this d k v :
  inv L s → objs s !! this = Some d → completes (write_at_reversed this k v) s.
Proof.
  intros Hinv Hobj. unfold completes, write_at_reversed, rbegin, get_tail, object, bind.
  rewrite Hobj. cbn [ret].
  pose proof Hinv as [Hreps _].
  destruct (Hreps this d Hobj) as (Hc & _ & _ & Htl & _).
  rewrite Htl, (radvance_chain s (L this) nullptr k Hc).
  destruct (k <=? length (L this))%nat; [|right; exists InvalidIterator; auto].
  unfold reverse_iterator.assign. cbn [reverse_iterator.curNode].
  destruct (snoc_cases (take (length (L this) - k) (L this)))
    as [->|(l1 & [p w] & Htake)]; [right; exists InvalidIterator; auto|].
  assert (HL : L this = l1 ++ (p, w) :: drop (length (L this) - k) (L this)).
  { rewrite <- (take_drop (length (L this) - k) (L this)) at 1.
    by rewrite Htake, <- app_assoc. }
  assert (Hp : p ≠ nullptr).
  { eapply (chain_nonnull _ _ _ _ _ Hc). rewrite HL, fmap_app. apply elem_of_app.
    right. left. }
  rewrite Htake, last_ptr_app. cbn [last_ptr]. rewrite (eqb_nullptr_false p Hp). left.
  by apply (completes_set_value_in L s this d l1 p w _ v Hinv Hobj HL).
Qed.

Lemma completes_pops L (s : state) this d :
  inv L s → objs s !! this = Some d →
  completes (PopFront this) s ∧ completes (PopBack this) s.
Proof.
  intros Hinv Hthis. pose proof Hinv as [Hreps _].
  pose proof (Hreps this d Hthis) as Hrep. split.
  - destruct (L this) as [|[pt vt] l0] eqn:HL.
    + right. exists EmptyContainer. split; [|auto].
      apply (PopFront_throw s this d Hthis). by apply (repr_head_nil _ _ _ Hrep).
    + destruct (PopFront_inv L s this d l0 pt vt Hinv Hthis HL) as (s' & Hpop & _).
      left. eauto.
  - destruct (snoc_cases (L this)) as [HL|(l0 & [pt vt] & HL)].
    + right. exists EmptyContainer. split; [|auto].
      apply (PopBack_throw s this d Hthis). by apply (repr_tail_nil _ _ _ Hrep).
    + destruct (PopBack_inv L s this d l0 pt vt Hinv Hthis HL) as (s' & Hpop & _).
      left. eauto.
Qed.

Lemma completes_pushes L (s : state) this d v :
  inv L s → objs s !! this = Some d → (1 ≤ avail (mem s))%N →
  completes (PushFront this v) s ∧ completes (PushBack this v) s.
Proof.
  intros Hinv Hthis Hav. assert (avail (mem s) ≠ 0%N) as Hav0 by lia.
  destruct (PushFront_inv L s this d v Hinv Hthis Hav0) as (p & s' & _ & Hpush & _).
  destruct (PushBack_inv L s this d v Hinv Hthis Hav0) as (p' & s'' & _ & Hpush' & _).
  split; left; eauto.
Qed.

Lemma completes_AddOtherDeque_move L (s : state) this deque d dd :
  inv L s → objs s !! this = Some d → objs s !! deque = Some dd →
  completes (AddOtherDeque_move this deque) s.
Proof.
  intros Hinv Hthis Hdeque. left.
  pose proof Hinv as [Hreps _].
  pose proof (Hreps this d Hthis) as Hra. pose proof (Hreps deque dd Hdeque) as Hrb.
  destruct (decide (tail d = nullptr)) as [Ht|Ht].
  { rewrite (AddOtherDeque_move_empty_this s this deque d Hthis Ht).
    destruct (decide (this = deque)) as [<-|Hne].
    - rewrite (take_over_self_run s this d Hthis). eauto.
    - rewrite (take_over_run s this deque d dd Hthis Hdeque Hne). eauto. }
  assert (L this ≠ []) as Hla by (by rewrite <- (repr_tail_nil _ _ _ Hra)).
  assert (Hta_in : tail d ∈ (L this).*1).
  { destruct Hra as (_ & _ & _ & -> & _). by apply last_ptr_in. }
  assert (Hha_in : head d ∈ (L this).*1).
  { destruct Hra as (_ & _ & -> & _). by apply first_ptr_in. }
  destruct (inv_live L s this d _ Hinv Hthis Hta_in) as [_ Htl].
  destruct (decide (this = deque)) as [<-|Hne].
  - assert (dd = d) as -> by congruence.
    destruct (inv_live L s this d _ Hinv Hthis Hha_in) as [Hh Hhl].
    rewrite (AddOtherDeque_move_self s this d Hthis Ht Hh Htl Hhl). eauto.
  - destruct (decide (head dd = nullptr)) as [Hh|Hh].
    { rewrite (AddOtherDeque_move_empty_other s this deque d dd Hthis Hdeque Ht Hh).
      eauto. }
    assert (L deque ≠ []) as Hlb by (by rewrite <- (repr_head_nil _ _ _ Hrb)).
    assert (Hhb_in : head dd ∈ (L deque).*1).
    { destruct Hrb as (_ & _ & -> & _). by apply first_ptr_in. }
    destruct (inv_live L s deque dd _ Hinv Hdeque Hhb_in) as [_ Hhl].
    assert (tail d ≠ head dd) as Hth.
    { intros Heq. destruct Hinv as [_ Hdisj].
      apply (Hdisj this deque (tail d)); [done|eauto|eauto|done|by rewrite Heq]. }
    rewrite (AddOtherDeque_move_splice s this deque d dd Hthis Hdeque Hne Ht Hh Htl Hhl Hth).
    eauto.
Qed.

Lemma completes_outputs L (s : state) fuel this d :
  inv L s → objs s !! this = Some d → (base.size (cells (mem s)) ≤ fuel)%nat →
  completes (forget (output fuel this)) s ∧
  completes (forget (output_reversed fuel this)) s.
Proof.
  intros Hinv Hthis Hfuel. pose proof (chain_length_le L s this d Hinv Hthis) as Hlen.
  destruct Hinv as [Hreps _]. destruct (Hreps this d Hthis) as (Hc & _ & Hhd & Htl & _).
  split.
  - apply (completes_forget _ s (L this).*2).
    unfold output, begin_const, end_const, get_head, object, bind, ret.
    rewrite Hthis, Hhd. rewrite (walk_chain s nullptr (L this) fuel Hc) by lia. done.
  - apply (completes_forget _ s (reverse (L this).*2)).
    unfold output_reversed, rbegin, rend, get_tail, object, bind, ret.
    rewrite Hthis, Htl. rewrite (rwalk_chain s (L this) _ fuel Hc) by lia. done.
Qed.

Lemma completes_copy L (s : state) fuel this deque dd :
  inv L s → is_Some (objs s !! this) → objs s !! deque = Some dd → this ≠ deque →
  (length (L deque) ≤ fuel)%nat → (N.of_nat (length (L deque)) ≤ avail (mem s))%N →
  ∃ s', push_back_all fuel this deque s = Ok tt s'.
Proof.
  intros Hinv Hthis Hdeque Hne Hfuel Hav.
  destruct (push_back_all_spec fuel this deque L s Hinv Hthis (mk_is_Some _ _ Hdeque)
              Hne Hfuel Hav) as (s' & _ & _ & Hrun & _).
  eauto.
Qed.


End Defined.

(** ** Copying without memory *)

Section Exhaustion.

Context {elemType : Type} `{!node_layout}.
Abbreviation state := (state elemType simple_allocator_t).
Abbreviation node_t := (node_t elemType).

(** The copy loop with fewer blocks left than nodes to copy: it copies
    for as long as [malloc] succeeds, and the next [PushBack] writes
    through the null pointer. *)
Lemma push_back_range_fault this deque (todo : list (ptr * elemType)) :
  ∀ done L (s : state) fuel,
  inv L s → is_Some (objs s !! this) → is_Some (objs s !! deque) → this ≠ deque →
  L deque = done ++ todo →
  (length todo ≤ fuel)%nat → (avail (mem s) < N.of_nat (length todo))%N →
  push_back_range fuel this (const_iterator.mk (first_ptr todo nullptr))
    (const_iterator.mk nullptr) s = Fault.
Proof.
  induction todo as [|[q v] todo IH];
    intros done L s fuel Hinv [d Hthis] Hdeque Hne HL Hfuel Hav; [simpl in Hav; lia|].
  destruct fuel as [|fuel]; [simpl in Hfuel; lia|].
  destruct Hdeque as [dd Hdeque]. pose proof Hinv as [Hreps _].
  destruct (Hreps deque dd Hdeque) as (Hc & _). rewrite HL in Hc.
  apply chain_lookup_mid in Hc as [Hq Hcell].
  cbn [push_back_range first_ptr]. unfold const_iterator.neq.
  cbn [const_iterator.curNode]. rewrite (eqb_nullptr_false q Hq). cbn [negb].
  unfold bind at 1. rewrite (const_deref_run s q v _ _ Hq Hcell).
  unfold bind at 1.
  destruct (decide (avail (mem s) = 0%N)) as [Hav0|Hav0].
  { by rewrite (PushBack_fault s this v Hav0). }
  destruct (PushBack_inv L s this d v Hinv Hthis Hav0)
    as (p & s1 & Hp & Hpush & Hinv1 & Hobjs1 & Htr1 & Hav1 & Hfree).
  assert (Hdeque1 : objs s1 !! deque = Some dd).
  { by rewrite Hobjs1, lookup_insert_ne. }
  assert (HL1 : (<[this := L this ++ [(p, v)]]> L) deque = (done ++ [(q, v)]) ++ todo).
  { rewrite fn_lookup_insert_ne by done. by rewrite HL, <- app_assoc. }
  pose proof Hinv1 as [Hreps1 _].
  destruct (Hreps1 deque dd Hdeque1) as (Hc1 & _). rewrite HL1, <- app_assoc in Hc1.
  apply chain_lookup_mid in Hc1 as [_ Hcell1].
  rewrite Hpush. unfold bind at 1. rewrite (const_pre_incr_run s1 q _ _ _ Hq Hcell1).
  apply (IH (done ++ [(q, v)]) _ s1 fuel Hinv1);
    [by rewrite Hobjs1, lookup_insert_eq|by eauto|done|exact HL1|simpl in Hfuel; lia|].
  rewrite Hav1. simpl length in Hav. lia.
Qed.

Lemma push_back_all_fault fuel this deque L (s : state) dd :
  inv L s → is_Some (objs s !! this) → objs s !! deque = Some dd → this ≠ deque →
  (length (L deque) ≤ fuel)%nat → (avail (mem s) < N.of_nat (length (L deque)))%N →
  push_back_all fuel this deque s = Fault.
Proof.
  intros Hinv Hthis Hdeque Hne Hfuel Hav.
  unfold push_back_all, begin_const, end_const, get_head, object, bind, ret.
  rewrite Hdeque. pose proof Hinv as [Hreps _].
  destruct (Hreps deque dd Hdeque) as (_ & _ & -> & _).
  by apply (push_back_range_fault this deque (L deque) [] L s fuel).
Qed.

(** X20. Copying without memory is undefined. From a state a caller
    can reach, with fewer blocks left than the source deque has elements,
    the copy constructor and the copy merge into another deque throw
    nothing: they copy for as long as [malloc] succeeds and then write
    through the null pointer. So does copy assignment, when the blocks
    left and the nodes it releases first are fewer than the elements of
    the source. *)
Theorem copy_without_memory_is_undefined fuel capacity (prog : list (op elemType))
    (s : state) fuel' this deque dd l :
  run fuel prog (initial capacity) = Some s →
  objs s !! deque = Some dd → contents s deque = Some l →
  this ≠ deque →
  (length l ≤ fuel')%nat →
  (objs s !! this = None → (avail (mem s) < N.of_nat (length l))%N →
     deque_t_copy fuel' this deque s = Fault) ∧
  (is_Some (objs s !! this) → (avail (mem s) < N.of_nat (length l))%N →
     AddOtherDeque fuel' this deque s = Fault) ∧
  (∀ own, contents s this = Some own → (length own ≤ fuel')%nat →
     (avail (mem s) + N.of_nat (length own) < N.of_nat (length l))%N →
     assign_copy fuel' this deque s = Fault).
Proof.
  intros Hrun Hdeque Hl Hne Hfuel.
  destruct (reachable_inv fuel capacity prog s Hrun) as [L Hinv].
  rewrite (contents_inv L s deque dd Hinv Hdeque) in Hl. injection Hl as <-.
  rewrite length_fmap in *.
  split; [|split].
  - intros Hthis Hav.
    destruct (new_object_inv L s this Hinv Hthis)
      as (s1 & L1 & Hnew & Hinv1 & Hs1 & Hmem & Hfr).
    destruct (Hfr deque) as [HL1 Hobj1]; [done|].
    unfold deque_t_copy, bind. rewrite Hnew.
    apply (push_back_all_fault fuel' this deque L1 s1 dd Hinv1 Hs1);
      [congruence|done|by rewrite HL1|by rewrite HL1, Hmem].
  - intros Hthis Hav. by apply (push_back_all_fault fuel' this deque L s dd).
  - intros own Hown Hfuel' Hav.
    destruct (objs s !! this) as [d|] eqn:Hthis.
    2:{ exfalso. revert Hown. unfold contents, output, begin_const, get_head, object, bind.
        by rewrite Hthis. }
    rewrite (contents_inv L s this d Hinv Hthis) in Hown. injection Hown as <-.
    rewrite length_fmap in *.
    destruct (Clear_spec this (L this) L s d fuel' Hinv Hthis eq_refl Hfuel')
      as (s1 & Hclear & Hinv1 & Hthis1 & Hfr & _ & Hav1).
    unfold assign_copy, bind. rewrite Hclear.
    apply (push_back_all_fault fuel' this deque _ s1 dd Hinv1); [by rewrite Hthis1| |done|..].
    + by rewrite Hfr.
    + by rewrite fn_lookup_insert_ne.
    + rewrite fn_lookup_insert_ne by done. lia.
Qed.

End Exhaustion.

(** ** The further theorems at concrete programs *)

Module MoreWitnesses.

Import Demo Examples.

Abbreviation s0 := (after two_deques 16).

Lemma PushBack_appends_witness :
  run 8 two_deques (initial 16) = Some s0 ∧
  objs s0 !! 2%N = Some (deque_at s0 2%N) ∧
  contents s0 2%N = Some [6; 7] ∧
  avail (mem s0) ≠ 0%N ∧
  ∃ s', PushBack 2%N 8 s0 = Ok tt s' ∧ contents s' 2%N = Some [6; 7; 8] ∧
        PeekTail 2%N s' = Ok 8 s'.
Proof.
  split; [vm_compute; reflexivity|]. split; [vm_compute; reflexivity|].
  split; [vm_compute; reflexivity|]. split; [vm_compute; discriminate|].
  destruct (proj2 (PushBack_appends 8 16 two_deques s0 2%N (deque_at s0 2%N) [6; 7] 8
                     ltac:(vm_compute; reflexivity) ltac:(vm_compute; reflexivity)
                     ltac:(vm_compute; reflexivity))
              ltac:(vm_compute; discriminate))
    as (s' & d' & p & H1 & _ & _ & H2 & _ & H3 & _).
  exists s'. split; [exact H1|]. split; [exact H2|exact H3].
Defined.

Lemma PushFront_prepends_witness :
  run 8 two_deques (initial 16) = Some s0 ∧
  objs s0 !! 2%N = Some (deque_at s0 2%N) ∧
  contents s0 2%N = Some [6; 7] ∧
  avail (mem s0) ≠ 0%N ∧
  ∃ s', PushFront 2%N 5 s0 = Ok tt s' ∧ contents s' 2%N = Some [5; 6; 7] ∧
        PeekHead 2%N s' = Ok 5 s'.
Proof.
  split; [vm_compute; reflexivity|]. split; [vm_compute; reflexivity|].
  split; [vm_compute; reflexivity|]. split; [vm_compute; discriminate|].
  destruct (proj2 (PushFront_prepends 8 16 two_deques s0 2%N (deque_at s0 2%N) [6; 7] 5
                     ltac:(vm_compute; reflexivity) ltac:(vm_compute; reflexivity)
                     ltac:(vm_compute; reflexivity))
              ltac:(vm_compute; discriminate))
    as (s' & d' & p & H1 & _ & _ & H2 & _ & H3 & _).
  exists s'. split; [exact H1|]. split; [exact H2|exact H3].
Defined.

Lemma PopFront_removes_first_witness :
  run 8 two_deques (initial 16) = Some s0 ∧
  objs s0 !! 1%N = Some (deque_at s0 1%N) ∧
  contents s0 1%N = Some (1 :: [2; 3]) ∧
  ∃ s', PopFront 1%N s0 = Ok tt s' ∧ contents s' 1%N = Some [2; 3].
Proof.
  split; [vm_compute; reflexivity|]. split; [vm_compute; reflexivity|].
  split; [vm_compute; reflexivity|].
  destruct (PopFront_removes_first 8 16 two_deques s0 1%N (deque_at s0 1%N) 1 [2; 3]
              ltac:(vm_compute; reflexivity) ltac:(vm_compute; reflexivity)
              ltac:(vm_compute; reflexivity))
    as (s' & d' & H1 & _ & H2 & _).
  exists s'. split; [exact H1|exact H2].
Defined.

Lemma PopBack_removes_last_witness :
  run 8 two_deques (initial 16) = Some s0 ∧
  objs s0 !! 1%N = Some (deque_at s0 1%N) ∧
  contents s0 1%N = Some ([1; 2] ++ [3]) ∧
  ∃ s', PopBack 1%N s0 = Ok tt s' ∧ contents s' 1%N = Some [1; 2].
Proof.
  split; [vm_compute; reflexivity|]. split; [vm_compute; reflexivity|].
  split; [vm_compute; reflexivity|].
  destruct (PopBack_removes_last 8 16 two_deques s0 1%N (deque_at s0 1%N) 3 [1; 2]
              ltac:(vm_compute; reflexivity) ltac:(vm_compute; reflexivity)
              ltac:(vm_compute; reflexivity))
    as (s' & d' & H1 & _ & H2 & _).
  exists s'. split; [exact H1|exact H2].
Defined.

Lemma Size_counts_elements_witness :
  run 8 two_deques (initial 16) = Some s0 ∧
  objs s0 !! 1%N = Some (deque_at s0 1%N) ∧
  contents s0 1%N = Some [1; 2; 3] ∧
  Z.of_nat (length [1; 2; 3]) < UINT_MOD ∧
  Size 1%N s0 = Ok 3 s0.
Proof.
  split; [vm_compute; reflexivity|]. split; [vm_compute; reflexivity|].
  split; [vm_compute; reflexivity|]. split; [reflexivity|].
  refine (proj1 (proj1 (proj2 (Size_counts_elements 8 16 two_deques s0 1%N
                                 (deque_at s0 1%N) [1; 2; 3] _ _ _)) _));
    [vm_compute; reflexivity|vm_compute; reflexivity|vm_compute; reflexivity|reflexivity].
Defined.

Lemma Clear_empties_and_releases_witness :
  run 8 two_deques (initial 16) = Some s0 ∧
  objs s0 !! 2%N = Some (deque_at s0 2%N) ∧
  contents s0 2%N = Some [6; 7] ∧ nodes s0 2%N = Some [4%N; 5%N] ∧
  (length [6; 7] ≤ 2)%nat ∧
  ∃ s', Clear 2 2%N s0 = Ok tt s' ∧ contents s' 2%N = Some [] ∧
        trace s' = trace s0 ++ [EvDealloc 2%N 5%N; EvDealloc 2%N 4%N].
Proof.
  split; [vm_compute; reflexivity|]. split; [vm_compute; reflexivity|].
  split; [vm_compute; reflexivity|]. split; [vm_compute; reflexivity|].
  split; [simpl; lia|].
  destruct (Clear_empties_and_releases 8 16 two_deques s0 2 2%N (deque_at s0 2%N)
              [6; 7] [4%N; 5%N]
              ltac:(vm_compute; reflexivity) ltac:(vm_compute; reflexivity)
              ltac:(vm_compute; reflexivity) ltac:(vm_compute; reflexivity)
              ltac:(simpl; lia))
    as (s' & H1 & _ & H2 & _ & H3 & _).
  exists s'. split; [exact H1|]. split; [exact H2|exact H3].
Defined.

Lemma destructor_releases_all_nodes_witness :
  run 8 two_deques (initial 16) = Some s0 ∧
  objs s0 !! 2%N = Some (deque_at s0 2%N) ∧
  contents s0 2%N = Some [6; 7] ∧ nodes s0 2%N = Some [4%N; 5%N] ∧
  (length [6; 7] ≤ 2)%nat ∧
  ∃ s', destructor 2 2%N s0 = Ok tt s' ∧ objs s' !! 2%N = None ∧
        avail (mem s') = (avail (mem s0) + 2)%N.
Proof.
  split; [vm_compute; reflexivity|]. split; [vm_compute; reflexivity|].
  split; [vm_compute; reflexivity|]. split; [vm_compute; reflexivity|].
  split; [simpl; lia|].
  destruct (destructor_releases_all_nodes 8 16 two_deques s0 2 2%N (deque_at s0 2%N)
              [6; 7] [4%N; 5%N]
              ltac:(vm_compute; reflexivity) ltac:(vm_compute; reflexivity)
              ltac:(vm_compute; reflexivity) ltac:(vm_compute; reflexivity)
              ltac:(simpl; lia))
    as (s' & H1 & H2 & _ & H3 & _).
  exists s'. split; [exact H1|]. split; [exact H2|exact H3].
Defined.

Lemma constructors_build_the_list_witness :
  run 8 two_deques (initial 16) = Some s0 ∧
  objs s0 !! 4%N = None ∧
  (N.of_nat (length [4; 5]) ≤ avail (mem s0))%N ∧
  ∃ s', deque_t_list 4%N [4; 5] s0 = Ok tt s' ∧ contents s' 4%N = Some [4; 5].
Proof.
  split; [vm_compute; reflexivity|]. split; [vm_compute; reflexivity|].
  split; [vm_compute; discriminate|].
  destruct (proj1 (proj2 (constructors_build_the_list 8 16 two_deques s0 4%N [4; 5]
                            ltac:(vm_compute; reflexivity) ltac:(vm_compute; reflexivity)))
              ltac:(vm_compute; discriminate))
    as (s' & d' & H1 & _ & H2 & _).
  exists s'. split; [exact H1|exact H2].
Defined.

Lemma reference_write_replaces_end_witness :
  run 8 two_deques (initial 16) = Some s0 ∧
  objs s0 !! 1%N = Some (deque_at s0 1%N) ∧
  contents s0 1%N = Some [1; 2; 3] ∧
  [1; 2; 3] = 1 :: [2; 3] ∧
  ∃ s', GetFront_assign 1%N 9 s0 = Ok tt s' ∧ contents s' 1%N = Some [9; 2; 3].
Proof.
  split; [vm_compute; reflexivity|]. split; [vm_compute; reflexivity|].
  split; [vm_compute; reflexivity|]. split; [reflexivity|].
  destruct (proj1 (proj2 (reference_write_replaces_end 8 16 two_deques s0 1%N
                            (deque_at s0 1%N) [1; 2; 3] 9
                            ltac:(vm_compute; reflexivity) ltac:(vm_compute; reflexivity)
                            ltac:(vm_compute; reflexivity)))
              1 [2; 3] eq_refl)
    as (s' & H1 & H2 & _).
  exists s'. split; [exact H1|exact H2].
Defined.

Lemma iterator_reaches_each_element_witness :
  run 8 two_deques (initial 16) = Some s0 ∧
  objs s0 !! 1%N = Some (deque_at s0 1%N) ∧
  contents s0 1%N = Some [1; 2; 3] ∧
  [1; 2; 3] !! 1%nat = Some 2 ∧
  ∃ it, (b <- begin 1%N ;; advance 1 b) s0 = Ok it s0 ∧ iterator.deref it s0 = Ok 2 s0.
Proof.
  split; [vm_compute; reflexivity|]. split; [vm_compute; reflexivity|].
  split; [vm_compute; reflexivity|]. split; [reflexivity|].
  destruct (proj1 (iterator_reaches_each_element 8 16 two_deques s0 1%N
                     (deque_at s0 1%N) [1; 2; 3] 1
                     ltac:(vm_compute; reflexivity) ltac:(vm_compute; reflexivity)
                     ltac:(vm_compute; reflexivity))
              2 eq_refl)
    as (it & H1 & _ & H2).
  exists it. split; [exact H1|exact H2].
Defined.

Lemma reverse_iterator_reaches_each_element_witness :
  run 8 two_deques (initial 16) = Some s0 ∧
  objs s0 !! 1%N = Some (deque_at s0 1%N) ∧
  contents s0 1%N = Some [1; 2; 3] ∧
  reverse [1; 2; 3] !! 0%nat = Some 3 ∧
  ∃ it, (b <- rbegin 1%N ;; radvance 0 b) s0 = Ok it s0 ∧
        reverse_iterator.deref it s0 = Ok 3 s0.
Proof.
  split; [vm_compute; reflexivity|]. split; [vm_compute; reflexivity|].
  split; [vm_compute; reflexivity|]. split; [reflexivity|].
  destruct (proj1 (reverse_iterator_reaches_each_element 8 16 two_deques s0 1%N
                     (deque_at s0 1%N) [1; 2; 3] 0
                     ltac:(vm_compute; reflexivity) ltac:(vm_compute; reflexivity)
                     ltac:(vm_compute; reflexivity))
              3 eq_refl)
    as (it & H1 & _ & H2).
  exists it. split; [exact H1|exact H2].
Defined.

Lemma iterator_write_replaces_element_witness :
  run 8 two_deques (initial 16) = Some s0 ∧
  objs s0 !! 1%N = Some (deque_at s0 1%N) ∧
  contents s0 1%N = Some [1; 2; 3] ∧
  (1 < length [1; 2; 3])%nat ∧
  ∃ s', write_at 1%N 1 9 s0 = Ok tt s' ∧ contents s' 1%N = Some [1; 9; 3].
Proof.
  split; [vm_compute; reflexivity|]. split; [vm_compute; reflexivity|].
  split; [vm_compute; reflexivity|]. split; [simpl; lia|].
  destruct (proj1 (proj1 (iterator_write_replaces_element 8 16 two_deques s0 1%N
                            (deque_at s0 1%N) [1; 2; 3] 1 9
                            ltac:(vm_compute; reflexivity) ltac:(vm_compute; reflexivity)
                            ltac:(vm_compute; reflexivity))
                     ltac:(simpl; lia)))
    as (s' & H1 & H2 & _).
  exists s'. split; [exact H1|exact H2].
Defined.

Lemma traversals_read_the_sequence_witness :
  run 8 two_deques (initial 16) = Some s0 ∧
  objs s0 !! 1%N = Some (deque_at s0 1%N) ∧
  contents s0 1%N = Some [1; 2; 3] ∧
  (length [1; 2; 3] ≤ 3)%nat ∧
  output 3 1%N s0 = Ok [1; 2; 3] s0 ∧
  output_reversed 3 1%N s0 = Ok [3; 2; 1] s0.
Proof.
  split; [vm_compute; reflexivity|]. split; [vm_compute; reflexivity|].
  split; [vm_compute; reflexivity|]. split; [simpl; lia|].
  destruct (traversals_read_the_sequence 8 16 two_deques s0 3 1%N
              (deque_at s0 1%N) [1; 2; 3]
              ltac:(vm_compute; reflexivity) ltac:(vm_compute; reflexivity)
              ltac:(vm_compute; reflexivity) ltac:(simpl; lia))
    as (H1 & H2 & _).
  split; [exact H1|exact H2].
Defined.

Lemma self_assignment_empties_witness :
  run 8 two_deques (initial 16) = Some s0 ∧
  objs s0 !! 1%N = Some (deque_at s0 1%N) ∧
  contents s0 1%N = Some [1; 2; 3] ∧ nodes s0 1%N = Some [1%N; 2%N; 3%N] ∧
  (length [1; 2; 3] ≤ 3)%nat ∧
  ∃ s', assign_copy 3 1%N 1%N s0 = Ok tt s' ∧ assign_move 3 1%N 1%N s0 = Ok tt s' ∧
        contents s' 1%N = Some [].
Proof.
  split; [vm_compute; reflexivity|]. split; [vm_compute; reflexivity|].
  split; [vm_compute; reflexivity|]. split; [vm_compute; reflexivity|].
  split; [simpl; lia|].
  destruct (self_assignment_empties 8 16 two_deques s0 3 1%N (deque_at s0 1%N)
              [1; 2; 3] [1%N; 2%N; 3%N]
              ltac:(vm_compute; reflexivity) ltac:(vm_compute; reflexivity)
              ltac:(vm_compute; reflexivity) ltac:(vm_compute; reflexivity)
              ltac:(simpl; lia))
    as (s' & H1 & H2 & _ & H3 & _).
  exists s'. split; [exact H1|]. split; [exact H2|exact H3].
Defined.

Lemma self_move_merge_leaks_witness :
  run 8 two_deques (initial 16) = Some s0 ∧
  objs s0 !! 1%N = Some (deque_at s0 1%N) ∧
  contents s0 1%N = Some [1; 2; 3] ∧ nodes s0 1%N = Some [1%N; 2%N; 3%N] ∧
  [1; 2; 3] ≠ [] ∧
  ∃ s', AddOtherDeque_move 1%N 1%N s0 = Ok tt s' ∧ contents s' 1%N = Some [] ∧
        avail (mem s') = avail (mem s0) ∧ is_Some (cells (mem s') !! 2%N).
Proof.
  split; [vm_compute; reflexivity|]. split; [vm_compute; reflexivity|].
  split; [vm_compute; reflexivity|]. split; [vm_compute; reflexivity|].
  split; [discriminate|].
  destruct (self_move_merge_leaks 8 16 two_deques s0 1%N (deque_at s0 1%N)
              [1; 2; 3] [1%N; 2%N; 3%N]
              ltac:(vm_compute; reflexivity) ltac:(vm_compute; reflexivity)
              ltac:(vm_compute; reflexivity) ltac:(vm_compute; reflexivity)
              ltac:(discriminate))
    as (s' & H1 & _ & H2 & _ & H3 & H4 & _).
  exists s'. split; [exact H1|]. split; [exact H2|]. split; [exact H3|].
  apply H4. right. left.
Defined.

Lemma self_copy_merge_never_returns_witness :
  run 8 two_deques (initial 16) = Some s0 ∧
  objs s0 !! 1%N = Some (deque_at s0 1%N) ∧
  contents s0 1%N = Some [1; 2; 3] ∧
  [1; 2; 3] ≠ [] ∧
  (avail (mem s0) < N.of_nat 12)%N ∧
  AddOtherDeque 12 1%N 1%N s0 = Fault.
Proof.
  split; [vm_compute; reflexivity|]. split; [vm_compute; reflexivity|].
  split; [vm_compute; reflexivity|]. split; [discriminate|].
  split; [vm_compute; reflexivity|].
  refine (proj2 (self_copy_merge_never_returns 8 16 two_deques s0 12 1%N
                   (deque_at s0 1%N) [1; 2; 3] _ _ _ _) _);
    [vm_compute; reflexivity|vm_compute; reflexivity|vm_compute; reflexivity|
     discriminate|vm_compute; reflexivity].
Defined.

Lemma no_block_is_lost_witness :
  ∃ s : state Z simple_allocator_t,
    run 16 main (initial 64) = Some s ∧ self_merge_free main = true ∧
    objs s = ∅ ∧ mem s = mk_memory ∅ 64.
Proof.
  pose (s := default (initial 0) (run 16 main (initial 64))
             : state Z simple_allocator_t).
  exists s.
  assert (Hrun : run 16 main (initial 64) = Some s) by (vm_compute; reflexivity).
  split; [exact Hrun|]. split; [reflexivity|].
  split; [vm_compute; reflexivity|].
  apply (proj2 (proj2 (proj2 (no_block_is_lost 16 64 main s Hrun)) eq_refl)).
  vm_compute; reflexivity.
Defined.


Lemma unnamed_deques_are_untouched_witness :
  run 8 two_deques (initial 16) = Some s0 ∧
  run 8 elsewhere s0 = Some (default s0 (run 8 elsewhere s0)) ∧
  (2%N ∉ prog_refs elsewhere) ∧
  contents (default s0 (run 8 elsewhere s0)) 2%N = Some [6; 7].
Proof.
  assert (Hrun : run 8 two_deques (initial 16) = Some s0) by (vm_compute; reflexivity).
  assert (Hrun' : run 8 elsewhere s0 = Some (default s0 (run 8 elsewhere s0)))
    by (vm_compute; reflexivity).
  assert (Hr : 2%N ∉ prog_refs elsewhere).
  { vm_compute. intros H. repeat (apply elem_of_cons in H as [H|H]; [discriminate|]).
    by apply elem_of_nil in H. }
  split; [exact Hrun|]. split; [exact Hrun'|]. split; [exact Hr|].
  rewrite (proj1 (proj2 (proj2
             (unnamed_deques_are_untouched 8 16 two_deques s0 8 elsewhere _ 2%N
                Hrun Hrun' Hr)))).
  vm_compute; reflexivity.
Defined.

Lemma copy_without_memory_is_undefined_witness :
  run 8 two_deques (initial 6) = Some (after two_deques 6) ∧
  objs (after two_deques 6) !! 1%N = Some (deque_at (after two_deques 6) 1%N) ∧
  contents (after two_deques 6) 1%N = Some [1; 2; 3] ∧
  avail (mem (after two_deques 6)) = 1%N ∧
  deque_t_copy 8 4%N 1%N (after two_deques 6) = Fault ∧
  AddOtherDeque 8 3%N 1%N (after two_deques 6) = Fault ∧
  assign_copy 8 3%N 1%N (after two_deques 6) = Fault.
Proof.
  assert (Hrun : run 8 two_deques (initial 6) = Some (after two_deques 6))
    by (vm_compute; reflexivity).
  assert (Hobj : objs (after two_deques 6) !! 1%N = Some (deque_at (after two_deques 6) 1%N))
    by (vm_compute; reflexivity).
  assert (Hl : contents (after two_deques 6) 1%N = Some [1; 2; 3])
    by (vm_compute; reflexivity).
  split; [exact Hrun|]. split; [exact Hobj|]. split; [exact Hl|].
  split; [vm_compute; reflexivity|].
  split; [|split].
  - apply (proj1 (copy_without_memory_is_undefined 8 6 two_deques _ 8 4%N 1%N _ _
                    Hrun Hobj Hl ltac:(discriminate) ltac:(simpl; lia)));
      [vm_compute; reflexivity|vm_compute; reflexivity].
  - apply (proj1 (proj2 (copy_without_memory_is_undefined 8 6 two_deques _ 8 3%N 1%N _ _
                    Hrun Hobj Hl ltac:(discriminate) ltac:(simpl; lia))));
      [vm_compute; eauto|vm_compute; reflexivity].
  - apply (proj2 (proj2 (copy_without_memory_is_undefined 8 6 two_deques _ 8 3%N 1%N _ _
                    Hrun Hobj Hl ltac:(discriminate) ltac:(simpl; lia))) []);
      [vm_compute; reflexivity|simpl; lia|vm_compute; reflexivity].
Defined.

End MoreWitnesses.
